(** * The Linux crash handler of the Swift runtime

    A shallow embedding of [stdlib/public/runtime/CrashHandlerLinux.cpp]:
    the signal-safe number formatting and the argument vector of the
    backtracer, the registry of paused threads, the suspension of the other
    threads, the memory server and its wire protocol, and the fatal-signal
    handler itself.

    Machine integers are [Z] with their wrap-around written out, bytes are
    [Byte.byte], C characters are [ascii], fixed buffers are lists updated by
    index, and system calls are read off an explicit description of what the
    outside world does.  Loops that the source does not bound take a [fuel]
    argument and return [None] when it runs out. *)

From Stdlib Require Import ZArith NArith Lia Bool List Ascii String.

From Stdlib Require Decimal Hexadecimal DecimalString HexadecimalString.
From Stdlib Require DecimalFacts HexadecimalFacts DecimalPos HexadecimalPos.
From Stdlib Require DecimalN HexadecimalN.
From Stdlib.Strings Require Byte.
From stdpp Require Import base option list gmap.

#[local] Open Scope Z_scope.

(** ** Characters and C strings *)

Definition NUL : ascii := ascii_of_N 0.

(** Narrowing an [int] to a [char]. *)
Definition char_of_Z (z : Z) : ascii := ascii_of_N (Z.to_N (z mod 256)).

(** The characters of a buffer up to its first NUL. *)
Fixpoint cstring (buffer : list ascii) : list ascii :=
  match buffer with
  | [] => []
  | c :: rest => if Ascii.eqb c NUL then [] else c :: cstring rest
  end.

(** ** Signal-safe formatting (lines 631-683) *)

Module Fmt.

(** The digit loop of [format_unsigned]: [ptr] is the index of the last
    character written, and the loop stops at the start of the buffer or when
    the value is used up. It returns the final [ptr] with the buffer. *)
Fixpoint unsigned_digits (ptr : nat) (u : Z) (buffer : list ascii)
  : nat * list ascii :=
  match ptr with
  | O => (O, buffer)
  | S ptr' =>
      let digit := 48 + u mod 10 in
      let buffer := <[ptr' := char_of_Z digit]> buffer in
      let u := u / 10 in
      if u =? 0 then (ptr', buffer) else unsigned_digits ptr' u buffer
  end.

(** One hexadecimal digit: ['0' + (addr & 0xf)], moved up to the letters
    when it is past ['9']. *)
Definition hex_digit (addr : Z) : Z :=
  let digit := 48 + Z.land addr 15 in
  if 57 <? digit then digit + (97 - 48 - 10) else digit.

(** The digit loop of [format_address]. *)
Fixpoint address_digits (ptr : nat) (addr : Z) (buffer : list ascii)
  : nat * list ascii :=
  match ptr with
  | O => (O, buffer)
  | S ptr' =>
      let buffer := <[ptr' := char_of_Z (hex_digit addr)]> buffer in
      let addr := Z.shiftr addr 4 in
      if addr =? 0 then (ptr', buffer) else address_digits ptr' addr buffer
  end.

(** [while ( *ptr ) *pt2++ = *ptr++; *pt2++ = '\0';] on one buffer. The
    recursion is on the distance to the end of the buffer, which the source
    leaves to the terminating NUL. *)
Fixpoint left_justify (todo : nat) (pt2 ptr : nat) (buffer : list ascii)
  : list ascii :=
  match todo with
  | O => <[pt2 := NUL]> buffer
  | S todo' =>
      match buffer !! ptr with
      | Some c =>
          if Ascii.eqb c NUL then <[pt2 := NUL]> buffer
          else left_justify todo' (S pt2) (S ptr) (<[pt2 := c]> buffer)
      | None => <[pt2 := NUL]> buffer
      end
  end.

Definition justify (ptr : nat) (buffer : list ascii) : list ascii :=
  if (0 <? ptr)%nat then left_justify (length buffer - ptr) 0 ptr buffer
  else buffer.

(** [format_unsigned(unsigned u, char buffer[22])]. *)
Definition format_unsigned (u : Z) (buffer : list ascii) : list ascii :=
  let buffer := <[21%nat := NUL]> buffer in
  let '(ptr, buffer) := unsigned_digits 21 u buffer in
  justify ptr buffer.

(** [format_address(uintptr_t addr, char buffer[18])]. *)
Definition format_address (addr : Z) (buffer : list ascii) : list ascii :=
  let buffer := <[17%nat := NUL]> buffer in
  let '(ptr, buffer) := address_digits 17 addr buffer in
  justify ptr buffer.

(** What the standard formatting routines print for an unsigned value:
    the digits of [N.to_uint] and [N.to_hex_uint], as [printf] does with
    ["%u"] and ["%lx"]. *)
Definition decimal (u : Z) : list ascii :=
  list_ascii_of_string (DecimalString.NilZero.string_of_uint (N.to_uint (Z.to_N u))).

Definition hexadecimal (a : Z) : list ascii :=
  list_ascii_of_string
    (HexadecimalString.NilZero.string_of_uint (N.to_hex_uint (Z.to_N a))).

End Fmt.

(** The characters of the digits of [DecimalFacts] and [HexadecimalFacts],
    and the digit of a remainder; they tie the loops above to the standard
    representations. *)

Definition dec_char (d : DecimalFacts.digits) : ascii :=
  match d with
  | DecimalFacts.d0 => "0" | DecimalFacts.d1 => "1" | DecimalFacts.d2 => "2"
  | DecimalFacts.d3 => "3" | DecimalFacts.d4 => "4" | DecimalFacts.d5 => "5"
  | DecimalFacts.d6 => "6" | DecimalFacts.d7 => "7" | DecimalFacts.d8 => "8"
  | DecimalFacts.d9 => "9"
  end%char.

Definition dec_digit_of (r : N) : DecimalFacts.digits :=
  match r with
  | 0 => DecimalFacts.d0 | 1 => DecimalFacts.d1 | 2 => DecimalFacts.d2
  | 3 => DecimalFacts.d3 | 4 => DecimalFacts.d4 | 5 => DecimalFacts.d5
  | 6 => DecimalFacts.d6 | 7 => DecimalFacts.d7 | 8 => DecimalFacts.d8
  | _ => DecimalFacts.d9
  end%N.

Definition hex_char (d : HexadecimalFacts.digits) : ascii :=
  match d with
  | HexadecimalFacts.d0 => "0" | HexadecimalFacts.d1 => "1"
  | HexadecimalFacts.d2 => "2" | HexadecimalFacts.d3 => "3"
  | HexadecimalFacts.d4 => "4" | HexadecimalFacts.d5 => "5"
  | HexadecimalFacts.d6 => "6" | HexadecimalFacts.d7 => "7"
  | HexadecimalFacts.d8 => "8" | HexadecimalFacts.d9 => "9"
  | HexadecimalFacts.da => "a" | HexadecimalFacts.db => "b"
  | HexadecimalFacts.dc => "c" | HexadecimalFacts.dd => "d"
  | HexadecimalFacts.de => "e" | HexadecimalFacts.df => "f"
  end%char.

Definition hex_digit_of (r : N) : HexadecimalFacts.digits :=
  match r with
  | 0 => HexadecimalFacts.d0 | 1 => HexadecimalFacts.d1
  | 2 => HexadecimalFacts.d2 | 3 => HexadecimalFacts.d3
  | 4 => HexadecimalFacts.d4 | 5 => HexadecimalFacts.d5
  | 6 => HexadecimalFacts.d6 | 7 => HexadecimalFacts.d7
  | 8 => HexadecimalFacts.d8 | 9 => HexadecimalFacts.d9
  | 10 => HexadecimalFacts.da | 11 => HexadecimalFacts.db
  | 12 => HexadecimalFacts.dc | 13 => HexadecimalFacts.dd
  | 14 => HexadecimalFacts.de | _ => HexadecimalFacts.df
  end%N.

(** ** Starting the backtracer (lines 590-804) *)

(** Modelled from the spec: the enumerations of the settings are declared in
    [swift/Runtime/Backtrace.h], which is not among the sources. Their
    enumerators are the ones the handler names in its [switch] statements,
    together with those that the [default:] branches and the comment on the
    TTY option stand for. *)

Module UnwindAlgorithm.
Inductive t := Auto | Fast | Precise.
End UnwindAlgorithm.

Module OnOffTty.
Inductive t := Default | Off | On | TTY.
End OnOffTty.

Module Preset.
Inductive t := Auto | Friendly | Medium | Full.
End Preset.

Module ThreadsToShow.
Inductive t := Preset | All | Crashed.
End ThreadsToShow.

Module RegistersToShow.
Inductive t := Preset | None | All | Crashed.
End RegistersToShow.

Module ImagesToShow.
Inductive t := Preset | None | All | Mentioned.
End ImagesToShow.

Module SanitizePaths.
Inductive t := Preset | Off | On.
End SanitizePaths.

Module OutputTo.
Inductive t := Auto | Stdout | Stderr.
End OutputTo.

(** Modelled from the spec: the settings structure is declared in
    [swift/Runtime/Backtrace.h] too. It has the fields that [run_backtracer]
    reads; [timeout] is [unsigned], [limit] and [top] are [int], and the
    fields printed by the [bool] overload of [trueOrFalse] are [demangle]
    and [cache]. *)
Record BacktraceSettings := {
  algorithm : UnwindAlgorithm.t;
  demangle : bool;
  interactive : OnOffTty.t;
  color : OnOffTty.t;
  timeout : Z;
  threads : ThreadsToShow.t;
  registers : RegistersToShow.t;
  images : ImagesToShow.t;
  limit : Z;
  top : Z;
  sanitize : SanitizePaths.t;
  preset : Preset.t;
  cache : bool;
  outputTo : OutputTo.t
}.

Module Launcher.

(** An entry of [backtracer_argv]: a string literal or one of the four
    character buffers, whose contents are read when the vector is used. *)
Inductive arg :=
  | Lit (s : string)
  | TimeoutBuf
  | AddrBuf
  | LimitBuf
  | TopBuf.

(** The globals of the launcher. The vector is kept without its closing
    [NULL]. *)
Record globals := {
  addr_buf : list ascii;
  timeout_buf : list ascii;
  limit_buf : list ascii;
  top_buf : list ascii;
  backtracer_argv : list arg
}.

Definition initial_argv : list arg :=
  [ Lit "swift-backtrace";
    Lit "--unwind"; Lit "precise";
    Lit "--demangle"; Lit "true";
    Lit "--interactive"; Lit "true";
    Lit "--color"; Lit "true";
    Lit "--timeout"; TimeoutBuf;
    Lit "--preset"; Lit "friendly";
    Lit "--crashinfo"; AddrBuf;
    Lit "--threads"; Lit "preset";
    Lit "--registers"; Lit "preset";
    Lit "--images"; Lit "preset";
    Lit "--limit"; LimitBuf;
    Lit "--top"; TopBuf;
    Lit "--sanitize"; Lit "preset";
    Lit "--cache"; Lit "true";
    Lit "--output-to"; Lit "stdout" ].

(** The globals as the program is loaded: the buffers are zeroed. *)
Definition initial : globals :=
  {| addr_buf := repeat NUL 18;
     timeout_buf := repeat NUL 22;
     limit_buf := repeat NUL 22;
     top_buf := repeat NUL 22;
     backtracer_argv := initial_argv |}.

(** [backtracer_argv[i] = "..."] *)
Definition set_argv (i : nat) (s : string) (g : globals) : globals :=
  {| addr_buf := addr_buf g;
     timeout_buf := timeout_buf g;
     limit_buf := limit_buf g;
     top_buf := top_buf g;
     backtracer_argv := <[i := Lit s]> (backtracer_argv g) |}.

Definition set_addr_buf (b : list ascii) (g : globals) : globals :=
  {| addr_buf := b;
     timeout_buf := timeout_buf g;
     limit_buf := limit_buf g;
     top_buf := top_buf g;
     backtracer_argv := backtracer_argv g |}.

Definition set_timeout_buf (b : list ascii) (g : globals) : globals :=
  {| addr_buf := addr_buf g;
     timeout_buf := b;
     limit_buf := limit_buf g;
     top_buf := top_buf g;
     backtracer_argv := backtracer_argv g |}.

Definition set_limit_buf (b : list ascii) (g : globals) : globals :=
  {| addr_buf := addr_buf g;
     timeout_buf := timeout_buf g;
     limit_buf := b;
     top_buf := top_buf g;
     backtracer_argv := backtracer_argv g |}.

Definition set_top_buf (b : list ascii) (g : globals) : globals :=
  {| addr_buf := addr_buf g;
     timeout_buf := timeout_buf g;
     limit_buf := limit_buf g;
     top_buf := b;
     backtracer_argv := backtracer_argv g |}.

(** [strcpy(dst, src)]: the characters of [src] and a closing NUL. *)
Definition strcpy (dst : list ascii) (src : string) : list ascii :=
  list_inserts 0 (list_ascii_of_string src ++ [NUL]) dst.

(** The two overloads of [trueOrFalse]. *)
Class TrueOrFalse (A : Type) := trueOrFalse : A -> string.

#[global] Instance trueOrFalse_bool : TrueOrFalse bool :=
  fun b => if b then "true"%string else "false"%string.

#[global] Instance trueOrFalse_OnOffTty : TrueOrFalse OnOffTty.t :=
  fun oot =>
    trueOrFalse (match oot with OnOffTty.On => true | _ => false end).

(** Conversion of an [int] argument to the [unsigned] parameter of
    [format_unsigned]. *)
Definition to_unsigned (i : Z) : Z := i mod 2 ^ 32.

(** The string an entry of the vector points to. *)
Definition deref (g : globals) (a : arg) : string :=
  match a with
  | Lit s => s
  | TimeoutBuf => string_of_list_ascii (cstring (timeout_buf g))
  | AddrBuf => string_of_list_ascii (cstring (addr_buf g))
  | LimitBuf => string_of_list_ascii (cstring (limit_buf g))
  | TopBuf => string_of_list_ascii (cstring (top_buf g))
  end.

(** The argument vector as the spawned process receives it. *)
Definition argv_strings (g : globals) : list string :=
  map (deref g) (backtracer_argv g).

Section run.

(** [_swift_spawnBacktracer], which lives outside this file: it is handed
    the arguments and the descriptor of the memory server. *)
Variable _swift_spawnBacktracer : list string -> Z -> bool.

(** The address of [crashInfo]. *)
Variable crashInfo_addr : Z.

Variable _swift_backtraceSettings : BacktraceSettings.

(** The statements of [run_backtracer], one definition each. *)

Definition assign_algorithm (g : globals) : globals :=
  match algorithm _swift_backtraceSettings with
  | UnwindAlgorithm.Fast => set_argv 2 "fast" g
  | _ => set_argv 2 "precise" g
  end.

Definition assign_demangle (g : globals) : globals :=
  set_argv 4 (trueOrFalse (demangle _swift_backtraceSettings)) g.

Definition assign_interactive (g : globals) : globals :=
  set_argv 6 (trueOrFalse (interactive _swift_backtraceSettings)) g.

Definition assign_color (g : globals) : globals :=
  set_argv 8 (trueOrFalse (color _swift_backtraceSettings)) g.

Definition assign_threads (g : globals) : globals :=
  match threads _swift_backtraceSettings with
  | ThreadsToShow.Preset => set_argv 16 "preset" g
  | ThreadsToShow.All => set_argv 16 "all" g
  | ThreadsToShow.Crashed => set_argv 16 "crashed" g
  end.

Definition assign_registers (g : globals) : globals :=
  match registers _swift_backtraceSettings with
  | RegistersToShow.Preset => set_argv 18 "preset" g
  | RegistersToShow.None => set_argv 18 "none" g
  | RegistersToShow.All => set_argv 18 "all" g
  | RegistersToShow.Crashed => set_argv 18 "crashed" g
  end.

Definition assign_images (g : globals) : globals :=
  match images _swift_backtraceSettings with
  | ImagesToShow.Preset => set_argv 20 "preset" g
  | ImagesToShow.None => set_argv 20 "none" g
  | ImagesToShow.All => set_argv 20 "all" g
  | ImagesToShow.Mentioned => set_argv 20 "mentioned" g
  end.

Definition assign_preset (g : globals) : globals :=
  match preset _swift_backtraceSettings with
  | Preset.Friendly => set_argv 12 "friendly" g
  | Preset.Medium => set_argv 12 "medium" g
  | _ => set_argv 12 "full" g
  end.

Definition assign_sanitize (g : globals) : globals :=
  match sanitize _swift_backtraceSettings with
  | SanitizePaths.Preset => set_argv 26 "preset" g
  | SanitizePaths.Off => set_argv 26 "false" g
  | SanitizePaths.On => set_argv 26 "true" g
  end.

Definition assign_outputTo (g : globals) : globals :=
  match outputTo _swift_backtraceSettings with
  | OutputTo.Stdout => set_argv 30 "stdout" g
  | OutputTo.Auto
  | OutputTo.Stderr => set_argv 30 "stderr" g
  end.

Definition assign_cache (g : globals) : globals :=
  set_argv 28 (trueOrFalse (cache _swift_backtraceSettings)) g.

Definition format_timeout (g : globals) : globals :=
  set_timeout_buf
    (Fmt.format_unsigned (timeout _swift_backtraceSettings) (timeout_buf g)) g.

Definition format_limit (g : globals) : globals :=
  if limit _swift_backtraceSettings <? 0
  then set_limit_buf (strcpy (limit_buf g) "none") g
  else set_limit_buf
         (Fmt.format_unsigned (to_unsigned (limit _swift_backtraceSettings))
            (limit_buf g)) g.

Definition format_top (g : globals) : globals :=
  set_top_buf
    (Fmt.format_unsigned (to_unsigned (top _swift_backtraceSettings))
       (top_buf g)) g.

Definition format_crashInfo (g : globals) : globals :=
  set_addr_buf (Fmt.format_address crashInfo_addr (addr_buf g)) g.

(** The statements in the order of the source. *)
Definition statements : list (globals -> globals) :=
  [ assign_algorithm; assign_demangle; assign_interactive; assign_color;
    assign_threads; assign_registers; assign_images; assign_preset;
    assign_sanitize; assign_outputTo; assign_cache;
    format_timeout; format_limit; format_top; format_crashInfo ].

Definition set_up_argv (g : globals) : globals :=
  foldl (fun g statement => statement g) g statements.

(** [run_backtracer(memserver_fd)]: the result of the spawn, with the
    globals as it leaves them. *)
Definition run_backtracer (memserver_fd : Z) (g : globals) : bool * globals :=
  let g := set_up_argv g in
  (_swift_spawnBacktracer (argv_strings g) memserver_fd, g).

End run.

(** The globals have their shape: the name of the tool and the names of
    the options are in their slots of the vector, the four buffers are in
    theirs and have their sizes. The slots in between hold any values. *)
Definition shaped (g : globals) : Prop :=
  (exists v2 v4 v6 v8 v12 v16 v18 v20 v26 v28 v30 : arg,
     backtracer_argv g
     = [ Lit "swift-backtrace";
         Lit "--unwind"; v2;
         Lit "--demangle"; v4;
         Lit "--interactive"; v6;
         Lit "--color"; v8;
         Lit "--timeout"; TimeoutBuf;
         Lit "--preset"; v12;
         Lit "--crashinfo"; AddrBuf;
         Lit "--threads"; v16;
         Lit "--registers"; v18;
         Lit "--images"; v20;
         Lit "--limit"; LimitBuf;
         Lit "--top"; TopBuf;
         Lit "--sanitize"; v26;
         Lit "--cache"; v28;
         Lit "--output-to"; v30 ])
  /\ length (addr_buf g) = 18%nat /\ length (timeout_buf g) = 22%nat
  /\ length (limit_buf g) = 22%nat /\ length (top_buf g) = 22%nat.

End Launcher.

(** ** Thread handling (lines 237-283) *)

Module Registry.

(** Modelled from the spec: [struct thread] is declared in
    [swift/Runtime/Backtrace.h], which is not among the sources. Its fields
    are those of the initialiser [{ 0, (int64_t)gettid(), (uint64_t)uctx }]
    of the handlers: the link that the source calls [next], the thread id
    that it calls [tid], and the context pointer. *)
Record thread := {
  next : Z;
  tid : Z;
  uctx : Z
}.

(** The memory that holds thread records, by address (the records live in
    the frames of the signal handlers), and [crashInfo.thread_list]. *)
Record registry := {
  threads : gmap Z thread;
  thread_list : Z
}.

(** [struct thread self = { 0, tid, uctx }] at address [self]. *)
Definition new_thread (self tid uctx : Z) (r : registry) : registry :=
  {| threads := <[self := {| next := 0; tid := tid; uctx := uctx |}]> (threads r);
     thread_list := thread_list r |}.

Definition reset_threads (first : Z) (r : registry) : registry :=
  {| threads := threads r; thread_list := first |}.

(** [add_thread]: with no other thread between the load and the
    compare-and-swap, the loop body runs once. *)
Definition add_thread (thread : Z) (r : registry) : registry :=
  let next := thread_list r in
  {| threads :=
       alter (fun t => {| next := next; tid := tid t; uctx := uctx t |})
         thread (threads r);
     thread_list := thread |}.

(** The walk of [seen_thread] from the record at [next]. A pointer to no
    record gives no answer. *)
Fixpoint seen_from (fuel : nat) (wanted : Z) (heap : gmap Z thread) (next : Z)
  : option bool :=
  match fuel with
  | O => None
  | S fuel =>
      if next =? 0 then Some false
      else
        match heap !! next with
        | Some pthread =>
            if tid pthread =? wanted then Some true
            else seen_from fuel wanted heap (Registry.next pthread)
        | None => None
        end
  end.

Definition seen_thread (fuel : nat) (tid : Z) (r : registry) : option bool :=
  seen_from fuel tid (threads r) (thread_list r).

(** What [pause_thread] does to the registry on the thread [tid], whose
    handler frame keeps its record at [self]. *)
Definition pause_thread_record (self tid uctx : Z) (r : registry) : registry :=
  add_thread self (new_thread self tid uctx r).

(** One suspension cycle as the registry sees it: [reset_threads] with the
    caller's record, then the records of the threads that paused, given as
    (address, tid, context). *)
Definition cycle (first : Z) (paused : list (Z * Z * Z)) (r : registry)
  : registry :=
  foldl (fun r '(self, tid, uctx) => pause_thread_record self tid uctx r)
    (reset_threads first r) paused.

(** [linked heap p l]: following [next] from [p] visits the records [l], at
    the addresses given with them, and ends at the null pointer. *)
Inductive linked (heap : gmap Z thread) : Z -> list (Z * thread) -> Prop :=
  | linked_null : linked heap 0 []
  | linked_next (p : Z) (t : thread) (l : list (Z * thread)) :
      p <> 0 -> heap !! p = Some t -> linked heap (next t) l ->
      linked heap p ((p, t) :: l).

(** The addresses and the thread ids of the records of the threads that
    paused. *)
Definition addresses_of (paused : list (Z * Z * Z)) : list Z := paused.*1.*1.

Definition tids_of (paused : list (Z * Z * Z)) : list Z := paused.*1.*2.

(** The thread id of the record at [first], if there is one. *)
Definition head_tids (first : Z) (r : registry) : list Z :=
  if first =? 0 then []
  else match threads r !! first with
       | Some t => [tid t]
       | None => []
       end.

(** A registry with nothing in it, and one suspension cycle on it: thread
    10 crashes with its record at 1000, threads 11 and 12 pause. *)
Definition empty : registry := {| threads := ∅; thread_list := 0 |}.

Definition first_cycle : registry :=
  cycle 1000 [(2000, 11, 0); (3000, 12, 0)] (new_thread 1000 10 0 empty).

End Registry.

(** ** Signal dispositions *)

Inductive handler :=
  | SIG_DFL
  | handle_fatal_signal_handler
  | pause_thread_handler
  | memserver_fault_handler
  | other_handler (address : Z).

Definition SIGQUIT := 3.
Definition SIGILL := 4.
Definition SIGTRAP := 5.
Definition SIGABRT := 6.
Definition SIGBUS := 7.
Definition SIGFPE := 8.
Definition SIGSEGV := 11.
Definition SIGPROF := 27.

Definition signalsToHandle : list Z :=
  [SIGQUIT; SIGABRT; SIGBUS; SIGFPE; SIGILL; SIGSEGV; SIGTRAP].

#[global] Instance handler_eq_dec : EqDecision handler.
Proof. solve_decision. Defined.

(** ** Stopping the other threads (lines 285-448) *)

Module Suspend.

(** What the coordinator meets outside itself. The names are those that
    [getdents] lists in [/proc/self/task] on each pass (none when the
    directory could not be opened). A thread that answers the pausing signal
    runs [pause_thread] with its record at [frame tid]; it is taken to do so
    as soon as the signal is sent, which is one of the schedules the
    coordinator has to cope with. *)
Record env := {
  task_dir : nat -> list string;
  responds : Z -> bool;
  frame : Z -> Z;
  context : Z -> Z
}.

Record proc := {
  registry : Registry.registry;
  thread_lock : Z;
  threads_paused : Z;
  sigprof : handler;
  signalled : list Z;
  timeouts : nat
}.

Definition set_registry (r : Registry.registry) (p : proc) : proc :=
  {| registry := r; thread_lock := thread_lock p;
     threads_paused := threads_paused p; sigprof := sigprof p;
     signalled := signalled p; timeouts := timeouts p |}.

Definition set_thread_lock (v : Z) (p : proc) : proc :=
  {| registry := registry p; thread_lock := v;
     threads_paused := threads_paused p; sigprof := sigprof p;
     signalled := signalled p; timeouts := timeouts p |}.

Definition set_sigprof (h : handler) (p : proc) : proc :=
  {| registry := registry p; thread_lock := thread_lock p;
     threads_paused := threads_paused p; sigprof := h;
     signalled := signalled p; timeouts := timeouts p |}.

(** What stays true of the process while the coordinator runs, for a
    thread [silent] that never runs the pausing handler: the caller's record
    is in place at [self] and is not [silent]'s, and the registry holds no
    record of [silent]. *)
Definition unseen (self silent : Z) (p : proc) : Prop :=
  (exists t, Registry.threads (registry p) !! self = Some t
             /\ Registry.tid t <> silent)
  /\ forall fuel, Registry.seen_thread fuel silent (registry p) <> Some true.

(** [uint32_t] increment. *)
Definition incr32 (n : Z) : Z := (n + 1) mod 2 ^ 32.

(** [take_thread_lock]: the compare-and-swap from 0 to 1. While the lock is
    held the caller sleeps on the futex, and in a description with one
    running thread nobody wakes it. *)
Definition take_thread_lock (p : proc) : option proc :=
  if thread_lock p =? 0 then Some (set_thread_lock 1 p) else None.

Definition release_thread_lock (p : proc) : proc := set_thread_lock 0 p.

(** [notify_paused]. *)
Definition notify_paused (p : proc) : proc :=
  {| registry := registry p; thread_lock := thread_lock p;
     threads_paused := incr32 (threads_paused p); sigprof := sigprof p;
     signalled := signalled p; timeouts := timeouts p |}.

(** [pause_thread] on the thread [tid], up to the point where it sleeps on
    the thread lock. *)
Definition pause_thread (e : env) (tid : Z) (p : proc) : proc :=
  notify_paused
    (set_registry
       (Registry.pause_thread_record (frame e tid) tid (context e tid)
          (registry p)) p).

(** [tgkill(our_pid, tid, SIGPROF)]. *)
Definition tgkill (e : env) (tid : Z) (p : proc) : proc :=
  let p :=
    {| registry := registry p; thread_lock := thread_lock p;
       threads_paused := threads_paused p; sigprof := sigprof p;
       signalled := signalled p ++ [tid]; timeouts := timeouts p |} in
  if responds e tid then pause_thread e tid p else p.

(** [wait_paused(expected, timeout)]: it returns at once when the counter
    has the expected value; otherwise nothing changes the counter any more
    and the futex wait ends with the timeout. *)
Definition wait_paused (expected : Z) (p : proc) : proc :=
  if threads_paused p =? expected then p
  else
    {| registry := registry p; thread_lock := thread_lock p;
       threads_paused := threads_paused p; sigprof := sigprof p;
       signalled := signalled p; timeouts := S (timeouts p) |}.

(** [atoi], which the C library provides: white space is skipped, a sign
    may follow, and the decimal digits that come next are read up to the
    first character that is not one. *)
Definition digit_value (c : ascii) : option Z :=
  let n := Z.of_N (N_of_ascii c) in
  if (48 <=? n) && (n <=? 57) then Some (n - 48) else None.

Fixpoint atoi_from (acc : Z) (s : string) : Z :=
  match s with
  | EmptyString => acc
  | String c s' =>
      match digit_value c with
      | Some d => atoi_from (10 * acc + d) s'
      | None => acc
      end
  end.

(** [isspace] in the C locale: the space and the characters from
    horizontal tab to carriage return. *)
Definition isspace (c : ascii) : bool :=
  let n := Z.of_N (N_of_ascii c) in
  (n =? 32) || ((9 <=? n) && (n <=? 13)).

Fixpoint skip_space (s : string) : string :=
  match s with
  | EmptyString => s
  | String c s' => if isspace c then skip_space s' else s
  end.

(** [strtol(s, NULL, 10)]: the value is clamped to the range of [long]. *)
Definition strtol (s : string) : Z :=
  match skip_space s with
  | String "-" digits => Z.max (- 2 ^ 63) (- atoi_from 0 digits)
  | String "+" digits => Z.min (2 ^ 63 - 1) (atoi_from 0 digits)
  | digits => Z.min (2 ^ 63 - 1) (atoi_from 0 digits)
  end.

(** The conversion of a [long] to [int], which keeps the low 32 bits. *)
Definition int_of_long (v : Z) : Z :=
  let u := v mod 2 ^ 32 in
  if u <? 2 ^ 31 then u else u - 2 ^ 32.

(** [atoi(s)] is [(int) strtol(s, NULL, 10)] in the GNU C library. Outside
    the range of [int] the C standard leaves the result open. *)
Definition atoi (s : string) : Z := int_of_long (strtol s).

(** The inner [for (;;)] over the directory entries of one pass. It returns
    the new [thread_count]. *)
Fixpoint scan (fuel : nat) (e : env) (self : Z) (entries : list string)
    (thread_count : Z) (p : proc) : option (Z * proc) :=
  match entries with
  | [] => Some (thread_count, p)
  | d_name :: entries =>
      if String.eqb d_name "." || String.eqb d_name ".."
      then scan fuel e self entries thread_count p
      else
        let tid := atoi d_name in
        match Registry.threads (registry p) !! self with
        | None => None
        | Some self_record =>
            if tid =? Registry.tid self_record
            then scan fuel e self entries thread_count p
            else
              match Registry.seen_thread fuel tid (registry p) with
              | None => None
              | Some true => scan fuel e self entries thread_count p
              | Some false =>
                  scan fuel e self entries (incr32 thread_count)
                    (tgkill e tid p)
              end
        end
  end.

(** The [do ... while (old_thread_count != thread_count)] loop; [pass]
    counts the passes made so far. *)
Fixpoint passes (fuel : nat) (e : env) (self : Z) (pass : nat)
    (thread_count : Z) (p : proc) : option proc :=
  match fuel with
  | O => None
  | S fuel =>
      let old_thread_count := thread_count in
      match scan fuel e self (task_dir e pass) thread_count p with
      | None => None
      | Some (thread_count, p) =>
          let p := wait_paused thread_count p in
          if old_thread_count =? thread_count then Some p
          else passes fuel e self (S pass) thread_count p
      end
  end.

(** [suspend_other_threads(self)], with [self] the address of the caller's
    record. *)
Definition suspend_other_threads (fuel : nat) (e : env) (self : Z) (p : proc)
  : option proc :=
  match take_thread_lock p with
  | None => None
  | Some p =>
      let p := set_registry (Registry.reset_threads self (registry p)) p in
      let sa_old := sigprof p in
      let p := set_sigprof pause_thread_handler p in
      match passes fuel e self 0 0 p with
      | None => None
      | Some p => Some (set_sigprof sa_old p)
      end
  end.

Definition resume_other_threads (p : proc) : proc := release_thread_lock p.

(** A process whose crashing thread, 100, keeps its record at [self_addr];
    the other threads are 101 and 102. *)
Definition self_addr : Z := 4096.

Definition start : proc :=
  {| registry :=
       Registry.new_thread self_addr 100 0
         {| Registry.threads := ∅; Registry.thread_list := 0 |};
     thread_lock := 0; threads_paused := 0; sigprof := SIG_DFL;
     signalled := []; timeouts := O |}.

(** Every thread answers the signal. *)
Definition all_respond : env :=
  {| task_dir := fun _ => ["."; ".."; "100"; "101"; "102"]%string;
     responds := fun _ => true;
     frame := fun tid => 8192 * tid;
     context := fun _ => 0 |}.

(** The thread ids that a listing of the directory names, in its order. *)
Fixpoint listed (names : list string) : list Z :=
  match names with
  | [] => []
  | d_name :: names =>
      if String.eqb d_name "." || String.eqb d_name ".." then listed names
      else atoi d_name :: listed names
  end.

(** The registry while the coordinator runs: from [thread_list] on, the
    records of the threads [ts] that have paused, the last one first and
    each in the frame of its thread, and then the coordinator's own record
    [t] at [self]. *)
Definition paused (e : env) (self : Z) (t : Registry.thread) (ts : list Z)
    (p : proc) : Prop :=
  exists l,
    Registry.linked (Registry.threads (registry p))
      (Registry.thread_list (registry p)) l
    /\ l.*1 = reverse (frame e <$> ts) ++ [self]
    /\ (Registry.tid ∘ snd) <$> l = reverse ts ++ [Registry.tid t]
    /\ Registry.threads (registry p) !! self = Some t.

(** Thread 102 never runs the handler of the pausing signal. *)
Definition one_silent : env :=
  {| task_dir := fun _ => ["."; ".."; "100"; "101"; "102"]%string;
     responds := fun tid => negb (tid =? 102);
     frame := fun tid => 8192 * tid;
     context := fun _ => 0 |}.

End Suspend.

(** ** Bytes and wire records *)

Definition byte := Byte.byte.

Definition byte_of_Z (z : Z) : byte :=
  default Byte.x00 (Byte.of_N (Z.to_N (z mod 256))).

Definition Z_of_byte (b : byte) : Z := Z.of_N (Byte.to_N b).

(** An integer of [n] bytes in host byte order, which is little-endian on
    the Linux targets of the runtime. *)
Fixpoint le_bytes (n : nat) (v : Z) : list byte :=
  match n with
  | O => []
  | S n => byte_of_Z v :: le_bytes n (v / 256)
  end.

Fixpoint le_value (bs : list byte) : Z :=
  match bs with
  | [] => 0
  | b :: bs => Z_of_byte b + 256 * le_value bs
  end.

(** [uint64_t] arithmetic, and the value of 64 bits read as [int64_t]. *)
Definition wrap64 (z : Z) : Z := z mod 2 ^ 64.

Definition signed64 (z : Z) : Z :=
  let u := z mod 2 ^ 64 in
  if u <? 2 ^ 63 then u else u - 2 ^ 64.

(** Modelled from the spec: the wire records are declared in
    [swift/Runtime/Backtrace.h], which is not among the sources; their
    fields are those of section 6 of the spec, a request
    [{ address: u64, length: u64 }] and a response
    [{ address: u64, length: i64 }], sixteen bytes each. *)
Module memserver_req.
Record t := { addr : Z; len : Z }.
End memserver_req.

Module memserver_resp.
Record t := { addr : Z; len : Z }.
End memserver_resp.

Definition encode_req (req : memserver_req.t) : list byte :=
  le_bytes 8 (memserver_req.addr req) ++ le_bytes 8 (memserver_req.len req).

Definition decode_req (raw : list byte) : memserver_req.t :=
  {| memserver_req.addr := le_value (take 8 raw);
     memserver_req.len := le_value (take 8 (drop 8 raw)) |}.

Definition encode_resp (resp : memserver_resp.t) : list byte :=
  le_bytes 8 (memserver_resp.addr resp) ++ le_bytes 8 (memserver_resp.len resp).

(** ** Memory server (lines 450-588) *)

Module MemServer.

Definition EINTR : Z := 4.
Definition EFAULT : Z := 14.
Definition EPIPE : Z := 32.
Definition ECONNRESET : Z := 104.

(** What the peer's end of the socket gives to successive calls of [read]:
    some bytes, or an error. When the list is used up the peer has closed
    its end, and [read] returns 0. *)
Inductive in_event :=
  | InData (data : list byte)
  | InErr (errno : Z).

(** How successive calls of [write] fare: a call takes at most so many
    bytes, or fails. When the list is used up, every call takes all it is
    given. *)
Inductive out_event :=
  | OutTake (n : nat)
  | OutErr (errno : Z).

(** The memory server's view of the world. [mem] is the address space it
    shares with the crashed process, [None] where nothing readable is
    mapped; [capbset] is what [prctl(PR_CAPBSET_READ, CAP_SYS_PTRACE)]
    returns; [written] lists the bytes each successful [write] took.
    [faulted_copy from len buffer] is what a [memcpy] of [len] bytes from
    [from] that faults has made of the start of [buffer] by the time the
    fault arrives: which bytes the routine has stored by then is up to the
    C library. *)
Record world := {
  mem : Z -> option byte;
  faulted_copy : Z -> Z -> list byte -> list byte;
  capbset : Z;
  incoming : list in_event;
  outgoing : list out_event;
  written : list (list byte);
  errno : Z;
  closed : bool;
  dispositions : gmap Z handler;
  memserver_buffer : list byte;
  memserver_has_ptrace : bool
}.

Definition set_incoming (v : list in_event) (w : world) : world :=
  {| mem := mem w; faulted_copy := faulted_copy w; capbset := capbset w;
     incoming := v;
     outgoing := outgoing w; written := written w; errno := errno w;
     closed := closed w; dispositions := dispositions w;
     memserver_buffer := memserver_buffer w;
     memserver_has_ptrace := memserver_has_ptrace w |}.

Definition set_outgoing (v : list out_event) (w : world) : world :=
  {| mem := mem w; faulted_copy := faulted_copy w; capbset := capbset w;
     incoming := incoming w;
     outgoing := v; written := written w; errno := errno w;
     closed := closed w; dispositions := dispositions w;
     memserver_buffer := memserver_buffer w;
     memserver_has_ptrace := memserver_has_ptrace w |}.

Definition set_written (v : list (list byte)) (w : world) : world :=
  {| mem := mem w; faulted_copy := faulted_copy w; capbset := capbset w;
     incoming := incoming w;
     outgoing := outgoing w; written := v; errno := errno w;
     closed := closed w; dispositions := dispositions w;
     memserver_buffer := memserver_buffer w;
     memserver_has_ptrace := memserver_has_ptrace w |}.

Definition set_errno (v : Z) (w : world) : world :=
  {| mem := mem w; faulted_copy := faulted_copy w; capbset := capbset w;
     incoming := incoming w;
     outgoing := outgoing w; written := written w; errno := v;
     closed := closed w; dispositions := dispositions w;
     memserver_buffer := memserver_buffer w;
     memserver_has_ptrace := memserver_has_ptrace w |}.

Definition set_closed (v : bool) (w : world) : world :=
  {| mem := mem w; faulted_copy := faulted_copy w; capbset := capbset w;
     incoming := incoming w;
     outgoing := outgoing w; written := written w; errno := errno w;
     closed := v; dispositions := dispositions w;
     memserver_buffer := memserver_buffer w;
     memserver_has_ptrace := memserver_has_ptrace w |}.

Definition set_dispositions (v : gmap Z handler) (w : world) : world :=
  {| mem := mem w; faulted_copy := faulted_copy w; capbset := capbset w;
     incoming := incoming w;
     outgoing := outgoing w; written := written w; errno := errno w;
     closed := closed w; dispositions := v;
     memserver_buffer := memserver_buffer w;
     memserver_has_ptrace := memserver_has_ptrace w |}.

Definition set_memserver_buffer (v : list byte) (w : world) : world :=
  {| mem := mem w; faulted_copy := faulted_copy w; capbset := capbset w;
     incoming := incoming w;
     outgoing := outgoing w; written := written w; errno := errno w;
     closed := closed w; dispositions := dispositions w;
     memserver_buffer := v;
     memserver_has_ptrace := memserver_has_ptrace w |}.

Definition set_memserver_has_ptrace (v : bool) (w : world) : world :=
  {| mem := mem w; faulted_copy := faulted_copy w; capbset := capbset w;
     incoming := incoming w;
     outgoing := outgoing w; written := written w; errno := errno w;
     closed := closed w; dispositions := dispositions w;
     memserver_buffer := memserver_buffer w;
     memserver_has_ptrace := v |}.

(** *** System calls *)

(** [read(fd, buf, len)]: the return value, the bytes that arrive at the
    start of [buf], and the world afterwards. *)
Definition sys_read (len : Z) (w : world) : Z * list byte * world :=
  match incoming w with
  | [] => (0, [], w)
  | InErr e :: rest => (-1, [], set_errno e (set_incoming rest w))
  | InData data :: rest =>
      let got := take (Z.to_nat len) data in
      let left := drop (Z.to_nat len) data in
      (Z.of_nat (length got), got,
       set_incoming (match left with [] => rest | _ => InData left :: rest end) w)
  end.

(** [write(fd, buf, len)] of the bytes [data]. *)
Definition sys_write (data : list byte) (w : world) : Z * world :=
  match outgoing w with
  | [] => (Z.of_nat (length data), set_written (written w ++ [data]) w)
  | OutErr e :: rest => (-1, set_errno e (set_outgoing rest w))
  | OutTake n :: rest =>
      let taken := take n data in
      (Z.of_nat (length taken),
       set_written (written w ++ [taken]) (set_outgoing rest w))
  end.

(** One byte of the address space; there is nothing past its end. *)
Definition load (mem : Z -> option byte) (a : Z) : option byte :=
  if (0 <=? a) && (a <? 2 ^ 64) then mem a else None.

(** The [n] bytes from [a], when all of them can be read. *)
Fixpoint fetch (mem : Z -> option byte) (a : Z) (n : nat) : option (list byte) :=
  match n with
  | O => Some []
  | S n =>
      match load mem a, fetch mem (a + 1) n with
      | Some b, Some bs => Some (b :: bs)
      | _, _ => None
      end
  end.

(** The bytes from [a] that a copy running upwards reads before it meets
    one that cannot be read. *)
Fixpoint readable_prefix (mem : Z -> option byte) (a : Z) (n : nat) : list byte :=
  match n with
  | O => []
  | S n =>
      match load mem a with
      | Some b => b :: readable_prefix mem (a + 1) n
      | None => []
      end
  end.

(** [data] stored at the start of [buf]. *)
Definition store (data buf : list byte) : list byte :=
  data ++ drop (length data) buf.

(** *** [safe_read] and [safe_write] (lines 70-108) *)

(** [do { ret = read(fd, buf, len); } while (ret < 0 && errno == EINTR);] *)
Fixpoint read_retry (fuel : nat) (len : Z) (w : world)
  : option (Z * list byte * world) :=
  match fuel with
  | O => None
  | S fuel =>
      let '(ret, data, w) := sys_read len w in
      if (ret <? 0) && (errno w =? EINTR) then read_retry fuel len w
      else Some (ret, data, w)
  end.

(** The [while (ptr < end)] loop of [safe_read]; [ptr] and [end_] are
    offsets from [buf]. Each [read] is given [buf], not [ptr]. *)
Fixpoint safe_read_loop (fuel : nat) (buf : list byte) (ptr end_ total len : Z)
    (w : world) : option (Z * list byte * world) :=
  match fuel with
  | O => None
  | S fuel =>
      if ptr <? end_ then
        '(ret, data, w) ← read_retry fuel len w;
        let buf := store data buf in
        if ret <? 0 then Some (ret, buf, w)
        else safe_read_loop fuel buf (ptr + ret) end_ (total + ret) (len - ret) w
      else Some (total, buf, w)
  end.

Definition safe_read (fuel : nat) (buf : list byte) (len : Z) (w : world)
  : option (Z * list byte * world) :=
  safe_read_loop fuel buf 0 len 0 len w.

(** [do { ret = write(fd, buf, len); } while (ret < 0 && errno == EINTR);] *)
Fixpoint write_retry (fuel : nat) (data : list byte) (w : world)
  : option (Z * world) :=
  match fuel with
  | O => None
  | S fuel =>
      let '(ret, w) := sys_write data w in
      if (ret <? 0) && (errno w =? EINTR) then write_retry fuel data w
      else Some (ret, w)
  end.

(** The loop of [safe_write]. Each [write] is given [buf], not [ptr]. *)
Fixpoint safe_write_loop (fuel : nat) (buf : list byte) (ptr end_ total len : Z)
    (w : world) : option (Z * world) :=
  match fuel with
  | O => None
  | S fuel =>
      if ptr <? end_ then
        '(ret, w) ← write_retry fuel (take (Z.to_nat len) buf) w;
        if ret <? 0 then Some (ret, w)
        else safe_write_loop fuel buf (ptr + ret) end_ (total + ret) (len - ret) w
      else Some (total, w)
  end.

Definition safe_write (fuel : nat) (buf : list byte) (len : Z) (w : world)
  : option (Z * world) :=
  safe_write_loop fuel buf 0 len 0 len w.

(** *** The server *)

(** [memserver_read(memserver_buffer, from, len)]. With the capability,
    [process_vm_readv] transfers the pages that it can read, up to the first
    one that it cannot, and returns the number of bytes transferred; it
    fails with -1 and [EFAULT] only when it has transferred nothing. The
    address space is mapped by pages, so what is transferred is the
    readable prefix of the range. Without the capability, [memcpy] runs
    under the fault handler: it completes and [len] is returned, or it
    faults part of the way, [siglongjmp] brings control back to
    [sigsetjmp], and the [else] branch returns; the first [len] bytes of
    the buffer then hold what the copy has left there. *)
Definition memserver_read (from len : Z) (w : world) : Z * world :=
  if memserver_has_ptrace w then
    match fetch (mem w) from (Z.to_nat len) with
    | Some data => (len, set_memserver_buffer (store data (memserver_buffer w)) w)
    | None =>
        match readable_prefix (mem w) from (Z.to_nat len) with
        | [] => (-1, set_errno EFAULT w)
        | data =>
            (Z.of_nat (length data),
             set_memserver_buffer (store data (memserver_buffer w)) w)
        end
    end
  else
    match fetch (mem w) from (Z.to_nat len) with
    | Some data => (len, set_memserver_buffer (store data (memserver_buffer w)) w)
    | None =>
        (1, set_memserver_buffer
              (store
                 (take (Z.to_nat len)
                    (faulted_copy w from len (memserver_buffer w)))
                 (memserver_buffer w))
              w)
    end.

(** How the inner loop over one request ends. *)
Inductive served :=
  | Answered
  | Failed.

(** The [while (bytes)] loop of [memserver_entry]. *)
Fixpoint serve (fuel : nat) (addr bytes : Z) (w : world) : option (served * world) :=
  match fuel with
  | O => None
  | S fuel =>
      if bytes =? 0 then Some (Answered, w)
      else
        let todo := if bytes <? 4096 then bytes else 4096 in
        let '(ret, w) := memserver_read addr todo w in
        let resp := {| memserver_resp.addr := addr; memserver_resp.len := ret |} in
        '(ret, w) ← safe_write fuel (encode_resp resp) 16 w;
        if negb (ret =? 16) then Some (Failed, w)
        else if memserver_resp.len resp <? 0 then Some (Answered, w)
        else
          '(ret, w) ← safe_write fuel (memserver_buffer w)
                         (memserver_resp.len resp) w;
          if negb (ret =? memserver_resp.len resp) then Some (Failed, w)
          else serve fuel (wrap64 (addr + memserver_resp.len resp))
                 (wrap64 (bytes - memserver_resp.len resp)) w
  end.

(** The [for (;;)] loop of [memserver_entry], with the value of [result] at
    its end. [req] is the stack slot of the request. *)
Fixpoint serve_requests (fuel : nat) (req : list byte) (w : world)
  : option (Z * world) :=
  match fuel with
  | O => None
  | S fuel =>
      '(ret, req, w) ← safe_read fuel req 16 w;
      if negb (ret =? 16) then Some (0, w)
      else
        let addr := memserver_req.addr (decode_req req) in
        let bytes := memserver_req.len (decode_req req) in
        '(end_, w) ← serve fuel addr bytes w;
        match end_ with
        | Failed => Some (1, w)
        | Answered => serve_requests fuel req w
        end
  end.

(** The start of [memserver_entry]: the capability probe, and the fault
    handlers when the capability is missing. *)
Definition probe (w : world) : world :=
  let w := set_memserver_has_ptrace (negb (capbset w =? 0)) w in
  if memserver_has_ptrace w then w
  else
    set_dispositions
      (<[SIGBUS := memserver_fault_handler]>
         (<[SIGSEGV := memserver_fault_handler]> (dispositions w))) w.

(** [memserver_entry]: the probe, the protocol loop, and [close(fd)]. [req]
    is what the stack slot of the request holds at first. *)
Definition memserver_entry (fuel : nat) (req : list byte) (w : world)
  : option (Z * world) :=
  '(result, w) ← serve_requests fuel req (probe w);
  Some (result, set_closed true w).

(** *** What a client sees *)

(** A response header with the payload that follows it. *)
Definition frame : Type := memserver_resp.t * list byte.

(** The [write]s of one frame: the header, and the payload unless the
    length is negative. *)
Definition frame_writes (f : frame) : list (list byte) :=
  encode_resp f.1 :: (if memserver_resp.len f.1 <? 0 then [] else [f.2]).

Definition frames_writes (fs : list frame) : list (list byte) :=
  concat (frame_writes <$> fs).

(** A frame is well formed when its payload has exactly the length that
    its header gives, or is empty under a negative length. *)
Definition well_framed (f : frame) : Prop :=
  if memserver_resp.len f.1 <? 0 then f.2 = []
  else Z.of_nat (length f.2) = memserver_resp.len f.1.

(** The frames answer consecutive pieces of memory from [addr] on. *)
Fixpoint contiguous (addr : Z) (fs : list frame) : Prop :=
  match fs with
  | [] => True
  | f :: fs =>
      memserver_resp.addr f.1 = addr
      /\ contiguous (addr + memserver_resp.len f.1) fs
  end.

(** The frames answer [bytes] bytes from [addr] in chunks: every frame
    takes up where the one before it ended and carries 4096 bytes, or what
    is left when that is less. *)
Fixpoint chunked (addr bytes : Z) (fs : list frame) : Prop :=
  match fs with
  | [] => bytes = 0
  | f :: fs =>
      0 < bytes
      /\ memserver_resp.addr f.1 = addr
      /\ memserver_resp.len f.1 = Z.min bytes 4096
      /\ chunked (addr + memserver_resp.len f.1)
           (bytes - memserver_resp.len f.1) fs
  end.

(** A negative length ends the answer: no frame follows it. *)
Fixpoint ends_at_fault (fs : list frame) : Prop :=
  match fs with
  | [] => True
  | f :: fs => (memserver_resp.len f.1 < 0 -> fs = []) /\ ends_at_fault fs
  end.

(** The pipe is clear: every [write] is taken whole, and the buffer has
    its 4096 bytes. *)
Definition clear (w : world) : Prop :=
  outgoing w = [] /\ length (memserver_buffer w) = 4096%nat.

(** [w'] differs from [w] in what has been written and in the buffer, and
    in [errno], only. *)
Definition same_channel (w w' : world) : Prop :=
  mem w' = mem w /\ incoming w' = incoming w /\ outgoing w' = outgoing w
  /\ closed w' = closed w /\ memserver_has_ptrace w' = memserver_has_ptrace w
  /\ length (memserver_buffer w') = length (memserver_buffer w).

(** A world at the start of the server: nothing written yet, every write
    taken whole, a zeroed buffer, and a [memcpy] that has stored nothing
    when it faults. *)
Definition boot (mem : Z -> option byte) (capbset : Z) (incoming : list in_event)
  : world :=
  {| mem := mem; faulted_copy := fun _ _ buffer => buffer;
     capbset := capbset; incoming := incoming; outgoing := [];
     written := []; errno := 0; closed := false; dispositions := ∅;
     memserver_buffer := repeat Byte.x00 4096;
     memserver_has_ptrace := false |}.

(** Two pages are mapped at 0x1000; each byte holds the low bits of its
    address. *)
Definition two_pages (a : Z) : option byte :=
  if (4096 <=? a) && (a <? 12288) then Some (byte_of_Z a) else None.

Definition request (addr len : Z) : in_event :=
  InData (encode_req {| memserver_req.addr := addr; memserver_req.len := len |}).

(** What the stack slot of the request holds at first. *)
Definition blank_req : list byte := repeat Byte.x00 16.


(** The bytes of all the [write]s, in order. *)
Definition wire (w : world) : list byte := concat (written w).

(** [w'] comes after [w] in a run of the server: the address space, the
    capability, the signal handlers and the state of the descriptor are the
    same, what has been written has only grown, and the errors that the
    channel still holds were already there. *)
Definition follows (w w' : world) : Prop :=
  mem w' = mem w /\ capbset w' = capbset w
  /\ dispositions w' = dispositions w
  /\ memserver_has_ptrace w' = memserver_has_ptrace w
  /\ closed w' = closed w
  /\ written w `prefix_of` written w'
  /\ (forall e, InErr e ∈ incoming w' -> InErr e ∈ incoming w)
  /\ (forall e, OutErr e ∈ outgoing w' -> OutErr e ∈ outgoing w).

(** A session: the requests of the client, each an address and a length,
    and then an error on the channel. *)
Definition session (requests : list (Z * Z)) (e : Z) : list in_event :=
  ((fun r : Z * Z => request r.1 r.2) <$> requests) ++ [InErr e].

(** All that holds of the frames written for one request [r], an address
    and a length, over the address space [mem]. *)
Definition framed (mem : Z -> option byte) (r : Z * Z) (frames : list frame)
  : Prop :=
  Forall well_framed frames
  /\ ends_at_fault frames
  /\ (frames = [] <-> r.2 = 0)
  /\ (forall data,
        fetch mem r.1 (Z.to_nat r.2) = Some data -> r.1 + r.2 <= 2 ^ 64 ->
        concat (snd <$> frames) = data
        /\ contiguous r.1 frames
        /\ chunked r.1 r.2 frames
        /\ Forall (fun f : frame => 0 < memserver_resp.len f.1 <= 4096) frames
        /\ Z.of_nat (length frames) = (r.2 + 4095) / 4096).

(** [frames] answer the request [r] over the address space [mem]: they are
    well formed, nothing follows a negative length, a request for nothing
    has no frame, and a readable range comes back whole, in chunks. *)
Definition answers (mem : Z -> option byte) (r : Z * Z) (frames : list frame)
  : Prop :=
  Forall well_framed frames
  /\ ends_at_fault frames
  /\ (frames = [] <-> r.2 = 0)
  /\ (forall data,
        fetch mem r.1 (Z.to_nat r.2) = Some data -> r.1 + r.2 <= 2 ^ 64 ->
        concat (snd <$> frames) = data /\ chunked r.1 r.2 frames).

End MemServer.

(** ** The fatal-signal handler (lines 184-235) *)

Module Handler.

(** The functions the handler calls that act on the rest of the process. *)
Inductive callee :=
  | suspend_other_threads
  | memserver_start
  | run_backtracer
  | resume_other_threads.

(** What the handler does, in the order in which it does it. A call that
    does not return leaves its [Call] without a [Return]. *)
Inductive event :=
  | Call (f : callee)
  | Return (f : callee)
  | ResetSignal (signum : Z)
  | StoreCrashInfo
  | RestoreErrno.

#[global] Instance callee_eq_dec : EqDecision callee.
Proof. solve_decision. Defined.

#[global] Instance event_eq_dec : EqDecision event.
Proof. solve_decision. Defined.

(** The fields of [crashInfo] that the handler fills in. *)
Record CrashInfo := {
  crashing_thread : Z;
  signal : Z;
  fault_address : Z
}.

(** The state of the process that the handler reads and writes: [errno] of
    the crashing thread, the installed signal handlers by signal number, and
    [crashInfo]. *)
Record process := {
  errno : Z;
  dispositions : gmap Z handler;
  crashInfo : CrashInfo
}.

(** A computation of the handler: the events it produces, and its result
    with the new state unless a callee did not return. *)
Definition M (A : Type) : Type := process -> list event * option (A * process).

#[global] Instance handler_ret : MRet M :=
  fun A (a : A) p => ([], Some (a, p)).

#[global] Instance handler_bind : MBind M :=
  fun A B (k : A -> M B) (m : M A) p =>
    match m p with
    | (tr, None) => (tr, None)
    | (tr, Some (a, p')) =>
        let '(tr', r) := k a p' in (tr ++ tr', r)
    end.

(** A call of one of the callees, which may change the state in any way and
    may not return. *)
Definition call {A} (f : callee) (body : process -> option (A * process)) : M A :=
  fun p =>
    match body p with
    | None => ([Call f], None)
    | Some r => ([Call f; Return f], Some r)
    end.

Definition get_errno : M Z := fun p => ([], Some (errno p, p)).

Definition set_errno (v : Z) : M unit :=
  fun p =>
    ([RestoreErrno],
     Some (tt, {| errno := v; dispositions := dispositions p;
                  crashInfo := crashInfo p |})).

(** [reset_signal(signum)]: [sigaction] with [SIG_DFL]. *)
Definition reset_signal (signum : Z) : M unit :=
  fun p =>
    ([ResetSignal signum],
     Some (tt, {| errno := errno p;
                  dispositions := <[signum := SIG_DFL]> (dispositions p);
                  crashInfo := crashInfo p |})).

Definition store_crashInfo (c : CrashInfo) : M unit :=
  fun p =>
    ([StoreCrashInfo],
     Some (tt, {| errno := errno p; dispositions := dispositions p;
                  crashInfo := c |})).

(** [for (n = 0; n < lengthof(signalsToHandle); ++n) reset_signal(...)]. *)
Fixpoint reset_signals (signals : list Z) : M unit :=
  match signals with
  | [] => mret tt
  | signum :: signals => reset_signal signum;; reset_signals signals
  end.

Section handler.

(** The callees, as anything they may do to the state. *)
Variable suspend : Registry.thread -> process -> option (unit * process).
Variable memserver : process -> option (Z * process).
Variable backtracer : Z -> process -> option (bool * process).
Variable resume : process -> option (unit * process).

(** [gettid()] of the crashing thread. *)
Variable gettid : Z.

(** [handle_fatal_signal(signum, pinfo, uctx)], with [si_addr] for
    [pinfo->si_addr]. *)
Definition handle_fatal_signal (signum si_addr uctx : Z) : M unit :=
  old_err ← get_errno;
  let self := {| Registry.next := 0; Registry.tid := gettid;
                 Registry.uctx := uctx |} in
  call suspend_other_threads (suspend self);;
  reset_signals signalsToHandle;;
  store_crashInfo {| crashing_thread := Registry.tid self;
                     signal := signum;
                     fault_address := si_addr |};;
  fd ← call memserver_start memserver;
  call run_backtracer (backtracer fd);;
  reset_signal SIGSEGV;;
  reset_signal SIGBUS;;
  call resume_other_threads resume;;
  set_errno old_err.

End handler.

(** [precedes a b tr]: wherever [b] occurs in [tr], [a] has occurred
    before. *)
Definition precedes (a b : event) (tr : list event) : Prop :=
  forall j, tr !! j = Some b -> exists i, (i < j)%nat /\ tr !! i = Some a.

(** The same as a test: the first of the two to occur, if any, is [a]. *)
Fixpoint precedesb (a b : event) (tr : list event) : bool :=
  match tr with
  | [] => true
  | x :: tr =>
      if bool_decide (x = b) then false
      else if bool_decide (x = a) then true
      else precedesb a b tr
  end.

(** A process with [errno] 7, and a callee that overwrites [errno] and
    installs a handler for [SIGSEGV]. *)
Definition sample_process : process :=
  {| errno := 7; dispositions := ∅;
     crashInfo := {| crashing_thread := 0; signal := 0; fault_address := 0 |} |}.

Definition sample_clobber (p : process) : process :=
  {| errno := 99;
     dispositions := <[SIGSEGV := memserver_fault_handler]> (dispositions p);
     crashInfo := crashInfo p |}.

#[global] Instance CrashInfo_eq_dec : EqDecision CrashInfo.
Proof. solve_decision. Defined.

(** The state in which the memory server is to be started: every fatal
    signal has its default action again, and [crashInfo] holds [c]. *)
Definition ready (c : CrashInfo) (p : process) : bool :=
  forallb (fun s => bool_decide (dispositions p !! s = Some SIG_DFL))
    signalsToHandle
  && bool_decide (crashInfo p = c).

(** A callee that runs only in the states that pass [test]: in any other
    state it does not return. *)
Definition only_when {A} (test : process -> bool)
    (body : process -> option (A * process)) : process -> option (A * process) :=
  fun p => if test p then body p else None.

(** A callee that leaves the handlers of all signals but [SIGSEGV] and
    [SIGBUS] as they are. *)
Definition touches_fault_handlers_only {A}
    (body : process -> option (A * process)) : Prop :=
  forall p a p',
    body p = Some (a, p') ->
    forall s, s <> SIGSEGV -> s <> SIGBUS ->
              dispositions p' !! s = dispositions p !! s.

(** A callee that leaves all handlers as they are. *)
Definition keeps_handlers {A} (body : process -> option (A * process)) : Prop :=
  forall p a p', body p = Some (a, p') -> dispositions p' = dispositions p.

End Handler.

(** ** Installing the handler (lines 128-178) *)

Module Install.

(** [stack_t]; [ss_sp] is null when the thread has no alternate stack. *)
Record stack_t := {
  ss_sp : Z;
  ss_flags : Z;
  ss_size : Z
}.

(** [struct sigaction]; the mask is the set of the signals in it. *)
Record sigaction_t := {
  sa_handler : handler;
  sa_mask : gset Z;
  sa_flags : Z
}.

Definition SA_SIGINFO : Z := 4.
Definition SA_ONSTACK : Z := 134217728.
Definition SA_NODEFER : Z := 1073741824.

(** What a signal has before anybody calls [sigaction] for it. *)
Definition default_action : sigaction_t :=
  {| sa_handler := SIG_DFL; sa_mask := ∅; sa_flags := 0 |}.

(** The state that the function reads and writes: the alternate stack of
    the calling thread, the actions by signal number, the anonymous
    mappings made (address and size), and [errno]. *)
Record process := {
  altstack : stack_t;
  actions : gmap Z sigaction_t;
  mappings : list (Z * Z);
  errno : Z
}.

Definition action (p : process) (signum : Z) : sigaction_t :=
  default default_action (actions p !! signum).

Definition set_altstack (ss : stack_t) (p : process) : process :=
  {| altstack := ss; actions := actions p; mappings := mappings p;
     errno := errno p |}.

Definition set_action (signum : Z) (sa : sigaction_t) (p : process) : process :=
  {| altstack := altstack p; actions := <[signum := sa]> (actions p);
     mappings := mappings p; errno := errno p |}.

Definition add_mapping (sp size : Z) (p : process) : process :=
  {| altstack := altstack p; actions := actions p;
     mappings := (sp, size) :: mappings p; errno := errno p |}.

Definition set_errno (e : Z) (p : process) : process :=
  {| altstack := altstack p; actions := actions p; mappings := mappings p;
     errno := e |}.

(** How the system calls fare: each fails with the value of [errno] given,
    or succeeds; [mmap] gives the address of the new mapping or fails. *)
Record kernel := {
  sigaltstack_query : option Z;
  mmap : Z -> Z + Z;
  sigaltstack_install : stack_t -> option Z;
  sigaction_query : Z -> option Z;
  sigaction_install : Z -> option Z
}.

(** [return errno;] after a call that failed with [e]. *)
Definition fail (e : Z) (p : process) : Z * process := (e, set_errno e p).

Definition sigdelset (mask : gset Z) (signum : Z) : gset Z := mask ∖ {[signum]}.

Definition is_SIG_DFL (h : handler) : bool :=
  match h with
  | SIG_DFL => true
  | _ => false
  end.

Section install.

(** [SIGSTKSZ], and the set that [sigfillset] gives. *)
Variable SIGSTKSZ : Z.
Variable sigfillset : gset Z.

Variable k : kernel.

(** [sa] after the first loop and the two assignments. *)
Definition crash_action : sigaction_t :=
  {| sa_handler := handle_fatal_signal_handler;
     sa_mask := foldl sigdelset sigfillset signalsToHandle;
     sa_flags := Z.lor (Z.lor SA_ONSTACK SA_SIGINFO) SA_NODEFER |}.

(** The second loop, over the signals that are left. *)
Fixpoint install_handlers (sa : sigaction_t) (signals : list Z) (p : process)
  : Z * process :=
  match signals with
  | [] => (0, p)
  | signum :: signals =>
      match sigaction_query k signum with
      | Some e => fail e p
      | None =>
          let osa := action p signum in
          if is_SIG_DFL (sa_handler osa) then
            match sigaction_install k signum with
            | Some e => fail e p
            | None => install_handlers sa signals (set_action signum sa p)
            end
          else install_handlers sa signals p
      end
  end.

Definition _swift_installCrashHandler (p : process) : Z * process :=
  match sigaltstack_query k with
  | Some e => fail e p
  | None =>
      let ss := altstack p in
      if ss_sp ss =? 0 then
        let size := SIGSTKSZ + 16384 in
        match mmap k size with
        | inr e => fail e p
        | inl sp =>
            let p := add_mapping sp size p in
            let ss := {| ss_sp := sp; ss_flags := 0; ss_size := size |} in
            match sigaltstack_install k ss with
            | Some e => fail e p
            | None =>
                install_handlers crash_action signalsToHandle
                  (set_altstack ss p)
            end
        end
      else install_handlers crash_action signalsToHandle p
  end.

End install.

(** A kernel where no call fails and [mmap] gives the address [sp]. *)
Definition obliging (sp : Z) : kernel :=
  {| sigaltstack_query := None;
     mmap := fun _ => inl sp;
     sigaltstack_install := fun _ => None;
     sigaction_query := fun _ => None;
     sigaction_install := fun _ => None |}.

(** A process at start-up that has its own handler for [SIGTRAP]. *)
Definition fresh : process :=
  {| altstack := {| ss_sp := 0; ss_flags := 2; ss_size := 0 |};
     actions :=
       {[ SIGTRAP := {| sa_handler := other_handler 4198400; sa_mask := ∅;
                        sa_flags := 0 |} ]};
     mappings := [];
     errno := 0 |}.

End Install.

(** Settings used to run the launcher on a concrete input. *)
Definition sample_settings : BacktraceSettings :=
  {| algorithm := UnwindAlgorithm.Auto;
     demangle := true;
     interactive := OnOffTty.TTY;
     color := OnOffTty.Off;
     timeout := 30;
     threads := ThreadsToShow.Preset;
     registers := RegistersToShow.Preset;
     images := ImagesToShow.Preset;
     limit := -1;
     top := 16;
     sanitize := SanitizePaths.Preset;
     preset := Preset.Auto;
     cache := true;
     outputTo := OutputTo.Auto |}.

(** * Formatting *)

Section decimal_digits.
Import Decimal DecimalFacts.

Lemma dec_string_to_list (d : uint) :
  list_ascii_of_string (DecimalString.NilEmpty.string_of_uint d)
  = map dec_char (to_list d).
Proof. induction d; simpl; congruence. Qed.

Lemma decimal_to_list (u : Z) :
  Fmt.decimal u = map dec_char (to_list (N.to_uint (Z.to_N u))).
Proof.
  unfold Fmt.decimal, DecimalString.NilZero.string_of_uint.
  rewrite <- dec_string_to_list.
  destruct (N.to_uint (Z.to_N u)) eqn:E; try reflexivity.
  destruct (Z.to_N u); simpl in E; [discriminate|].
  now apply DecimalPos.Unsigned.to_uint_nonnil in E.
Qed.

Lemma dec_lu_cons (r : N) (d : uint) :
  (r < 10)%N ->
  DecimalPos.Unsigned.of_lu (of_list (dec_digit_of r :: to_list d))
  = (r + 10 * DecimalPos.Unsigned.of_lu d)%N.
Proof.
  intros Hr.
  assert (r = 0 \/ r = 1 \/ r = 2 \/ r = 3 \/ r = 4 \/ r = 5 \/ r = 6
          \/ r = 7 \/ r = 8 \/ r = 9)%N as H by lia.
  repeat (destruct H as [-> | H]); try subst r; cbn [dec_digit_of of_list];
    rewrite of_list_to_list; reflexivity.
Qed.

Lemma to_uint_head (n : N) :
  (0 < n)%N -> exists h t, to_list (N.to_uint n) = h :: t /\ h <> d0.
Proof.
  intros Hn. destruct n as [|p]; [lia|]. cbn [N.to_uint].
  pose proof (DecimalPos.Unsigned.to_of (Pos.to_uint p)) as H.
  rewrite DecimalPos.Unsigned.of_to in H. cbn [N.to_uint] in H.
  pose proof (DecimalPos.Unsigned.to_uint_nonzero p) as Hz.
  pose proof (DecimalPos.Unsigned.to_uint_nonnil p) as Hn'.
  destruct (Pos.to_uint p) as [|d|d|d|d|d|d|d|d|d|d] eqn:E;
    try contradiction;
    try (cbn [to_list]; eexists _, _; split; [reflexivity|discriminate]).
  exfalso. rewrite unorm_D0 in H.
  unfold unorm in H. destruct (nzhead d) eqn:En; try discriminate.
  - injection H as H. subst d. now apply Hz.
  - now apply nzhead_nonzero in En.
Qed.

Lemma to_uint_step (n : N) :
  (10 <= n)%N ->
  to_list (N.to_uint n)
  = to_list (N.to_uint (n / 10)) ++ [dec_digit_of (n mod 10)].
Proof.
  intros Hn.
  set (A := N.to_uint (n / 10)).
  set (X := of_list (to_list A ++ [dec_digit_of (n mod 10)])).
  assert (HX : N.of_uint X = n).
  { unfold N.of_uint. rewrite DecimalPos.Unsigned.of_uint_alt.
    replace (rev X) with (of_list (dec_digit_of (n mod 10) :: to_list (rev A))).
    2:{ apply to_list_inj. unfold X.
        repeat rewrite ?rev_spec, ?to_list_of_list.
        now rewrite rev_app_distr. }
    rewrite dec_lu_cons by (apply N.mod_lt; lia).
    rewrite <- DecimalPos.Unsigned.of_uint_alt.
    change (Pos.of_uint A) with (N.of_uint A). unfold A.
    rewrite DecimalN.Unsigned.of_to.
    pose proof (N.div_mod n 10). lia. }
  rewrite <- HX at 1. rewrite DecimalN.Unsigned.to_of.
  rewrite unorm_spec. unfold X. rewrite to_list_of_list.
  destruct (to_uint_head (n / 10)) as (h & t & Eh & Hh).
  { apply N.div_str_pos. lia. }
  fold A in Eh. rewrite Eh. cbn [List.app]. unfold lunorm.
  rewrite lnzhead_head_nd0 by assumption. reflexivity.
Qed.

End decimal_digits.

Section hexadecimal_digits.
Import Hexadecimal HexadecimalFacts.

Lemma hex_string_to_list (d : uint) :
  list_ascii_of_string (HexadecimalString.NilEmpty.string_of_uint d)
  = map hex_char (to_list d).
Proof. induction d; simpl; congruence. Qed.

Lemma hexadecimal_to_list (a : Z) :
  Fmt.hexadecimal a = map hex_char (to_list (N.to_hex_uint (Z.to_N a))).
Proof.
  unfold Fmt.hexadecimal, HexadecimalString.NilZero.string_of_uint.
  rewrite <- hex_string_to_list.
  destruct (N.to_hex_uint (Z.to_N a)) eqn:E; try reflexivity.
  destruct (Z.to_N a); simpl in E; [discriminate|].
  now apply HexadecimalPos.Unsigned.to_uint_nonnil in E.
Qed.

Lemma hex_lu_cons (r : N) (d : uint) :
  (r < 16)%N ->
  HexadecimalPos.Unsigned.of_lu (of_list (hex_digit_of r :: to_list d))
  = (r + 16 * HexadecimalPos.Unsigned.of_lu d)%N.
Proof.
  intros Hr.
  assert (r = 0 \/ r = 1 \/ r = 2 \/ r = 3 \/ r = 4 \/ r = 5 \/ r = 6
          \/ r = 7 \/ r = 8 \/ r = 9 \/ r = 10 \/ r = 11 \/ r = 12
          \/ r = 13 \/ r = 14 \/ r = 15)%N as H by lia.
  repeat (destruct H as [-> | H]); try subst r; cbn [hex_digit_of of_list];
    rewrite of_list_to_list; reflexivity.
Qed.

Lemma to_hex_uint_head (n : N) :
  (0 < n)%N -> exists h t, to_list (N.to_hex_uint n) = h :: t /\ h <> d0.
Proof.
  intros Hn. destruct n as [|p]; [lia|]. cbn [N.to_hex_uint].
  pose proof (HexadecimalPos.Unsigned.to_of (Pos.to_hex_uint p)) as H.
  rewrite HexadecimalPos.Unsigned.of_to in H. cbn [N.to_hex_uint] in H.
  pose proof (HexadecimalPos.Unsigned.to_uint_nonzero p) as Hz.
  pose proof (HexadecimalPos.Unsigned.to_uint_nonnil p) as Hn'.
  destruct (Pos.to_hex_uint p) eqn:E;
    try contradiction;
    try (cbn [to_list]; eexists _, _; split; [reflexivity|discriminate]).
  exfalso. rewrite unorm_D0 in H.
  unfold unorm in H. destruct (nzhead u) eqn:En; try discriminate.
  - injection H as H. subst u. now apply Hz.
  - now apply nzhead_nonzero in En.
Qed.

Lemma to_hex_uint_step (n : N) :
  (16 <= n)%N ->
  to_list (N.to_hex_uint n)
  = to_list (N.to_hex_uint (n / 16)) ++ [hex_digit_of (n mod 16)].
Proof.
  intros Hn.
  set (A := N.to_hex_uint (n / 16)).
  set (X := of_list (to_list A ++ [hex_digit_of (n mod 16)])).
  assert (HX : N.of_hex_uint X = n).
  { unfold N.of_hex_uint. rewrite HexadecimalPos.Unsigned.of_uint_alt.
    replace (rev X) with (of_list (hex_digit_of (n mod 16) :: to_list (rev A))).
    2:{ apply to_list_inj. unfold X.
        repeat rewrite ?rev_spec, ?to_list_of_list.
        now rewrite rev_app_distr. }
    rewrite hex_lu_cons by (apply N.mod_lt; lia).
    rewrite <- HexadecimalPos.Unsigned.of_uint_alt.
    change (Pos.of_hex_uint A) with (N.of_hex_uint A). unfold A.
    rewrite HexadecimalN.Unsigned.of_to.
    pose proof (N.div_mod n 16). lia. }
  rewrite <- HX at 1. rewrite HexadecimalN.Unsigned.to_of.
  rewrite unorm_spec. unfold X. rewrite to_list_of_list.
  destruct (to_hex_uint_head (n / 16)) as (h & t & Eh & Hh).
  { apply N.div_str_pos. lia. }
  fold A in Eh. rewrite Eh. cbn [List.app]. unfold lunorm.
  rewrite lnzhead_head_nd0 by assumption. reflexivity.
Qed.

End hexadecimal_digits.

(** The last digit of the standard representations. *)

Lemma dec_char_of_Z (r : Z) :
  0 <= r < 10 -> dec_char (dec_digit_of (Z.to_N r)) = char_of_Z (48 + r).
Proof.
  intros Hr.
  assert (r = 0 \/ r = 1 \/ r = 2 \/ r = 3 \/ r = 4 \/ r = 5 \/ r = 6
          \/ r = 7 \/ r = 8 \/ r = 9) as H by lia.
  repeat (destruct H as [-> | H]); try subst r; reflexivity.
Qed.

Lemma hex_char_of_Z (r : Z) :
  0 <= r < 16 -> hex_char (hex_digit_of (Z.to_N r)) = char_of_Z (Fmt.hex_digit r).
Proof.
  intros Hr.
  assert (r = 0 \/ r = 1 \/ r = 2 \/ r = 3 \/ r = 4 \/ r = 5 \/ r = 6
          \/ r = 7 \/ r = 8 \/ r = 9 \/ r = 10 \/ r = 11 \/ r = 12
          \/ r = 13 \/ r = 14 \/ r = 15) as H by lia.
  repeat (destruct H as [-> | H]); try subst r; reflexivity.
Qed.

Lemma hex_digit_low (a : Z) : 0 <= a -> Fmt.hex_digit a = Fmt.hex_digit (a mod 16).
Proof.
  intros Ha. unfold Fmt.hex_digit.
  change 15 with (Z.ones 4). rewrite !Z.land_ones by lia.
  now rewrite Z.mod_mod by lia.
Qed.

Lemma decimal_step (u : Z) :
  0 <= u ->
  Fmt.decimal u
  = (if u / 10 =? 0 then [] else Fmt.decimal (u / 10))
      ++ [char_of_Z (48 + u mod 10)].
Proof.
  intros Hu. destruct (Z.eqb_spec (u / 10) 0) as [E|E].
  - assert (0 <= u < 10) as H.
    { pose proof (Z.div_mod u 10). pose proof (Z.mod_pos_bound u 10). lia. }
    rewrite Z.mod_small by assumption.
    assert (u = 0 \/ u = 1 \/ u = 2 \/ u = 3 \/ u = 4 \/ u = 5 \/ u = 6
            \/ u = 7 \/ u = 8 \/ u = 9) as H' by lia.
    repeat (destruct H' as [-> | H']); try subst u; reflexivity.
  - assert (10 <= u) as H.
    { destruct (Z_lt_le_dec u 10); [|assumption].
      rewrite Z.div_small in E by lia. congruence. }
    rewrite !decimal_to_list, to_uint_step by lia.
    rewrite map_app. cbn [map].
    rewrite Z2N.inj_div by lia. change (Z.to_N 10) with 10%N.
    rewrite <- (dec_char_of_Z (u mod 10)) by (apply Z.mod_pos_bound; lia).
    rewrite Z2N.inj_mod by lia. reflexivity.
Qed.

Lemma hexadecimal_step (a : Z) :
  0 <= a ->
  Fmt.hexadecimal a
  = (if Z.shiftr a 4 =? 0 then [] else Fmt.hexadecimal (Z.shiftr a 4))
      ++ [char_of_Z (Fmt.hex_digit a)].
Proof.
  intros Ha. rewrite Z.shiftr_div_pow2 by lia. change (2 ^ 4) with 16.
  rewrite hex_digit_low by assumption.
  destruct (Z.eqb_spec (a / 16) 0) as [E|E].
  - assert (0 <= a < 16) as H.
    { pose proof (Z.div_mod a 16). pose proof (Z.mod_pos_bound a 16). lia. }
    rewrite Z.mod_small by assumption.
    assert (a = 0 \/ a = 1 \/ a = 2 \/ a = 3 \/ a = 4 \/ a = 5 \/ a = 6
          \/ a = 7 \/ a = 8 \/ a = 9 \/ a = 10 \/ a = 11 \/ a = 12
          \/ a = 13 \/ a = 14 \/ a = 15) as H' by lia.
    repeat (destruct H' as [-> | H']); try subst a; reflexivity.
  - assert (16 <= a) as H.
    { destruct (Z_lt_le_dec a 16); [|assumption].
      rewrite Z.div_small in E by lia. congruence. }
    rewrite !hexadecimal_to_list, to_hex_uint_step by lia.
    rewrite map_app. cbn [map].
    rewrite Z2N.inj_div by lia. change (Z.to_N 16) with 16%N.
    rewrite <- (hex_char_of_Z (a mod 16)) by (apply Z.mod_pos_bound; lia).
    rewrite Z2N.inj_mod by lia. reflexivity.
Qed.

(** Lengths and contents of the standard representations. *)

Lemma decimal_length (n : nat) (u : Z) :
  0 <= u < 10 ^ Z.of_nat (S n) -> (1 <= length (Fmt.decimal u) <= S n)%nat.
Proof.
  revert u. induction n as [|n IH]; intros u Hu; rewrite decimal_step by lia.
  - change (10 ^ Z.of_nat 1) with 10 in Hu.
    rewrite Z.div_small by lia. simpl. lia.
  - rewrite length_app. cbn [length].
    destruct (Z.eqb_spec (u / 10) 0); [simpl; lia|].
    assert (0 <= u / 10 < 10 ^ Z.of_nat (S n)) as H.
    { split; [apply Z.div_pos; lia|].
      apply Z.div_lt_upper_bound; [lia|].
      rewrite <- Z.pow_succ_r by lia. rewrite <- Nat2Z.inj_succ. lia. }
    specialize (IH _ H). lia.
Qed.

Lemma hexadecimal_length (n : nat) (a : Z) :
  0 <= a < 16 ^ Z.of_nat (S n) -> (1 <= length (Fmt.hexadecimal a) <= S n)%nat.
Proof.
  revert a. induction n as [|n IH]; intros a Ha;
    rewrite hexadecimal_step by lia;
    rewrite Z.shiftr_div_pow2 by lia; change (2 ^ 4) with 16.
  - change (16 ^ Z.of_nat 1) with 16 in Ha.
    rewrite Z.div_small by lia. simpl. lia.
  - rewrite length_app. cbn [length].
    destruct (Z.eqb_spec (a / 16) 0); [simpl; lia|].
    assert (0 <= a / 16 < 16 ^ Z.of_nat (S n)) as H.
    { split; [apply Z.div_pos; lia|].
      apply Z.div_lt_upper_bound; [lia|].
      rewrite <- Z.pow_succ_r by lia. rewrite <- Nat2Z.inj_succ. lia. }
    specialize (IH _ H). lia.
Qed.

Lemma decimal_no_NUL (u : Z) : Forall (fun c => c <> NUL) (Fmt.decimal u).
Proof.
  rewrite decimal_to_list. apply Forall_map, Forall_forall.
  intros d _. destruct d; discriminate.
Qed.

Lemma hexadecimal_no_NUL (a : Z) : Forall (fun c => c <> NUL) (Fmt.hexadecimal a).
Proof.
  rewrite hexadecimal_to_list. apply Forall_map, Forall_forall.
  intros d _. destruct d; discriminate.
Qed.

Lemma cstring_app_NUL (s rest : list ascii) :
  Forall (fun c => c <> NUL) s -> cstring (s ++ NUL :: rest) = s.
Proof.
  induction 1 as [|c s Hc _ IH]; simpl; [reflexivity|].
  destruct (Ascii.eqb_spec c NUL); [contradiction|]. now rewrite IH.
Qed.

(** The digit loops write the standard representation right to left, ending
    just before [ptr]. *)

Lemma unsigned_digits_spec (ptr : nat) (u : Z) (buffer : list ascii) :
  0 <= u ->
  (length (Fmt.decimal u) <= ptr <= length buffer)%nat ->
  Fmt.unsigned_digits ptr u buffer
  = ((ptr - length (Fmt.decimal u))%nat,
     take (ptr - length (Fmt.decimal u)) buffer
       ++ Fmt.decimal u ++ drop ptr buffer).
Proof.
  revert u buffer. induction ptr as [|p IH]; intros u buffer Hu Hlen.
  - rewrite decimal_step in Hlen by assumption.
    rewrite length_app in Hlen. simpl in Hlen. lia.
  - cbn [Fmt.unsigned_digits]. rewrite (decimal_step u) in * by assumption.
    assert (0 <= u / 10) by (apply Z.div_pos; lia).
    destruct (Z.eqb_spec (u / 10) 0) as [E|E]; cbn [List.app length] in *.
    + replace (S p - 1)%nat with p by lia.
      now rewrite insert_take_drop by lia.
    + rewrite length_app in *. cbn [length] in *.
      rewrite IH by (rewrite ?length_insert; lia).
      replace (S p - (length (Fmt.decimal (u / 10)) + 1))%nat
        with (p - length (Fmt.decimal (u / 10)))%nat by lia.
      rewrite take_insert_ge by lia.
      rewrite (drop_insert_ge _ p p) by lia.
      rewrite Nat.sub_diag.
      destruct (lookup_lt_is_Some_2 buffer p) as [x Hx]; [lia|].
      rewrite (drop_S _ _ _ Hx). cbn [insert list_insert].
      now rewrite <- app_assoc.
Qed.

Lemma address_digits_spec (ptr : nat) (a : Z) (buffer : list ascii) :
  0 <= a ->
  (length (Fmt.hexadecimal a) <= ptr <= length buffer)%nat ->
  Fmt.address_digits ptr a buffer
  = ((ptr - length (Fmt.hexadecimal a))%nat,
     take (ptr - length (Fmt.hexadecimal a)) buffer
       ++ Fmt.hexadecimal a ++ drop ptr buffer).
Proof.
  revert a buffer. induction ptr as [|p IH]; intros a buffer Ha Hlen.
  - rewrite hexadecimal_step in Hlen by assumption.
    rewrite length_app in Hlen. simpl in Hlen. lia.
  - cbn [Fmt.address_digits]. rewrite (hexadecimal_step a) in * by assumption.
    assert (0 <= Z.shiftr a 4) by (apply Z.shiftr_nonneg; lia).
    destruct (Z.eqb_spec (Z.shiftr a 4) 0) as [E|E]; cbn [List.app length] in *.
    + replace (S p - 1)%nat with p by lia.
      now rewrite insert_take_drop by lia.
    + rewrite length_app in *. cbn [length] in *.
      rewrite IH by (rewrite ?length_insert; lia).
      replace (S p - (length (Fmt.hexadecimal (Z.shiftr a 4)) + 1))%nat
        with (p - length (Fmt.hexadecimal (Z.shiftr a 4)))%nat by lia.
      rewrite take_insert_ge by lia.
      rewrite (drop_insert_ge _ p p) by lia.
      rewrite Nat.sub_diag.
      destruct (lookup_lt_is_Some_2 buffer p) as [x Hx]; [lia|].
      rewrite (drop_S _ _ _ Hx). cbn [insert list_insert].
      now rewrite <- app_assoc.
Qed.

(** Left-justifying moves a NUL-terminated string to [pt2], which lies
    before it, and leaves what follows the copy as it was. *)

Lemma left_justify_spec (s pre tl : list ascii) (pt2 todo : nat) :
  Forall (fun c => c <> NUL) s ->
  (pt2 < length pre)%nat ->
  (length s < todo)%nat ->
  Fmt.left_justify todo pt2 (length pre) (pre ++ s ++ NUL :: tl)
  = take pt2 pre ++ s ++ NUL
      :: drop (pt2 + length s + 1) (pre ++ s ++ NUL :: tl).
Proof.
  intros Hs. revert pre pt2 todo.
  induction Hs as [|c s Hc Hs IH]; intros pre pt2 todo Hpt Htodo.
  - destruct todo as [|todo]; [simpl in Htodo; lia|].
    cbn [Fmt.left_justify List.app length].
    rewrite list_lookup_middle by reflexivity.
    rewrite Ascii.eqb_refl.
    rewrite insert_take_drop by (rewrite length_app; lia).
    rewrite take_app_le by lia.
    now replace (pt2 + 0 + 1)%nat with (S pt2) by lia.
  - destruct todo as [|todo]; [simpl in Htodo; lia|].
    cbn [Fmt.left_justify]. cbn [List.app length] in *.
    rewrite list_lookup_middle by reflexivity.
    destruct (Ascii.eqb_spec c NUL) as [|_]; [contradiction|].
    rewrite insert_app_l by lia.
    replace (<[pt2:=c]> pre ++ c :: s ++ NUL :: tl)
      with ((<[pt2:=c]> pre ++ [c]) ++ s ++ NUL :: tl)
      by now rewrite <- app_assoc.
    replace (S (length pre)) with (length (<[pt2:=c]> pre ++ [c]))
      by (rewrite length_app, length_insert; simpl; lia).
    rewrite IH by (rewrite ?length_app, ?length_insert; simpl; lia).
    rewrite take_app_le by (rewrite length_insert; lia).
    rewrite take_insert_lt by lia.
    destruct (lookup_lt_is_Some_2 pre pt2) as [x Hx]; [lia|].
    rewrite (take_S_r _ _ _ Hx).
    rewrite insert_app_r_alt by (rewrite length_take; lia).
    rewrite length_take_le by lia. rewrite Nat.sub_diag.
    cbn [insert list_insert]. rewrite <- !app_assoc. cbn [List.app].
    rewrite <- insert_app_l by lia.
    rewrite drop_insert_lt by lia.
    now replace (S pt2 + length s + 1)%nat with (pt2 + S (length s) + 1)%nat by lia.
Qed.

Lemma justify_spec (s pre : list ascii) :
  Forall (fun c => c <> NUL) s ->
  exists rest,
    Fmt.justify (length pre) (pre ++ s ++ [NUL]) = s ++ NUL :: rest
    /\ length (s ++ NUL :: rest) = length (pre ++ s ++ [NUL]).
Proof.
  intros Hs. unfold Fmt.justify.
  destruct (Nat.ltb_spec 0 (length pre)) as [Hp|Hp].
  - rewrite left_justify_spec; [|assumption|lia|].
    2:{ rewrite !length_app. simpl. lia. }
    rewrite take_0. cbn [List.app]. eexists. split; [reflexivity|].
    rewrite !length_app. cbn [length]. rewrite length_drop, !length_app.
    cbn [length]. lia.
  - destruct pre; [|simpl in Hp; lia].
    exists []. split; reflexivity.
Qed.

Lemma last_slot_NUL (n : nat) (buffer : list ascii) :
  length buffer = S n -> drop n (<[n:=NUL]> buffer) = [NUL].
Proof.
  intros Hlen. rewrite drop_insert_ge, Nat.sub_diag by lia.
  destruct (drop n buffer) as [|x [|y l]] eqn:E; try reflexivity;
    apply (f_equal length) in E; rewrite length_drop in E; simpl in E; lia.
Qed.

Lemma format_unsigned_spec (u : Z) (buffer : list ascii) :
  0 <= u < 2 ^ 32 -> length buffer = 22%nat ->
  exists rest,
    Fmt.format_unsigned u buffer = Fmt.decimal u ++ NUL :: rest
    /\ length (Fmt.format_unsigned u buffer) = 22%nat.
Proof.
  intros Hu Hlen. unfold Fmt.format_unsigned.
  pose proof (decimal_length 9 u ltac:(change (10 ^ Z.of_nat 10) with 10000000000; lia)) as Hk.
  rewrite unsigned_digits_spec by (rewrite ?length_insert; lia).
  rewrite last_slot_NUL by assumption.
  set (pre := take _ _).
  assert (length pre = (21 - length (Fmt.decimal u))%nat) as Hpre.
  { unfold pre. rewrite length_take, length_insert. lia. }
  rewrite <- Hpre.
  destruct (justify_spec (Fmt.decimal u) pre (decimal_no_NUL u)) as (rest & E & L).
  exists rest. rewrite E. split; [reflexivity|].
  rewrite L, !length_app. simpl. lia.
Qed.

Lemma format_address_spec (a : Z) (buffer : list ascii) :
  0 <= a < 2 ^ 64 -> length buffer = 18%nat ->
  exists rest,
    Fmt.format_address a buffer = Fmt.hexadecimal a ++ NUL :: rest
    /\ length (Fmt.format_address a buffer) = 18%nat.
Proof.
  intros Ha Hlen. unfold Fmt.format_address.
  pose proof (hexadecimal_length 15 a ltac:(change (16 ^ Z.of_nat 16) with (2 ^ 64); lia)) as Hk.
  rewrite address_digits_spec by (rewrite ?length_insert; lia).
  rewrite last_slot_NUL by assumption.
  set (pre := take _ _).
  assert (length pre = (17 - length (Fmt.hexadecimal a))%nat) as Hpre.
  { unfold pre. rewrite length_take, length_insert. lia. }
  rewrite <- Hpre.
  destruct (justify_spec (Fmt.hexadecimal a) pre (hexadecimal_no_NUL a)) as (rest & E & L).
  exists rest. rewrite E. split; [reflexivity|].
  rewrite L, !length_app. simpl. lia.
Qed.

Lemma cstring_format_unsigned (u : Z) (buffer : list ascii) :
  0 <= u < 2 ^ 32 -> length buffer = 22%nat ->
  cstring (Fmt.format_unsigned u buffer) = Fmt.decimal u.
Proof.
  intros Hu Hlen.
  destruct (format_unsigned_spec u buffer Hu Hlen) as (rest & -> & _).
  apply cstring_app_NUL, decimal_no_NUL.
Qed.

Lemma cstring_format_address (a : Z) (buffer : list ascii) :
  0 <= a < 2 ^ 64 -> length buffer = 18%nat ->
  cstring (Fmt.format_address a buffer) = Fmt.hexadecimal a.
Proof.
  intros Ha Hlen.
  destruct (format_address_spec a buffer Ha Hlen) as (rest & -> & _).
  apply cstring_app_NUL, hexadecimal_no_NUL.
Qed.

(** C7. For every 32-bit [unsigned] value [format_unsigned] leaves in its
    22-byte buffer exactly the decimal digits that standard formatting
    prints, and for every 64-bit address [format_address] leaves in its
    18-byte buffer exactly the hexadecimal digits: the digits start at the
    first byte of the buffer, a NUL follows them, nothing is padded and
    nothing is cut off. *)
Theorem format_matches_standard
    (u addr : Z) (ubuf abuf : list ascii) :
  0 <= u < 2 ^ 32 -> 0 <= addr < 2 ^ 64 ->
  length ubuf = 22%nat -> length abuf = 18%nat ->
  (exists rest, Fmt.format_unsigned u ubuf = Fmt.decimal u ++ NUL :: rest)
  /\ cstring (Fmt.format_unsigned u ubuf) = Fmt.decimal u
  /\ length (Fmt.format_unsigned u ubuf) = 22%nat
  /\ (exists rest, Fmt.format_address addr abuf = Fmt.hexadecimal addr ++ NUL :: rest)
  /\ cstring (Fmt.format_address addr abuf) = Fmt.hexadecimal addr
  /\ length (Fmt.format_address addr abuf) = 18%nat.
Proof.
  intros Hu Ha Hul Hal.
  destruct (format_unsigned_spec u ubuf Hu Hul) as (r1 & E1 & L1).
  destruct (format_address_spec addr abuf Ha Hal) as (r2 & E2 & L2).
  repeat split; eauto using cstring_format_unsigned, cstring_format_address.
Qed.

Lemma format_matches_standard_witness :
  (exists rest, Fmt.format_unsigned 4294967295 (repeat (ascii_of_N 120) 22)
                = Fmt.decimal 4294967295 ++ NUL :: rest)
  /\ cstring (Fmt.format_unsigned 4294967295 (repeat (ascii_of_N 120) 22))
     = Fmt.decimal 4294967295
  /\ length (Fmt.format_unsigned 4294967295 (repeat (ascii_of_N 120) 22))
     = 22%nat
  /\ (exists rest,
        Fmt.format_address 18446744073709551615 (repeat (ascii_of_N 121) 18)
        = Fmt.hexadecimal 18446744073709551615 ++ NUL :: rest)
  /\ cstring
       (Fmt.format_address 18446744073709551615 (repeat (ascii_of_N 121) 18))
     = Fmt.hexadecimal 18446744073709551615
  /\ length
       (Fmt.format_address 18446744073709551615 (repeat (ascii_of_N 121) 18))
     = 18%nat.
Proof.
  apply (format_matches_standard 4294967295 18446744073709551615
           (repeat (ascii_of_N 120) 22) (repeat (ascii_of_N 121) 18));
    [lia | lia | reflexivity | reflexivity].
Defined.

Example format_unsigned_zero :
  cstring (Fmt.format_unsigned 0 (repeat (ascii_of_N 120) 22))
  = list_ascii_of_string "0".
Proof. reflexivity. Qed.

Example format_unsigned_max :
  cstring (Fmt.format_unsigned 4294967295 (repeat (ascii_of_N 120) 22))
  = list_ascii_of_string "4294967295".
Proof. reflexivity. Qed.

Example format_address_max :
  cstring (Fmt.format_address 18446744073709551615 (repeat (ascii_of_N 121) 18))
  = list_ascii_of_string "ffffffffffffffff".
Proof. reflexivity. Qed.

Example format_address_mid :
  cstring (Fmt.format_address 3735928559 (repeat (ascii_of_N 121) 18))
  = list_ascii_of_string "deadbeef".
Proof. reflexivity. Qed.

(** The standard representations themselves, on the same values. *)
Example decimal_max : Fmt.decimal 4294967295 = list_ascii_of_string "4294967295".
Proof. reflexivity. Qed.

Example hexadecimal_mid : Fmt.hexadecimal 3735928559 = list_ascii_of_string "deadbeef".
Proof. reflexivity. Qed.

(** * The argument vector of the backtracer *)

Section launcher_facts.
Import Launcher.

Variable spawn : list string -> Z -> bool.
Variable crashInfo_addr : Z.
Variable s : BacktraceSettings.

(** Projections of the globals after one assignment. *)

Lemma argv_set_argv i t g :
  backtracer_argv (set_argv i t g) = <[i := Lit t]> (backtracer_argv g).
Proof. reflexivity. Qed.

(** Each [switch] assigns one slot, whichever branch runs. *)

Lemma switch_algorithm (g : globals) :
  assign_algorithm s g
  = set_argv 2 (match algorithm s with
                | UnwindAlgorithm.Fast => "fast"
                | _ => "precise"
                end) g.
Proof. unfold assign_algorithm. now destruct (algorithm s). Qed.

Lemma switch_threads (g : globals) :
  assign_threads s g
  = set_argv 16 (match threads s with
                 | ThreadsToShow.Preset => "preset"
                 | ThreadsToShow.All => "all"
                 | ThreadsToShow.Crashed => "crashed"
                 end) g.
Proof. unfold assign_threads. now destruct (threads s). Qed.

Lemma switch_registers (g : globals) :
  assign_registers s g
  = set_argv 18 (match registers s with
                 | RegistersToShow.Preset => "preset"
                 | RegistersToShow.None => "none"
                 | RegistersToShow.All => "all"
                 | RegistersToShow.Crashed => "crashed"
                 end) g.
Proof. unfold assign_registers. now destruct (registers s). Qed.

Lemma switch_images (g : globals) :
  assign_images s g
  = set_argv 20 (match images s with
                 | ImagesToShow.Preset => "preset"
                 | ImagesToShow.None => "none"
                 | ImagesToShow.All => "all"
                 | ImagesToShow.Mentioned => "mentioned"
                 end) g.
Proof. unfold assign_images. now destruct (images s). Qed.

Lemma switch_preset (g : globals) :
  assign_preset s g
  = set_argv 12 (match preset s with
                 | Preset.Friendly => "friendly"
                 | Preset.Medium => "medium"
                 | _ => "full"
                 end) g.
Proof. unfold assign_preset. now destruct (preset s). Qed.

Lemma switch_sanitize (g : globals) :
  assign_sanitize s g
  = set_argv 26 (match sanitize s with
                 | SanitizePaths.Preset => "preset"
                 | SanitizePaths.Off => "false"
                 | SanitizePaths.On => "true"
                 end) g.
Proof. unfold assign_sanitize. now destruct (sanitize s). Qed.

Lemma switch_outputTo (g : globals) :
  assign_outputTo s g
  = set_argv 30 (match outputTo s with
                 | OutputTo.Stdout => "stdout"
                 | _ => "stderr"
                 end) g.
Proof. unfold assign_outputTo. now destruct (outputTo s). Qed.

Lemma limit_branch (g : globals) :
  format_limit s g
  = set_limit_buf
      (if limit s <? 0 then strcpy (limit_buf g) "none"
       else Fmt.format_unsigned (to_unsigned (limit s)) (limit_buf g)) g.
Proof. unfold format_limit. now destruct (limit s <? 0). Qed.
Lemma cstring_strcpy_none (dst : list ascii) :
  length dst = 22%nat ->
  cstring (strcpy dst "none") = list_ascii_of_string "none".
Proof.
  intros H. do 5 (destruct dst as [|? dst]; [discriminate|]). reflexivity.
Qed.

(** The whole vector after [run_backtracer], from the vector and buffers
    the program starts with. *)
Lemma set_up_argv_strings (g : globals) :
  backtracer_argv g = initial_argv ->
  length (addr_buf g) = 18%nat -> length (timeout_buf g) = 22%nat ->
  length (limit_buf g) = 22%nat -> length (top_buf g) = 22%nat ->
  0 <= crashInfo_addr < 2 ^ 64 -> 0 <= timeout s < 2 ^ 32 ->
  argv_strings (set_up_argv crashInfo_addr s g)
  = [ "swift-backtrace";
      "--unwind";
      match algorithm s with UnwindAlgorithm.Fast => "fast" | _ => "precise" end;
      "--demangle"; trueOrFalse (demangle s);
      "--interactive"; trueOrFalse (interactive s);
      "--color"; trueOrFalse (color s);
      "--timeout"; string_of_list_ascii (Fmt.decimal (timeout s));
      "--preset";
      match preset s with
      | Preset.Friendly => "friendly" | Preset.Medium => "medium" | _ => "full"
      end;
      "--crashinfo"; string_of_list_ascii (Fmt.hexadecimal crashInfo_addr);
      "--threads";
      match threads s with
      | ThreadsToShow.Preset => "preset"
      | ThreadsToShow.All => "all"
      | ThreadsToShow.Crashed => "crashed"
      end;
      "--registers";
      match registers s with
      | RegistersToShow.Preset => "preset"
      | RegistersToShow.None => "none"
      | RegistersToShow.All => "all"
      | RegistersToShow.Crashed => "crashed"
      end;
      "--images";
      match images s with
      | ImagesToShow.Preset => "preset"
      | ImagesToShow.None => "none"
      | ImagesToShow.All => "all"
      | ImagesToShow.Mentioned => "mentioned"
      end;
      "--limit";
      if (limit s <? 0)%Z then "none"
      else string_of_list_ascii (Fmt.decimal (to_unsigned (limit s)));
      "--top"; string_of_list_ascii (Fmt.decimal (to_unsigned (top s)));
      "--sanitize";
      match sanitize s with
      | SanitizePaths.Preset => "preset"
      | SanitizePaths.Off => "false"
      | SanitizePaths.On => "true"
      end;
      "--cache"; trueOrFalse (cache s);
      "--output-to";
      match outputTo s with OutputTo.Stdout => "stdout" | _ => "stderr" end
    ]%string.
Proof.
  intros Hargv Ha Ht Hl Hp Hcrash Htimeout.
  assert (0 <= to_unsigned (limit s) < 2 ^ 32) by (apply Z.mod_pos_bound; lia).
  assert (0 <= to_unsigned (top s) < 2 ^ 32) by (apply Z.mod_pos_bound; lia).
  unfold set_up_argv, statements. cbn [foldl].
  unfold argv_strings.
  rewrite switch_algorithm, switch_threads, switch_registers, switch_images,
    switch_preset, switch_sanitize, switch_outputTo, limit_branch.
  unfold assign_demangle, assign_interactive, assign_color, assign_cache,
    format_timeout, format_top, format_crashInfo.
  destruct g as [ab tb lb pb argv].
  cbn [backtracer_argv addr_buf timeout_buf limit_buf top_buf] in Hargv, Ha, Ht, Hl, Hp.
  subst argv.
  lazy beta iota delta [backtracer_argv addr_buf timeout_buf limit_buf top_buf
    set_argv set_addr_buf set_timeout_buf set_limit_buf set_top_buf].
  cbn [initial_argv insert list_insert map deref
       backtracer_argv addr_buf timeout_buf limit_buf top_buf].
  rewrite !cstring_format_unsigned, cstring_format_address by assumption.
  destruct (limit s <? 0).
  - now rewrite cstring_strcpy_none by assumption.
  - now rewrite cstring_format_unsigned by assumption.
Qed.

End launcher_facts.

Section launcher_claims.
Import Launcher.

Variable spawn : list string -> Z -> bool.
Variable crashInfo_addr : Z.
Variable s : BacktraceSettings.

(** The slots that hold string literals, whatever the vector held before
    in them and whatever the buffers hold. *)
Lemma literal_slots (g : globals) :
  length (backtracer_argv g) = 31%nat ->
  let argv := argv_strings (set_up_argv crashInfo_addr s g) in
  argv !! 2%nat
  = Some (match algorithm s with
          | UnwindAlgorithm.Fast => "fast"
          | _ => "precise"
          end)%string
  /\ argv !! 6%nat = Some (trueOrFalse (interactive s))
  /\ argv !! 8%nat = Some (trueOrFalse (color s))
  /\ argv !! 12%nat
     = Some (match preset s with
             | Preset.Friendly => "friendly"
             | Preset.Medium => "medium"
             | _ => "full"
             end)%string
  /\ argv !! 30%nat
     = Some (match outputTo s with
             | OutputTo.Stdout => "stdout"
             | _ => "stderr"
             end)%string.
Proof.
  intros Hlen argv. subst argv.
  unfold set_up_argv, statements. cbn [foldl].
  unfold argv_strings.
  rewrite switch_algorithm, switch_threads, switch_registers, switch_images,
    switch_preset, switch_sanitize, switch_outputTo, limit_branch.
  unfold assign_demangle, assign_interactive, assign_color, assign_cache,
    format_timeout, format_top, format_crashInfo.
  destruct g as [ab tb lb pb argv].
  cbn [backtracer_argv] in Hlen.
  do 31 (destruct argv as [|? argv]; [discriminate|]).
  lazy beta iota delta [backtracer_argv addr_buf timeout_buf limit_buf top_buf
    set_argv set_addr_buf set_timeout_buf set_limit_buf set_top_buf].
  cbn [insert list_insert map deref lookup list_lookup].
  repeat split; reflexivity.
Qed.

(** C8. [run_backtracer] hands the spawn facility a vector of fixed shape:
    the tool's name and fifteen flags, each followed by its value. The value
    of [--unwind] is ["fast"] or ["precise"], the value of [--limit] is
    ["none"] for a negative limit and the decimal digits of the limit
    otherwise, and the value of [--crashinfo] is the address of [crashInfo]
    in hexadecimal digits. *)
Theorem run_backtracer_argv (memserver_fd : Z) (g : globals) :
  backtracer_argv g = initial_argv ->
  length (addr_buf g) = 18%nat -> length (timeout_buf g) = 22%nat ->
  length (limit_buf g) = 22%nat -> length (top_buf g) = 22%nat ->
  0 <= crashInfo_addr < 2 ^ 64 ->
  0 <= timeout s < 2 ^ 32 -> - 2 ^ 31 <= limit s < 2 ^ 31 ->
  let argv :=
    [ "swift-backtrace";
      "--unwind";
      match algorithm s with UnwindAlgorithm.Fast => "fast" | _ => "precise" end;
      "--demangle"; trueOrFalse (demangle s);
      "--interactive"; trueOrFalse (interactive s);
      "--color"; trueOrFalse (color s);
      "--timeout"; string_of_list_ascii (Fmt.decimal (timeout s));
      "--preset";
      match preset s with
      | Preset.Friendly => "friendly" | Preset.Medium => "medium" | _ => "full"
      end;
      "--crashinfo"; string_of_list_ascii (Fmt.hexadecimal crashInfo_addr);
      "--threads";
      match threads s with
      | ThreadsToShow.Preset => "preset"
      | ThreadsToShow.All => "all"
      | ThreadsToShow.Crashed => "crashed"
      end;
      "--registers";
      match registers s with
      | RegistersToShow.Preset => "preset"
      | RegistersToShow.None => "none"
      | RegistersToShow.All => "all"
      | RegistersToShow.Crashed => "crashed"
      end;
      "--images";
      match images s with
      | ImagesToShow.Preset => "preset"
      | ImagesToShow.None => "none"
      | ImagesToShow.All => "all"
      | ImagesToShow.Mentioned => "mentioned"
      end;
      "--limit";
      if (limit s <? 0)%Z then "none"
      else string_of_list_ascii (Fmt.decimal (limit s));
      "--top"; string_of_list_ascii (Fmt.decimal (to_unsigned (top s)));
      "--sanitize";
      match sanitize s with
      | SanitizePaths.Preset => "preset"
      | SanitizePaths.Off => "false"
      | SanitizePaths.On => "true"
      end;
      "--cache"; trueOrFalse (cache s);
      "--output-to";
      match outputTo s with OutputTo.Stdout => "stdout" | _ => "stderr" end
    ]%string in
  run_backtracer spawn crashInfo_addr s memserver_fd g
  = (spawn argv memserver_fd, set_up_argv crashInfo_addr s g)
  /\ argv_strings (set_up_argv crashInfo_addr s g) = argv.
Proof.
  intros Hargv Ha Ht Hl Hp Hcrash Htimeout Hlimit argv.
  assert (argv_strings (set_up_argv crashInfo_addr s g) = argv) as E.
  { rewrite set_up_argv_strings by assumption. subst argv.
    destruct (Z.ltb_spec (limit s) 0); [reflexivity|].
    unfold to_unsigned. rewrite (Z.mod_small (limit s)) by lia. reflexivity. }
  split; [|exact E]. unfold run_backtracer. now rewrite E.
Qed.

(** C10. Where a [switch] of [run_backtracer] has a [default:] or a shared
    branch, the value is a fixed fallback: every unwind algorithm other than
    [Fast] gives ["precise"], every preset other than [Friendly] and
    [Medium] gives ["full"], [OutputTo::Auto] gives ["stderr"], and every
    [OnOffTty] other than [On] is printed as ["false"]. *)
Theorem run_backtracer_fallbacks (g : globals) :
  length (backtracer_argv g) = 31%nat ->
  let argv := argv_strings (set_up_argv crashInfo_addr s g) in
  (algorithm s <> UnwindAlgorithm.Fast -> argv !! 2%nat = Some "precise"%string)
  /\ (preset s <> Preset.Friendly -> preset s <> Preset.Medium ->
      argv !! 12%nat = Some "full"%string)
  /\ (outputTo s = OutputTo.Auto -> argv !! 30%nat = Some "stderr"%string)
  /\ (forall oot : OnOffTty.t,
        oot <> OnOffTty.On -> trueOrFalse oot = "false"%string)
  /\ (interactive s <> OnOffTty.On -> argv !! 6%nat = Some "false"%string)
  /\ (color s <> OnOffTty.On -> argv !! 8%nat = Some "false"%string).
Proof.
  intros Hlen argv.
  destruct (literal_slots g Hlen) as (H2 & H6 & H8 & H12 & H30).
  fold argv in H2, H6, H8, H12, H30.
  assert (forall oot : OnOffTty.t,
             oot <> OnOffTty.On -> trueOrFalse oot = "false"%string) as Hoot.
  { intros [] ?; try reflexivity; congruence. }
  repeat split.
  - intros Ha. rewrite H2. now destruct (algorithm s).
  - intros Hf Hm. rewrite H12. now destruct (preset s).
  - intros Ho. now rewrite H30, Ho.
  - exact Hoot.
  - intros Hi. now rewrite H6, Hoot.
  - intros Hc. now rewrite H8, Hoot.
Qed.

End launcher_claims.

Lemma run_backtracer_argv_witness :
  Launcher.argv_strings
    (Launcher.set_up_argv 93824992247872 sample_settings Launcher.initial)
  = [ "swift-backtrace"; "--unwind"; "precise"; "--demangle"; "true";
      "--interactive"; "false"; "--color"; "false"; "--timeout"; "30";
      "--preset"; "full"; "--crashinfo"; "555555558040";
      "--threads"; "preset"; "--registers"; "preset"; "--images"; "preset";
      "--limit"; "none"; "--top"; "16"; "--sanitize"; "preset";
      "--cache"; "true"; "--output-to"; "stderr" ]%string.
Proof.
  refine (proj2 (run_backtracer_argv (fun _ _ => true) 93824992247872
                   sample_settings 3 Launcher.initial _ _ _ _ _ _ _ _));
    first [reflexivity | cbn; lia].
Defined.

Lemma run_backtracer_fallbacks_witness :
  Launcher.argv_strings
    (Launcher.set_up_argv 93824992247872 sample_settings Launcher.initial)
    !! 2%nat = Some "precise"%string
  /\ Launcher.argv_strings
       (Launcher.set_up_argv 93824992247872 sample_settings Launcher.initial)
       !! 12%nat = Some "full"%string
  /\ Launcher.argv_strings
       (Launcher.set_up_argv 93824992247872 sample_settings Launcher.initial)
       !! 30%nat = Some "stderr"%string
  /\ Launcher.argv_strings
       (Launcher.set_up_argv 93824992247872 sample_settings Launcher.initial)
       !! 6%nat = Some "false"%string
  /\ Launcher.argv_strings
       (Launcher.set_up_argv 93824992247872 sample_settings Launcher.initial)
       !! 8%nat = Some "false"%string.
Proof.
  destruct (run_backtracer_fallbacks 93824992247872 sample_settings
              Launcher.initial eq_refl) as (H2 & H12 & H30 & _ & H6 & H8).
  split; [apply H2; discriminate|].
  split; [apply H12; discriminate|].
  split; [apply H30; reflexivity|].
  split; [apply H6; discriminate|apply H8; discriminate].
Defined.

(** * The registry of paused threads *)

Section registry_facts.
Import Registry.

Implicit Types (heap : gmap Z thread) (l : list (Z * thread)).

(** The walk of [seen_thread] over a well-formed list. *)
Lemma seen_from_linked heap p l (wanted : Z) (fuel : nat) :
  linked heap p l -> (length l < fuel)%nat ->
  seen_from fuel wanted heap p
  = Some (bool_decide (wanted ∈ (tid ∘ snd) <$> l)).
Proof.
  intros Hl. revert fuel. induction Hl as [|p t l Hp Ht Hl IH]; intros fuel Hf.
  - destruct fuel; [simpl in Hf; lia|]. reflexivity.
  - destruct fuel as [|fuel]; [simpl in Hf; lia|]. cbn [seen_from].
    destruct (Z.eqb_spec p 0); [contradiction|]. rewrite Ht.
    cbn [fmap list_fmap compose snd].
    destruct (Z.eqb_spec (tid t) wanted) as [E|E].
    + f_equal. symmetry. apply bool_decide_eq_true. rewrite E. left.
    + rewrite IH by (simpl in Hf; lia). f_equal.
      apply bool_decide_ext. rewrite elem_of_cons.
      split; [now right|]. intros [?|?]; [congruence|assumption].
Qed.

(** Writing a record at an address the list does not visit leaves the list
    as it is. *)
Lemma linked_insert_fresh heap p l (q : Z) (t : thread) :
  linked heap p l -> q ∉ l.*1 -> linked (<[q := t]> heap) p l.
Proof.
  induction 1 as [|p t' l Hp Ht Hl IH]; intros Hq.
  - constructor.
  - cbn [fmap list_fmap fst] in Hq. rewrite not_elem_of_cons in Hq.
    destruct Hq as [Hne Hq].
    constructor; [assumption| |auto].
    rewrite lookup_insert_ne; auto.
Qed.

(** A thread that pauses puts its record in front. *)
Lemma pause_thread_record_linked (r : registry) l (self tid' uctx' : Z) :
  linked (threads r) (thread_list r) l ->
  self <> 0 -> self ∉ l.*1 ->
  let r' := pause_thread_record self tid' uctx' r in
  linked (threads r') (thread_list r')
    ((self, {| next := thread_list r; tid := tid'; uctx := uctx' |}) :: l).
Proof.
  intros Hl H0 Hfresh r'. subst r'.
  unfold pause_thread_record, add_thread, new_thread.
  cbn [threads thread_list].
  rewrite alter_insert_eq. cbn [tid uctx].
  constructor; [assumption| |].
  - apply lookup_insert_eq.
  - cbn [next]. now apply linked_insert_fresh.
Qed.

Lemma cycle_linked (first : Z) (paused : list (Z * Z * Z)) (r : registry) l :
  linked (threads r) first l ->
  NoDup (l.*1 ++ paused.*1.*1) -> 0 ∉ paused.*1.*1 ->
  exists l',
    linked (threads (cycle first paused r)) (thread_list (cycle first paused r)) l'
    /\ (tid ∘ snd) <$> l' = reverse (paused.*1.*2) ++ ((tid ∘ snd) <$> l)
    /\ length l' = (length paused + length l)%nat.
Proof.
  unfold cycle.
  change first with (thread_list (reset_threads first r)) at 1.
  change (threads r) with (threads (reset_threads first r)).
  generalize (reset_threads first r) as r1. clear r first.
  revert l. induction paused as [|[[self tid'] uctx'] paused IH];
    intros l r1 Hl Hnd H0.
  - exists l. repeat split; auto.
  - cbn [foldl].
    cbn [fmap list_fmap fst] in Hnd, H0.
    rewrite not_elem_of_cons in H0. destruct H0 as [Hself H0].
    apply NoDup_app in Hnd as (Hnd1 & Hdisj & Hnd2).
    apply NoDup_cons in Hnd2 as [Hfresh2 Hnd2].
    assert (self ∉ l.*1) as Hfresh.
    { intros Hin. apply (Hdisj _ Hin). left. }
    pose proof (pause_thread_record_linked r1 l self tid' uctx' Hl
                  ltac:(congruence) Hfresh) as Hl'.
    cbv zeta in Hl'.
    destruct (IH _ _ Hl') as (l' & Hlink & Htids & Hlen); [|assumption|].
    + cbn [fmap list_fmap fst]. apply NoDup_cons_2.
      * rewrite elem_of_app. intros [?|?]; [contradiction|contradiction].
      * apply NoDup_app. repeat split; auto.
        intros x Hx Hx'. apply (Hdisj x Hx). now right.
    + exists l'. repeat split; [exact Hlink| |].
      * rewrite Htids. cbn [fmap list_fmap compose snd fst tid].
        rewrite reverse_cons, <- app_assoc. reflexivity.
      * rewrite Hlen. simpl. lia.
Qed.

End registry_facts.

(** C9 (as amended). After a reset and the pauses of one cycle,
    [seen_thread] answers, with fuel for the walk, and answers [true] for
    exactly the thread id of the record that [reset_threads] made the head
    and the thread ids of the records added since: nothing that earlier
    cycles left in the registry is seen. The records are at distinct
    addresses other than null, and the head record has a null [next], as
    the handlers make it. *)
Theorem seen_thread_cycle
    (first : Z) (paused : list (Z * Z * Z)) (r : Registry.registry)
    (wanted : Z) :
  (first <> 0 ->
   exists t, Registry.threads r !! first = Some t /\ Registry.next t = 0) ->
  NoDup (first :: Registry.addresses_of paused) ->
  0 ∉ Registry.addresses_of paused ->
  Registry.seen_thread (length paused + 2) wanted (Registry.cycle first paused r)
  = Some (bool_decide
            (wanted ∈ Registry.head_tids first r ++ Registry.tids_of paused)).
Proof.
  unfold Registry.addresses_of, Registry.tids_of. intros Hfirst Hnd H0.
  assert (exists l,
             Registry.linked (Registry.threads r) first l
             /\ l.*1 = (if first =? 0 then [] else [first])
             /\ (Registry.tid ∘ snd) <$> l = Registry.head_tids first r)
    as (l & Hl & Haddr & Htids).
  { unfold Registry.head_tids.
    destruct (Z.eqb_spec first 0) as [->|Hne].
    - exists []. repeat split. constructor.
    - destruct (Hfirst Hne) as (t & Ht & Hnext). rewrite Ht.
      exists [(first, t)]. repeat split.
      constructor; [assumption|assumption|]. rewrite Hnext. constructor. }
  destruct (cycle_linked first paused r l Hl) as (l' & Hl' & Htids' & Hlen).
  { rewrite Haddr. destruct (first =? 0); [|exact Hnd].
    now apply NoDup_cons in Hnd as [_ Hnd]. }
  { assumption. }
  unfold Registry.seen_thread.
  rewrite (seen_from_linked _ _ l').
  - f_equal. apply bool_decide_ext. rewrite Htids', Htids.
    rewrite !elem_of_app, elem_of_reverse. tauto.
  - assumption.
  - rewrite Hlen. apply (f_equal length) in Haddr.
    rewrite length_fmap in Haddr. destruct (first =? 0); simpl in Haddr; lia.
Qed.

Lemma seen_thread_cycle_witness :
  Registry.seen_thread 4 12 Registry.first_cycle = Some true
  /\ Registry.seen_thread 4 13 Registry.first_cycle = Some false.
Proof.
  split.
  - apply (seen_thread_cycle 1000 [(2000, 11, 0); (3000, 12, 0)]
             (Registry.new_thread 1000 10 0 Registry.empty) 12).
    + intros _. eexists. split; reflexivity.
    + apply (bool_decide_unpack _). vm_compute. exact I.
    + apply (bool_decide_unpack _). vm_compute. exact I.
  - apply (seen_thread_cycle 1000 [(2000, 11, 0); (3000, 12, 0)]
             (Registry.new_thread 1000 10 0 Registry.empty) 13).
    + intros _. eexists. split; reflexivity.
    + apply (bool_decide_unpack _). vm_compute. exact I.
    + apply (bool_decide_unpack _). vm_compute. exact I.
Defined.

(** C9 as stated fails on the record that [reset_threads] installs: right
    after the reset of a cycle, with no thread added yet, [seen_thread]
    answers [true] for the caller's own id; and a thread added in an earlier
    cycle is still seen after a reset that installs a record of its own. *)
Lemma seen_thread_own_record :
  Registry.seen_thread 2 10
    (Registry.cycle 1000 [] (Registry.new_thread 1000 10 0 Registry.empty))
  = Some true
  /\ (10 ∉ Registry.tids_of [])
  /\ Registry.seen_thread 2 12
       (Registry.cycle 5000 []
          (Registry.new_thread 5000 12 0 Registry.first_cycle))
     = Some true.
Proof.
  split; [reflexivity|]. split; [|reflexivity]. apply not_elem_of_nil.
Qed.

(** * The suspension of the other threads *)

Section suspend_facts.
Import Suspend.

Variable e : env.
Variable self : Z.

(** [silent] is the id of a thread that never runs the pausing handler. *)
Variable silent : Z.
Hypothesis silent_never_responds : responds e silent = false.

(** A record of [silent] is never added: the walk of [seen_thread] after a
    pause finds it only if it was there before. *)
Lemma seen_from_after_pause (heap : gmap Z Registry.thread) (head q : Z)
    (t : Registry.thread) :
  Registry.tid t <> silent -> Registry.next t = head ->
  forall (fuel : nat) (x : Z),
    Registry.seen_from fuel silent (<[q := t]> heap) x = Some true ->
    (exists fuel', Registry.seen_from fuel' silent heap x = Some true)
    \/ (exists fuel', Registry.seen_from fuel' silent heap head = Some true).
Proof.
  intros Ht Hnext. induction fuel as [|fuel IH]; intros x Hx; [discriminate|].
  cbn [Registry.seen_from] in Hx.
  destruct (Z.eqb_spec x 0) as [|Hx0]; [discriminate|].
  destruct (decide (q = x)) as [->|Hq].
  - rewrite lookup_insert_eq in Hx.
    destruct (Z.eqb_spec (Registry.tid t) silent); [contradiction|].
    rewrite Hnext in Hx. right.
    destruct (IH _ Hx) as [H|H]; exact H.
  - rewrite lookup_insert_ne in Hx by assumption.
    destruct (heap !! x) as [r|] eqn:Er; [|discriminate].
    destruct (Z.eqb_spec (Registry.tid r) silent) as [E|E].
    + left. exists 1%nat. cbn [Registry.seen_from].
      destruct (Z.eqb_spec x 0); [contradiction|]. rewrite Er.
      now rewrite (proj2 (Z.eqb_eq _ _) E).
    + destruct (IH _ Hx) as [[f' H]|H]; [left|right; exact H].
      exists (S f'). cbn [Registry.seen_from].
      destruct (Z.eqb_spec x 0); [contradiction|]. rewrite Er.
      now rewrite (proj2 (Z.eqb_neq _ _) E).
Qed.

#[local] Abbreviation unseen := (Suspend.unseen self silent).

Lemma tgkill_unseen (tid : Z) (p : proc) :
  unseen p -> unseen (tgkill e tid p).
Proof.
  intros [(t & Ht & Hne) Hseen]. unfold tgkill.
  destruct (responds e tid) eqn:Hr; [|split; [exists t; auto|exact Hseen]].
  assert (tid <> silent) as Htid by (intros ->; congruence).
  unfold Suspend.unseen, Registry.seen_thread, pause_thread, notify_paused,
    set_registry, Registry.pause_thread_record, Registry.add_thread,
    Registry.new_thread.
  cbn [registry Registry.threads Registry.thread_list].
  rewrite alter_insert_eq. cbn [Registry.tid Registry.uctx].
  split.
  - destruct (decide (frame e tid = self)) as [->|Hf].
    + eexists. split; [apply lookup_insert_eq|assumption].
    + exists t. rewrite lookup_insert_ne by assumption. auto.
  - intros [|fuel] Hf; [discriminate|].
    cbn [Registry.seen_from] in Hf.
    destruct (frame e tid =? 0); [discriminate|].
    rewrite lookup_insert_eq in Hf. cbn [Registry.tid Registry.next] in Hf.
    destruct (Z.eqb_spec tid silent); [contradiction|].
    apply seen_from_after_pause with (head := Registry.thread_list (registry p))
      in Hf; [|assumption|reflexivity].
    destruct Hf as [[f' Hf]|[f' Hf]]; exact (Hseen f' Hf).
Qed.

(** The name under which [/proc/self/task] lists [silent] on every pass. *)
Variable name : string.
Hypothesis name_is_tid : atoi name = silent.
Hypothesis name_not_dot : name <> "."%string.
Hypothesis name_not_dotdot : name <> ".."%string.

(** One scan signals every thread it has not seen, [silent] among them. *)
Lemma scan_counts (fuel : nat) (entries : list string) :
  forall (thread_count : Z) (p : proc) (thread_count' : Z) (p' : proc),
    unseen p -> 0 <= thread_count < 2 ^ 32 ->
    scan fuel e self entries thread_count p = Some (thread_count', p') ->
    unseen p'
    /\ exists k : Z,
         thread_count' = (thread_count + k) mod 2 ^ 32
         /\ 0 <= k <= Z.of_nat (length entries)
         /\ (name ∈ entries -> 1 <= k).
Proof.
  induction entries as [|d_name entries IH];
    intros thread_count p thread_count' p' Hp Hc Hscan.
  - injection Hscan as <- <-. split; [assumption|]. exists 0.
    rewrite Z.add_0_r, Z.mod_small by assumption.
    repeat split; [simpl; lia..|]. intros H. inversion H.
  - cbn [scan] in Hscan.
    assert (forall k : Z,
              0 <= k <= Z.of_nat (length entries) ->
              0 <= k <= Z.of_nat (length (d_name :: entries))) as Hlen
      by (intros; cbn [length]; lia).
    assert (forall k : Z,
              d_name <> name -> (name ∈ entries -> 1 <= k) ->
              name ∈ d_name :: entries -> 1 <= k) as Hskip.
    { intros k Hd Hk Hin. apply elem_of_cons in Hin as [->|Hin]; auto.
      congruence. }
    destruct (String.eqb d_name "." || String.eqb d_name "..") eqn:Hdot.
    { destruct (IH _ _ _ _ Hp Hc Hscan) as (Hp' & k & -> & Hk & Hin).
      split; [assumption|]. exists k. repeat split; try (apply Hlen; lia).
      apply Hskip; [|assumption]. intros ->.
      apply orb_true_iff in Hdot as [H|H]; apply String.eqb_eq in H;
        congruence. }
    destruct Hp as [(t & Ht & Hne) Hseen].
    rewrite Ht in Hscan.
    destruct (Z.eqb_spec (atoi d_name) (Registry.tid t)) as [Eself|Eself].
    { destruct (IH _ _ _ _ (conj (ex_intro _ t (conj Ht Hne)) Hseen) Hc Hscan)
        as (Hp' & k & -> & Hk & Hin).
      split; [assumption|]. exists k. repeat split; try (apply Hlen; lia).
      apply Hskip; [|assumption]. intros ->. congruence. }
    destruct (Registry.seen_thread fuel (atoi d_name) (registry p))
      as [[|]|] eqn:Eseen; [| |discriminate].
    { destruct (IH _ _ _ _ (conj (ex_intro _ t (conj Ht Hne)) Hseen) Hc Hscan)
        as (Hp' & k & -> & Hk & Hin).
      split; [assumption|]. exists k. repeat split; try (apply Hlen; lia).
      apply Hskip; [|assumption]. intros ->.
      rewrite name_is_tid in Eseen. exact (Hseen _ Eseen). }
    assert (0 <= incr32 thread_count < 2 ^ 32) as Hc'
      by (apply Z.mod_pos_bound; lia).
    destruct (IH _ _ _ _
                (tgkill_unseen (atoi d_name) p
                   (conj (ex_intro _ t (conj Ht Hne)) Hseen)) Hc' Hscan)
      as (Hp' & k & -> & Hk & Hin).
    split; [assumption|]. exists (k + 1). unfold incr32.
    rewrite Z.add_mod_idemp_l by lia.
    repeat split; [f_equal; lia|lia|cbn [length]; lia|lia].
Qed.

(** Every pass counts [silent] again, so the loop condition never fails. *)
Lemma passes_never_return :
  (forall pass, name ∈ task_dir e pass) ->
  (forall pass, Z.of_nat (length (task_dir e pass)) < 2 ^ 32) ->
  forall (fuel pass : nat) (thread_count : Z) (p : proc),
    unseen p -> 0 <= thread_count < 2 ^ 32 ->
    passes fuel e self pass thread_count p = None.
Proof.
  intros Hlisted Hshort.
  induction fuel as [|fuel IH]; intros pass thread_count p Hp Hc; [reflexivity|].
  cbn [passes].
  destruct (scan fuel e self (task_dir e pass) thread_count p)
    as [[thread_count' p']|] eqn:Hscan; [|reflexivity].
  destruct (scan_counts _ _ _ _ _ _ Hp Hc Hscan) as (Hp' & k & -> & Hk & Hin).
  specialize (Hin (Hlisted pass)). specialize (Hshort pass).
  assert ((thread_count + k) mod 2 ^ 32 <> thread_count) as Hne.
  { intros E.
    destruct (Z_lt_le_dec (thread_count + k) (2 ^ 32)).
    - rewrite Z.mod_small in E by lia. lia.
    - replace (thread_count + k) with (thread_count + k - 2 ^ 32 + 1 * 2 ^ 32) in E
        by lia.
      rewrite Z.mod_add, Z.mod_small in E by lia. lia. }
  destruct (Z.eqb_spec thread_count ((thread_count + k) mod 2 ^ 32));
    [congruence|].
  apply IH; [|apply Z.mod_pos_bound; lia].
  unfold wait_paused. destruct (_ =? _); exact Hp'.
Qed.

End suspend_facts.

(** C5 (the code does otherwise). When a thread that [/proc/self/task]
    lists on every pass never runs the handler of the pausing signal,
    [suspend_other_threads] does not return, whatever the fuel: each pass
    signals that thread and counts it again, [wait_paused] times out, and
    [old_thread_count != thread_count] holds at the end of every pass. *)
Theorem suspend_other_threads_never_returns
    (e : Suspend.env) (self : Z) (name : string) (t : Registry.thread)
    (p : Suspend.proc) (fuel : nat) :
  Suspend.responds e (Suspend.atoi name) = false ->
  name <> "."%string -> name <> ".."%string ->
  (forall pass, name ∈ Suspend.task_dir e pass) ->
  (forall pass, Z.of_nat (length (Suspend.task_dir e pass)) < 2 ^ 32) ->
  Registry.threads (Suspend.registry p) !! self = Some t ->
  Registry.next t = 0 -> Registry.tid t <> Suspend.atoi name ->
  Suspend.suspend_other_threads fuel e self p = None.
Proof.
  intros Hsilent Hdot Hdotdot Hlisted Hshort Hself Hnext Htid.
  unfold Suspend.suspend_other_threads.
  destruct (Suspend.take_thread_lock p) as [p1|] eqn:Hlock; [|reflexivity].
  unfold Suspend.take_thread_lock in Hlock.
  destruct (_ =? _); [|discriminate]. injection Hlock as <-.
  rewrite (passes_never_return e self (Suspend.atoi name) Hsilent name
             eq_refl Hdot Hdotdot Hlisted Hshort); [reflexivity| |lia].
  unfold Suspend.unseen, Registry.seen_thread. cbn. split.
  - exists t. auto.
  - intros [|f]; [discriminate|]. cbn [Registry.seen_from].
    destruct (self =? 0); [discriminate|]. rewrite Hself.
    destruct (Z.eqb_spec (Registry.tid t) (Suspend.atoi name)); [contradiction|].
    rewrite Hnext. destruct f; discriminate.
Qed.

Lemma suspend_other_threads_never_returns_witness :
  Suspend.suspend_other_threads 1000 Suspend.one_silent Suspend.self_addr
    Suspend.start = None.
Proof.
  apply (suspend_other_threads_never_returns Suspend.one_silent
           Suspend.self_addr "102"
           {| Registry.next := 0; Registry.tid := 100; Registry.uctx := 0 |});
    [ reflexivity | discriminate | discriminate
    | intros pass; cbn; set_solver
    | intros pass; cbn; lia
    | reflexivity | reflexivity | discriminate ].
Defined.

(** With every thread answering, the same process is suspended after two
    passes. *)
Example suspend_other_threads_all_respond :
  Suspend.signalled
    <$> Suspend.suspend_other_threads 10 Suspend.all_respond Suspend.self_addr
          Suspend.start
  = Some [101; 102].
Proof. vm_compute. reflexivity. Qed.

(** * The order of events in the fatal-signal handler *)

Lemma precedesb_precedes (a b : Handler.event) (tr : list Handler.event) :
  Handler.precedesb a b tr = true -> Handler.precedes a b tr.
Proof.
  induction tr as [|x tr IH]; intros H j Hj; [discriminate|].
  cbn [Handler.precedesb] in H.
  destruct (bool_decide_reflect (x = b)) as [|Hxb]; [discriminate|].
  destruct j as [|j]; [cbn in Hj; congruence|].
  destruct (bool_decide_reflect (x = a)) as [->|Hxa].
  - exists 0%nat. split; [lia|reflexivity].
  - destruct (IH H j Hj) as (i & Hi & Ha).
    exists (S i). split; [lia|exact Ha].
Qed.

Ltac run_handler :=
  cbv beta iota zeta delta
    [Handler.handle_fatal_signal mbind Handler.handler_bind mret
     Handler.handler_ret Handler.call Handler.reset_signals
     Handler.reset_signal Handler.store_crashInfo Handler.set_errno
     Handler.get_errno signalsToHandle app].

Ltac callee_returns :=
  match goal with
  | |- context [match ?f ?p with Some _ => _ | None => _ end] =>
      let r := fresh "r" in
      destruct (f p) as [[r ?]|]
  end.

Ltac ordered :=
  first
    [ apply precedesb_precedes; vm_compute; reflexivity
    | repeat apply Forall_cons_2; try apply Forall_nil_2;
      try split; apply precedesb_precedes; vm_compute; reflexivity ].

Section handler_claims.
Import Handler.

Variable suspend : Registry.thread -> process -> option (unit * process).
Variable memserver : process -> option (Z * process).
Variable backtracer : Z -> process -> option (bool * process).
Variable resume : process -> option (unit * process).
Variable gettid : Z.

(** C6. Whatever the callees do to the state, and whether or not they
    return: the other threads are suspended before any fatal signal is
    reset, before [crashInfo] is written and before the memory server is
    started; every fatal signal is reset before the memory server is started
    and before the backtracer runs; the other threads are resumed only after
    the backtracer has returned; and when the handler returns it has gone
    through all of these steps, in the order listed, and [errno] is what it
    was on entry. *)
Theorem handle_fatal_signal_order (signum si_addr uctx : Z) (p : process) :
  let run :=
    handle_fatal_signal suspend memserver backtracer resume gettid
      signum si_addr uctx p in
  Forall (fun s => precedes (Return suspend_other_threads) (ResetSignal s) run.1)
    signalsToHandle
  /\ precedes (Return suspend_other_threads) StoreCrashInfo run.1
  /\ precedes (Return suspend_other_threads) (Call memserver_start) run.1
  /\ Forall (fun s =>
               precedes (ResetSignal s) (Call memserver_start) run.1
               /\ precedes (ResetSignal s) (Call run_backtracer) run.1)
       signalsToHandle
  /\ precedes (Return run_backtracer) (Call resume_other_threads) run.1
  /\ forall result,
       run.2 = Some result ->
       errno result.2 = errno p
       /\ run.1
          = [ Call suspend_other_threads; Return suspend_other_threads;
              ResetSignal SIGQUIT; ResetSignal SIGABRT; ResetSignal SIGBUS;
              ResetSignal SIGFPE; ResetSignal SIGILL; ResetSignal SIGSEGV;
              ResetSignal SIGTRAP;
              StoreCrashInfo;
              Call memserver_start; Return memserver_start;
              Call run_backtracer; Return run_backtracer;
              ResetSignal SIGSEGV; ResetSignal SIGBUS;
              Call resume_other_threads; Return resume_other_threads;
              RestoreErrno ].
Proof.
  intros run. subst run. run_handler.
  repeat callee_returns; cbn [fst snd];
    (split; [ordered|]); (split; [ordered|]); (split; [ordered|]);
    (split; [ordered|]); (split; [ordered|]);
    intros result Hr; try discriminate;
    injection Hr as <-; cbn [snd errno];
    split; reflexivity.
Qed.

End handler_claims.

Lemma handle_fatal_signal_order_witness :
  Handler.errno
    <$> (snd
           <$> (Handler.handle_fatal_signal
                  (fun _ p => Some (tt, Handler.sample_clobber p))
                  (fun p => Some (5, Handler.sample_clobber p))
                  (fun _ p => Some (true, Handler.sample_clobber p))
                  (fun p => Some (tt, Handler.sample_clobber p))
                  100 SIGSEGV 4096 0 Handler.sample_process).2)
  = Some 7.
Proof.
  pose proof (handle_fatal_signal_order
                (fun _ p => Some (tt, Handler.sample_clobber p))
                (fun p => Some (5, Handler.sample_clobber p))
                (fun _ p => Some (true, Handler.sample_clobber p))
                (fun p => Some (tt, Handler.sample_clobber p))
                100 SIGSEGV 4096 0 Handler.sample_process) as H.
  cbv zeta in H. destruct H as (_ & _ & _ & _ & _ & H).
  destruct (Handler.handle_fatal_signal _ _ _ _ _ _ _ _ _).2 as [result|] eqn:E;
    [|vm_compute in E; discriminate E].
  destruct (H result eq_refl) as [Herr _].
  cbn [fmap option_fmap option_map]. now rewrite Herr.
Defined.

(** * Bytes and wire records *)

Lemma Z_of_byte_of_Z (z : Z) : Z_of_byte (byte_of_Z z) = z mod 256.
Proof.
  unfold Z_of_byte, byte_of_Z.
  pose proof (Z.mod_pos_bound z 256 ltac:(lia)) as Hb.
  destruct (Byte.of_N (Z.to_N (z mod 256))) as [b|] eqn:E.
  - apply Byte.to_of_N in E. unfold default, from_option, id. rewrite E. lia.
  - apply Byte.of_N_None_iff in E. lia.
Qed.

Lemma Z_of_byte_range (b : byte) : 0 <= Z_of_byte b < 256.
Proof. unfold Z_of_byte. pose proof (Byte.to_N_bounded b). lia. Qed.

Lemma length_le_bytes (n : nat) (v : Z) : length (le_bytes n v) = n.
Proof. revert v. induction n; intros v; simpl; auto. Qed.

Lemma le_value_le_bytes (n : nat) (v : Z) :
  le_value (le_bytes n v) = v mod 256 ^ Z.of_nat n.
Proof.
  revert v. induction n as [|n IH]; intros v.
  - simpl. now rewrite Z.mod_1_r.
  - cbn [le_bytes le_value]. rewrite Z_of_byte_of_Z, IH.
    rewrite Nat2Z.inj_succ, Z.pow_succ_r by lia.
    assert (0 < 256 ^ Z.of_nat n) by (apply Z.pow_pos_nonneg; lia).
    rewrite Z.rem_mul_r by lia. reflexivity.
Qed.

Lemma decode_encode_req (req : memserver_req.t) :
  0 <= memserver_req.addr req < 2 ^ 64 ->
  0 <= memserver_req.len req < 2 ^ 64 ->
  decode_req (encode_req req) = req.
Proof.
  intros Ha Hl. destruct req as [a l]. cbn [memserver_req.addr memserver_req.len] in *.
  unfold decode_req, encode_req. cbn [memserver_req.addr memserver_req.len].
  rewrite take_app_length' by (symmetry; apply length_le_bytes).
  rewrite drop_app_length' by (symmetry; apply length_le_bytes).
  rewrite take_ge by (rewrite length_le_bytes; lia).
  rewrite !le_value_le_bytes.
  change (256 ^ Z.of_nat 8) with (2 ^ 64).
  now rewrite !Z.mod_small by assumption.
Qed.

Lemma length_encode_req (req : memserver_req.t) : length (encode_req req) = 16%nat.
Proof. unfold encode_req. now rewrite length_app, !length_le_bytes. Qed.

Lemma length_encode_resp (resp : memserver_resp.t) :
  length (encode_resp resp) = 16%nat.
Proof. unfold encode_resp. now rewrite length_app, !length_le_bytes. Qed.

(** * The memory server *)

Section memserver_facts.
Import MemServer.

(** ** Complete reads and writes *)

Lemma read_retry_data (fuel : nat) (len : Z) (data : list byte)
    (rest : list in_event) (w : world) :
  incoming w = InData data :: rest ->
  Z.of_nat (length data) <= len -> (1 <= fuel)%nat ->
  read_retry fuel len w
  = Some (Z.of_nat (length data), data, set_incoming rest w).
Proof.
  intros Hin Hlen Hf. destruct fuel as [|fuel]; [lia|].
  cbn [read_retry]. unfold sys_read. rewrite Hin.
  rewrite take_ge, drop_ge by lia.
  destruct (Z.ltb_spec (Z.of_nat (length data)) 0); [lia|]. reflexivity.
Qed.

(** A request that arrives whole is read by one [read]. *)
Lemma safe_read_whole (fuel : nat) (req data : list byte) (rest : list in_event)
    (w : world) :
  incoming w = InData data :: rest ->
  length data = 16%nat -> length req = 16%nat -> (3 <= fuel)%nat ->
  safe_read fuel req 16 w = Some (16, data, set_incoming rest w).
Proof.
  intros Hin Hd Hr Hf.
  destruct fuel as [|[|[|fuel]]]; try lia.
  unfold safe_read. cbn [safe_read_loop].
  change (0 <? 16) with true. cbv iota.
  rewrite (read_retry_data _ 16 data rest) by (auto; lia).
  rewrite Hd. cbn [mbind option_bind].
  change (Z.of_nat 16 <? 0) with false. cbv iota.
  change (0 + Z.of_nat 16 <? 16) with false. cbv iota.
  unfold store. rewrite drop_ge by lia. now rewrite app_nil_r.
Qed.

(** With nothing in the way, [safe_write] hands its bytes to one [write]. *)
Lemma write_retry_all (fuel : nat) (data : list byte) (w : world) :
  outgoing w = [] -> (1 <= fuel)%nat ->
  write_retry fuel data w
  = Some (Z.of_nat (length data), set_written (written w ++ [data]) w).
Proof.
  intros Hout Hf. destruct fuel as [|fuel]; [lia|].
  cbn [write_retry]. unfold sys_write. rewrite Hout.
  destruct (Z.ltb_spec (Z.of_nat (length data)) 0); [lia|]. reflexivity.
Qed.

Lemma safe_write_all (fuel : nat) (buf : list byte) (len : Z) (w : world) :
  outgoing w = [] -> 0 < len <= Z.of_nat (length buf) -> (3 <= fuel)%nat ->
  safe_write fuel buf len w
  = Some (len, set_written (written w ++ [take (Z.to_nat len) buf]) w).
Proof.
  intros Hout Hlen Hf.
  destruct fuel as [|[|[|fuel]]]; try lia.
  unfold safe_write. cbn [safe_write_loop].
  destruct (Z.ltb_spec 0 len); [|lia].
  rewrite write_retry_all by (auto; lia).
  rewrite length_take_le by lia. rewrite Z2Nat.id by lia.
  cbn [mbind option_bind].
  destruct (Z.ltb_spec len 0); [lia|].
  destruct (Z.ltb_spec (0 + len) len); [lia|].
  reflexivity.
Qed.


(** ** Reading memory *)

Lemma fetch_length (m : Z -> option byte) (a : Z) (n : nat) (data : list byte) :
  fetch m a n = Some data -> length data = n.
Proof.
  revert a data. induction n as [|n IH]; intros a data H; cbn [fetch] in H.
  - now injection H as <-.
  - destruct (load m a); [|discriminate].
    destruct (fetch m (a + 1) n) eqn:E; [|discriminate].
    injection H as <-. cbn [length]. f_equal. eauto.
Qed.

Lemma fetch_app (m : Z -> option byte) (a : Z) (n k : nat) :
  fetch m a (n + k)
  = match fetch m a n, fetch m (a + Z.of_nat n) k with
    | Some d1, Some d2 => Some (d1 ++ d2)
    | _, _ => None
    end.
Proof.
  revert a. induction n as [|n IH]; intros a.
  - cbn [fetch Nat.add Z.of_nat]. rewrite Z.add_0_r.
    now destruct (fetch m a k).
  - cbn [fetch Nat.add]. rewrite IH.
    replace (a + 1 + Z.of_nat n) with (a + Z.of_nat (S n)) by lia.
    destruct (load m a); [|reflexivity].
    destruct (fetch m (a + 1) n); [|reflexivity].
    now destruct (fetch m (a + Z.of_nat (S n)) k).
Qed.

Lemma readable_prefix_length (m : Z -> option byte) (a : Z) (n : nat) :
  (length (readable_prefix m a n) <= n)%nat.
Proof.
  revert a. induction n as [|n IH]; intros a; cbn [readable_prefix]; [simpl; lia|].
  destruct (load m a); cbn [length]; [|lia]. specialize (IH (a + 1)). lia.
Qed.

Lemma length_store (data buf : list byte) :
  (length data <= length buf)%nat -> length (store data buf) = length buf.
Proof. intros H. unfold store. rewrite length_app, length_drop. lia. Qed.

Lemma take_store (data buf : list byte) :
  take (length data) (store data buf) = data.
Proof. unfold store. now rewrite take_app_length. Qed.

(** What one call of [memserver_read] returns and leaves behind. *)
Lemma memserver_read_spec (from len : Z) (w : world) :
  0 < len <= 4096 -> length (memserver_buffer w) = 4096%nat ->
  exists ret w',
    memserver_read from len w = (ret, w')
    /\ same_channel w w' /\ written w' = written w
    /\ (ret = -1 \/ 0 < ret <= len)
    /\ (forall data,
          fetch (mem w) from (Z.to_nat len) = Some data ->
          ret = len /\ take (Z.to_nat len) (memserver_buffer w') = data)
    /\ (memserver_has_ptrace w = false ->
        fetch (mem w) from (Z.to_nat len) = None -> ret = 1).
Proof.
  intros Hlen Hbuf. unfold memserver_read.
  destruct (fetch (mem w) from (Z.to_nat len)) as [data|] eqn:Ef.
  - pose proof (fetch_length _ _ _ _ Ef) as Hd.
    exists len, (set_memserver_buffer (store data (memserver_buffer w)) w).
    split; [now destruct (memserver_has_ptrace w)|].
    split.
    { unfold same_channel. cbn. rewrite length_store by lia. tauto. }
    split; [reflexivity|]. split; [right; lia|]. split; [|discriminate].
    intros ? [= <-]. split; [reflexivity|]. cbn. rewrite <- Hd at 1.
    apply take_store.
  - destruct (memserver_has_ptrace w) eqn:Hp.
    + pose proof (readable_prefix_length (mem w) from (Z.to_nat len)) as Hpre.
      destruct (readable_prefix (mem w) from (Z.to_nat len)) as [|b l].
      * exists (-1), (set_errno EFAULT w). split; [reflexivity|].
        split; [unfold same_channel; cbn; tauto|].
        split; [reflexivity|]. split; [now left|].
        split; discriminate.
      * eexists _, _. split; [reflexivity|].
        split.
        { unfold same_channel. cbn [mem incoming outgoing closed
            memserver_has_ptrace memserver_buffer set_memserver_buffer].
          rewrite length_store by lia. tauto. }
        split; [reflexivity|]. split; [right; cbn [length] in *; lia|].
        split; discriminate.
    + eexists 1, _. split; [reflexivity|].
      split.
      { unfold same_channel. cbn.
        rewrite length_store by (rewrite length_take; lia). tauto. }
      split; [reflexivity|]. split; [right; lia|]. split; [discriminate|auto].
Qed.

(** ** One round of the copy loop *)

Lemma serve_round (fuel : nat) (addr bytes : Z) (w : world) :
  0 < bytes -> clear w -> (3 <= fuel)%nat ->
  exists ret w1,
    memserver_read addr (Z.min bytes 4096) w = (ret, w1)
    /\ let header :=
         encode_resp {| memserver_resp.addr := addr; memserver_resp.len := ret |} in
       serve (S fuel) addr bytes w
       = if ret <? 0
         then Some (Answered, set_written (written w ++ [header]) w1)
         else serve fuel (wrap64 (addr + ret)) (wrap64 (bytes - ret))
                (set_written
                   (written w ++ [header; take (Z.to_nat ret) (memserver_buffer w1)])
                   w1).
Proof.
  intros Hb [Hout Hbuf] Hf.
  destruct (memserver_read_spec addr (Z.min bytes 4096) w)
    as (ret & w1 & Hread & Hsame & Hwr & Hret & _); [lia|assumption|].
  destruct Hsame as (_ & _ & Hout1 & _ & _ & Hbuf1).
  exists ret, w1. split; [exact Hread|]. intros header.
  cbn [serve]. destruct (Z.eqb_spec bytes 0); [lia|].
  replace (if bytes <? 4096 then bytes else 4096) with (Z.min bytes 4096)
    by (destruct (Z.ltb_spec bytes 4096); lia).
  rewrite Hread.
  rewrite safe_write_all;
    [|congruence|rewrite length_encode_resp; cbn; lia|assumption].
  cbn [mbind option_bind memserver_resp.len].
  rewrite Z.eqb_refl. cbn [negb].
  rewrite take_ge by (rewrite length_encode_resp; cbn; lia).
  fold header. rewrite Hwr.
  destruct (Z.ltb_spec ret 0) as [Hneg|Hpos]; [reflexivity|].
  rewrite safe_write_all; [|cbn; congruence|cbn; lia|assumption].
  cbn [mbind option_bind]. rewrite Z.eqb_refl. cbn [negb].
  cbn [written memserver_buffer set_written].
  now rewrite <- app_assoc.
Qed.


(** ** The answer to one request *)

Lemma same_channel_written (w w1 : world) (v : list (list byte)) :
  same_channel w w1 -> same_channel w (set_written v w1).
Proof. unfold same_channel. cbn. tauto. Qed.

Lemma same_channel_trans (w1 w2 w3 : world) :
  same_channel w1 w2 -> same_channel w2 w3 -> same_channel w1 w3.
Proof. unfold same_channel. intuition congruence. Qed.

Lemma clear_same_channel (w w' : world) :
  clear w -> same_channel w w' -> clear w'.
Proof. unfold clear, same_channel. intuition congruence. Qed.

Lemma chunks_count (bytes : Z) :
  4096 < bytes -> 1 + (bytes - 4096 + 4095) / 4096 = (bytes + 4095) / 4096.
Proof.
  intros H. replace (bytes + 4095) with (bytes - 4096 + 4095 + 1 * 4096) by lia.
  rewrite Z.div_add by lia. lia.
Qed.

Lemma one_chunk (bytes : Z) : 0 < bytes <= 4096 -> (bytes + 4095) / 4096 = 1.
Proof. intros H. symmetry. apply Z.div_unique with (bytes - 1); lia. Qed.

Lemma fetch_split (m : Z -> option byte) (a : Z) (n k : nat) (data : list byte) :
  fetch m a n = Some data -> (k <= n)%nat ->
  fetch m a k = Some (take k data)
  /\ fetch m (a + Z.of_nat k) (n - k) = Some (drop k data).
Proof.
  intros H Hk. replace n with (k + (n - k))%nat in H by lia.
  rewrite fetch_app in H.
  destruct (fetch m a k) as [d1|] eqn:E1; [|discriminate].
  destruct (fetch m (a + Z.of_nat k) (n - k)) as [d2|] eqn:E2; [|discriminate].
  injection H as <-. apply fetch_length in E1.
  rewrite take_app_length', drop_app_length' by (symmetry; assumption). auto.
Qed.

(** The frames that [serve] writes for a request of [bytes] bytes at
    [addr], when every [write] is taken whole. *)
Lemma serve_frames (n : nat) :
  forall (addr bytes : Z) (w : world) (fuel : nat),
    (Z.to_nat bytes <= n)%nat -> 0 <= addr < 2 ^ 64 -> 0 <= bytes < 2 ^ 64 ->
    clear w -> (n + 4 <= fuel)%nat ->
    exists (frames : list frame) (w' : world),
      serve fuel addr bytes w = Some (Answered, w')
      /\ written w' = written w ++ frames_writes frames
      /\ same_channel w w'
      /\ Forall well_framed frames
      /\ ends_at_fault frames
      /\ (frames = [] <-> bytes = 0)
      /\ (forall data,
            fetch (mem w) addr (Z.to_nat bytes) = Some data ->
            addr + bytes <= 2 ^ 64 ->
            concat (snd <$> frames) = data
            /\ contiguous addr frames
            /\ chunked addr bytes frames
            /\ Forall (fun f : frame => 0 < memserver_resp.len f.1 <= 4096) frames
            /\ Z.of_nat (length frames) = (bytes + 4095) / 4096).
Proof.
  induction n as [|n IH]; intros addr bytes w fuel Hn Ha Hb Hclear Hfuel.
  - assert (bytes = 0) as -> by lia.
    destruct fuel as [|fuel]; [lia|].
    exists [], w. cbn [serve Z.eqb].
    repeat split; try reflexivity; try constructor.
    + unfold frames_writes. cbn. now rewrite app_nil_r.
    + cbn in H. now injection H as <-.
  - destruct (Z.eq_dec bytes 0) as [->|Hnz].
    { apply (IH addr 0 w fuel); [simpl; lia|lia|lia|assumption|lia]. }
    destruct fuel as [|fuel]; [lia|].
    destruct (serve_round fuel addr bytes w) as (ret & w1 & Hread & Hserve);
      [lia|assumption|lia|].
    cbv zeta in Hserve. rewrite Hserve. clear Hserve.
    destruct (memserver_read_spec addr (Z.min bytes 4096) w)
      as (ret' & w1' & Hread' & Hsame & Hwr & Hret & Hok & Hfault);
      [lia|apply Hclear|].
    rewrite Hread in Hread'. injection Hread' as <- <-.
    set (todo := Z.to_nat (Z.min bytes 4096)) in *.
    assert (todo <= Z.to_nat bytes)%nat as Htodo by (unfold todo; lia).
    set (header := {| memserver_resp.addr := addr; memserver_resp.len := ret |}).
    destruct (Z.ltb_spec ret 0) as [Hneg|Hpos].
    + (* the read failed: one header, no payload *)
      exists [(header, [])], (set_written (written w ++ [encode_resp header]) w1).
      split; [reflexivity|].
      split.
      { unfold frames_writes, frame_writes. cbn.
        destruct (Z.ltb_spec ret 0); [|lia]. reflexivity. }
      split; [now apply same_channel_written|].
      split.
      { constructor; [|constructor]. unfold well_framed. cbn.
        destruct (Z.ltb_spec ret 0); [reflexivity|lia]. }
      split; [cbn; auto|].
      split; [split; [discriminate|lia]|].
      intros data Hdata _.
      destruct (fetch_split _ _ _ todo _ Hdata Htodo) as [Hhead _].
      destruct (Hok _ Hhead) as [-> _]. lia.
    + (* the read went through: a header, its payload, and the rest *)
      assert (0 < ret <= Z.min bytes 4096) as Hret' by lia. clear Hret.
      set (payload := take (Z.to_nat ret) (memserver_buffer w1)).
      set (w2 := set_written (written w ++ [encode_resp header; payload]) w1).
      assert (clear w2) as Hclear2.
      { apply (clear_same_channel w); [assumption|].
        now apply same_channel_written. }
      assert (wrap64 (bytes - ret) = bytes - ret) as Hbytes'
        by (unfold wrap64; apply Z.mod_small; lia).
      rewrite Hbytes'.
      destruct (IH (wrap64 (addr + ret)) (bytes - ret) w2 fuel)
        as (frames & w' & Hrun & Hwritten & Hsame' & Hwf & Hend & Hnil & Hreadable);
        [lia|apply Z.mod_pos_bound; lia|lia|assumption|lia|].
      exists ((header, payload) :: frames), w'.
      split; [exact Hrun|].
      split.
      { rewrite Hwritten. unfold frames_writes, frame_writes.
        cbn [fmap list_fmap concat fst snd memserver_resp.len header].
        destruct (Z.ltb_spec ret 0); [lia|].
        cbn [written w2 set_written]. now rewrite <- app_assoc. }
      split.
      { apply (same_channel_trans w w2);
          [now apply same_channel_written|assumption]. }
      assert (length payload = Z.to_nat ret) as Hpayload.
      { unfold payload. apply length_take_le.
        destruct Hsame as (_ & _ & _ & _ & _ & ->).
        destruct Hclear as [_ ->]. lia. }
      split.
      { constructor; [|assumption]. unfold well_framed. cbn.
        destruct (Z.ltb_spec ret 0); [lia|]. rewrite Hpayload. lia. }
      split; [cbn; split; [lia|assumption]|].
      split; [split; [discriminate|lia]|].
      intros data Hdata Htop.
      destruct (fetch_split _ _ _ todo _ Hdata Htodo) as [Hhead Htail].
      destruct (Hok _ Hhead) as [Eret Ebuf].
      assert (payload = take todo data) as Epayload.
      { unfold payload. rewrite Eret. exact Ebuf. }
      assert (Z.of_nat todo = ret) as Etodo by (unfold todo; lia).
      assert (fetch (mem w2) (wrap64 (addr + ret)) (Z.to_nat (bytes - ret))
              = Some (drop todo data)) as Hrest.
      { replace (mem w2) with (mem w) by (symmetry; apply Hsame).
        destruct (Z.eq_dec (bytes - ret) 0) as [E0|E0].
        - rewrite E0. change (Z.to_nat 0) with 0%nat. cbn [fetch]. f_equal. symmetry.
          apply drop_ge. apply fetch_length in Hdata. lia.
        - unfold wrap64. rewrite Z.mod_small by lia.
          rewrite <- Etodo. rewrite <- Htail. f_equal. lia. }
      destruct (Hreadable _ Hrest) as (Hcat & Hcont & Hchunk & Hlens & Hcount).
      { pose proof (Z.mod_pos_bound (addr + ret) (2 ^ 64) ltac:(lia)).
        destruct (Z.eq_dec (bytes - ret) 0) as [E0|E0]; [unfold wrap64; lia|].
        unfold wrap64. rewrite Z.mod_small by lia. lia. }
      split.
      { cbn [fmap list_fmap concat snd]. rewrite Hcat, Epayload.
        apply take_drop. }
      split.
      { cbn [contiguous fst memserver_resp.addr memserver_resp.len header].
        split; [reflexivity|].
        destruct frames as [|f frames]; [exact I|].
        assert (bytes - ret <> 0) as E0.
        { intros E0. apply Hnil in E0. discriminate. }
        unfold wrap64 in Hcont. now rewrite Z.mod_small in Hcont by lia. }
      split.
      { cbn [chunked fst memserver_resp.addr memserver_resp.len header].
        split; [lia|]. split; [reflexivity|]. split; [exact Eret|].
        destruct frames as [|f frames]; [exact Hchunk|].
        assert (bytes - ret <> 0) as E0.
        { intros E0. apply Hnil in E0. discriminate. }
        unfold wrap64 in Hchunk. now rewrite Z.mod_small in Hchunk by lia. }
      split.
      { constructor; [cbn; lia|assumption]. }
      cbn [length]. rewrite Nat2Z.inj_succ, Hcount.
      destruct (Z_le_gt_dec bytes 4096).
      * replace (bytes - ret) with 0 by lia. rewrite (one_chunk bytes) by lia.
        reflexivity.
      * replace ret with 4096 by lia. rewrite <- (chunks_count bytes) by lia. lia.
Qed.


(** ** One request, from its arrival to the last byte of the answer *)

Lemma request_round (fuel : nat) (addr len : Z) (req : list byte)
    (rest : list in_event) (w : world) :
  0 <= addr < 2 ^ 64 -> 0 <= len < 2 ^ 64 ->
  incoming w = request addr len :: rest ->
  clear w -> length req = 16%nat -> (Z.to_nat len + 5 <= fuel)%nat ->
  exists (frames : list frame) (w' : world),
    serve_requests (S fuel) req w
    = serve_requests fuel
        (encode_req {| memserver_req.addr := addr; memserver_req.len := len |}) w'
    /\ same_channel (set_incoming rest w) w' /\ clear w'
    /\ written w' = written w ++ frames_writes frames
    /\ Forall well_framed frames
    /\ ends_at_fault frames
    /\ (frames = [] <-> len = 0)
    /\ (forall data,
          fetch (mem w) addr (Z.to_nat len) = Some data ->
          addr + len <= 2 ^ 64 ->
          concat (snd <$> frames) = data
          /\ contiguous addr frames
          /\ chunked addr len frames
          /\ Forall (fun f : frame => 0 < memserver_resp.len f.1 <= 4096) frames
          /\ Z.of_nat (length frames) = (len + 4095) / 4096).
Proof.
  intros Ha Hl Hin Hclear Hreq Hfuel.
  cbn [serve_requests].
  rewrite (safe_read_whole fuel req _ rest w Hin);
    [|apply length_encode_req|assumption|lia].
  cbn [mbind option_bind]. rewrite Z.eqb_refl. cbn [negb].
  rewrite decode_encode_req by assumption.
  cbn [memserver_req.addr memserver_req.len].
  destruct (serve_frames (Z.to_nat len) addr len (set_incoming rest w) fuel)
    as (frames & w' & Hrun & Hwritten & Hsame & Hwf & Hend & Hnil & Hreadable);
    [lia|assumption|assumption|exact Hclear|lia|].
  rewrite Hrun. exists frames, w'.
  split; [reflexivity|].
  split; [exact Hsame|].
  split; [apply (clear_same_channel (set_incoming rest w)); [exact Hclear|exact Hsame]|].
  auto.
Qed.


(** ** A whole session *)

Lemma probe_channel (w : world) :
  incoming (probe w) = incoming w /\ outgoing (probe w) = outgoing w
  /\ written (probe w) = written w /\ mem (probe w) = mem w
  /\ closed (probe w) = closed w
  /\ length (memserver_buffer (probe w)) = length (memserver_buffer w)
  /\ memserver_has_ptrace (probe w) = negb (capbset w =? 0).
Proof. unfold probe. cbn. destruct (negb (capbset w =? 0)); cbn; auto 10. Qed.


(** An error of [read] other than [EINTR] ends the loop. *)
Lemma serve_requests_read_error (fuel : nat) (req : list byte) (e : Z)
    (rest : list in_event) (w : world) :
  incoming w = InErr e :: rest -> e <> EINTR -> (3 <= fuel)%nat ->
  serve_requests fuel req w = Some (0, set_errno e (set_incoming rest w)).
Proof.
  intros Hin He Hf. destruct fuel as [|[|[|fuel]]]; try lia.
  cbn [serve_requests]. unfold safe_read.
  cbn [safe_read_loop read_retry]. unfold sys_read. rewrite Hin.
  cbn [Z.ltb Z.compare andb errno set_errno].
  destruct (Z.eqb_spec e EINTR); [contradiction|]. reflexivity.
Qed.

(** The requests of a session are answered one after the other, and the
    error that follows them ends the loop. *)
Lemma serve_session (e : Z) (m : nat) (mem0 : Z -> option byte) :
  e <> EINTR ->
  forall (requests : list (Z * Z)) (req : list byte) (w : world) (fuel : nat),
    Forall (fun r : Z * Z =>
              0 <= r.1 < 2 ^ 64 /\ 0 <= r.2 < 2 ^ 64 /\ (Z.to_nat r.2 <= m)%nat)
      requests ->
    incoming w = session requests e -> mem w = mem0 ->
    clear w -> length req = 16%nat ->
    (m + length requests + 6 <= fuel)%nat ->
    exists (answer : list (list frame)) (w' : world),
      serve_requests fuel req w = Some (0, w')
      /\ incoming w' = [] /\ closed w' = closed w
      /\ written w' = written w ++ concat (frames_writes <$> answer)
      /\ Forall2 (framed mem0) requests answer.
Proof.
  intros He requests.
  induction requests as [|[addr len] requests IH];
    intros req w fuel Hrange Hin Hmem Hclear Hreq Hfuel.
  - exists [], (set_errno e (set_incoming [] w)).
    rewrite (serve_requests_read_error fuel req e [] w) by (auto; lia).
    cbn. rewrite app_nil_r. auto using Forall2_nil.
  - apply Forall_cons in Hrange. destruct Hrange as [(Ha & Hl & Hm) Hrange].
    cbn [fst snd] in Ha, Hl, Hm. cbn [length] in Hfuel.
    destruct fuel as [|fuel]; [lia|].
    destruct (request_round fuel addr len req (session requests e) w)
      as (frames & w1 & Hrun & Hsame & Hclear1 & Hwr & Hwf & Hend & Hnil & Hok);
      [assumption|assumption|exact Hin|assumption|assumption|lia|].
    destruct Hsame as (Hmem1 & Hin1 & _ & Hclosed1 & _).
    cbn in Hmem1, Hin1, Hclosed1.
    destruct (IH (encode_req {| memserver_req.addr := addr;
                                memserver_req.len := len |}) w1 fuel)
      as (answer & w' & Hrun' & Hin' & Hclosed' & Hwr' & Hall);
      [assumption|assumption|congruence|assumption
      |apply length_encode_req|lia|].
    exists (frames :: answer), w'. rewrite Hrun.
    split; [exact Hrun'|]. split; [exact Hin'|]. split; [congruence|].
    split.
    { rewrite Hwr', Hwr. cbn [fmap list_fmap concat].
      now rewrite <- app_assoc. }
    apply Forall2_cons. split; [|exact Hall].
    unfold framed. cbn [fst snd].
    split; [exact Hwf|]. split; [exact Hend|]. split; [exact Hnil|].
    intros data Hdata Hsum. rewrite <- Hmem in Hdata.
    exact (Hok data Hdata Hsum).
Qed.

(** The same of [memserver_entry], which closes the descriptor. *)
Lemma entry_session (requests : list (Z * Z)) (e : Z) (m fuel : nat)
    (req : list byte) (w : world) :
  Forall (fun r : Z * Z =>
            0 <= r.1 < 2 ^ 64 /\ 0 <= r.2 < 2 ^ 64 /\ (Z.to_nat r.2 <= m)%nat)
    requests ->
  incoming w = session requests e ->
  e <> EINTR -> clear w -> length req = 16%nat ->
  (m + length requests + 6 <= fuel)%nat ->
  exists (answer : list (list frame)) (w' : world),
    memserver_entry fuel req w = Some (0, w')
    /\ closed w' = true
    /\ written w' = written w ++ concat (frames_writes <$> answer)
    /\ Forall2 (framed (mem w)) requests answer.
Proof.
  intros Hrange Hin He [Hout Hbuf] Hreq Hfuel.
  destruct (probe_channel w) as (Hin1 & Hout1 & Hwr1 & Hmem1 & _ & Hbuf1 & _).
  destruct (serve_session e m (mem w) He requests req (probe w) fuel)
    as (answer & w' & Hrun & _ & _ & Hwr & Hall);
    [assumption|congruence|assumption|split; congruence|assumption|assumption|].
  exists answer, (set_closed true w').
  unfold memserver_entry. rewrite Hrun.
  split; [reflexivity|]. split; [reflexivity|].
  split; [cbn; congruence|exact Hall].
Qed.



Lemma framed_answers (mem0 : Z -> option byte) (r : Z * Z) (frames : list frame) :
  framed mem0 r frames -> answers mem0 r frames.
Proof.
  intros (Hwf & Hend & Hnil & Hreadable). unfold answers.
  split; [exact Hwf|]. split; [exact Hend|]. split; [exact Hnil|].
  intros data Hdata Htop.
  destruct (Hreadable data Hdata Htop) as (? & _ & ? & _). auto.
Qed.

End memserver_facts.







(** ** Faults *)

(** Without the capability, [memserver_read] never reports a failure: a
    copy that faults returns 1. *)
Lemma guarded_copy_fault_returns_one (from len : Z) (w : MemServer.world) :
  MemServer.memserver_has_ptrace w = false ->
  MemServer.fetch (MemServer.mem w) from (Z.to_nat len) = None ->
  (MemServer.memserver_read from len w).1 = 1.
Proof.
  intros Hp Hf. unfold MemServer.memserver_read. now rewrite Hp, Hf.
Qed.

(** With the capability, a read that fails is answered by a header with
    length -1 and nothing else, and the next request is answered. *)
Example privileged_read_fault :
  MemServer.written ∘ snd
    <$> MemServer.memserver_entry 20 MemServer.blank_req
          (MemServer.boot MemServer.two_pages 1
             [MemServer.request 0 2; MemServer.request 4096 3;
              MemServer.InErr MemServer.ECONNRESET])
  = Some
      [ encode_resp {| memserver_resp.addr := 0; memserver_resp.len := -1 |};
        encode_resp {| memserver_resp.addr := 4096; memserver_resp.len := 3 |};
        byte_of_Z <$> [0; 1; 2] ].
Proof. vm_compute. reflexivity. Qed.

(** C1 (the code does otherwise). Without the capability, a request for two
    bytes at address 0, where nothing is mapped, is answered by a header of
    length 1 and one byte of the buffer, and again by a header of length 1
    and one byte for the address after it: no length field is negative and
    payload is sent. *)
Theorem guarded_copy_fault_sends_payload :
  MemServer.written ∘ snd
    <$> MemServer.memserver_entry 20 MemServer.blank_req
          (MemServer.boot MemServer.two_pages 0
             [MemServer.request 0 2; MemServer.InErr MemServer.ECONNRESET])
  = Some
      [ encode_resp {| memserver_resp.addr := 0; memserver_resp.len := 1 |};
        [Byte.x00];
        encode_resp {| memserver_resp.addr := 1; memserver_resp.len := 1 |};
        [Byte.x00] ].
Proof. vm_compute. reflexivity. Qed.

(** ** The end of the session *)

(** At the end of the stream [read] returns 0, which [safe_read] takes for
    progress: it asks again, for ever. *)
Lemma safe_read_loop_at_eof (fuel : nat) (buf : list byte)
    (ptr end_ total len : Z) (w : MemServer.world) :
  MemServer.incoming w = [] -> ptr < end_ ->
  MemServer.safe_read_loop fuel buf ptr end_ total len w = None.
Proof.
  intros Hin. revert buf ptr total len.
  induction fuel as [|fuel IH]; intros buf ptr total len Hptr; [reflexivity|].
  cbn [MemServer.safe_read_loop].
  destruct (Z.ltb_spec ptr end_); [|lia].
  destruct fuel as [|fuel]; [reflexivity|].
  cbn [MemServer.read_retry]. unfold MemServer.sys_read. rewrite Hin.
  cbn [Z.ltb Z.compare andb mbind option_bind].
  apply IH. lia.
Qed.

(** The same holds of the server loop, in whatever state the end of the
    stream finds it. *)
Lemma serve_requests_at_eof (fuel : nat) (req : list byte) (w : MemServer.world) :
  MemServer.incoming w = [] -> MemServer.serve_requests fuel req w = None.
Proof.
  intros Hin. destruct fuel as [|fuel]; [reflexivity|].
  cbn [MemServer.serve_requests]. unfold MemServer.safe_read.
  now rewrite safe_read_loop_at_eof by (auto; lia).
Qed.

(** C4 (the code does otherwise). Once the peer has closed the stream, the
    server does not leave its loop and does not close its end of the
    channel, whatever the fuel. *)
Theorem memserver_spins_at_end_of_stream
    (fuel : nat) (req : list byte) (w : MemServer.world) :
  MemServer.memserver_entry fuel req (MemServer.set_incoming [] w) = None.
Proof.
  unfold MemServer.memserver_entry.
  assert (MemServer.incoming (MemServer.probe (MemServer.set_incoming [] w)) = [])
    as Hin by (unfold MemServer.probe; cbn; now destruct (negb _)).
  now rewrite serve_requests_at_eof.
Qed.

(** So it is when the stream ends after a request has been answered. *)
Example memserver_spins_after_a_request :
  MemServer.memserver_entry 2000 MemServer.blank_req
    (MemServer.boot MemServer.two_pages 0 [MemServer.request 4096 1])
  = None.
Proof. vm_compute. reflexivity. Qed.

(** An error of [read] other than [EINTR] ends the session with the channel
    closed. *)
Lemma memserver_read_error_closes (fuel : nat) (req : list byte)
    (e : Z) (rest : list MemServer.in_event) (w : MemServer.world) :
  MemServer.incoming w = MemServer.InErr e :: rest ->
  e <> MemServer.EINTR -> (3 <= fuel)%nat ->
  exists w',
    MemServer.memserver_entry fuel req w = Some (0, w')
    /\ MemServer.closed w' = true /\ MemServer.written w' = MemServer.written w.
Proof.
  intros Hin He Hf. destruct fuel as [|[|[|fuel]]]; try lia.
  unfold MemServer.memserver_entry.
  assert (MemServer.incoming (MemServer.probe w) = MemServer.InErr e :: rest
          /\ MemServer.written (MemServer.probe w) = MemServer.written w)
    as [Hin1 Hwr1]
    by (unfold MemServer.probe; cbn; destruct (negb _); split;
        first [exact Hin | reflexivity]).
  generalize dependent (MemServer.probe w). intros w1 Hin1 Hwr1.
  cbn [MemServer.serve_requests MemServer.safe_read MemServer.safe_read_loop
       MemServer.read_retry].
  unfold MemServer.safe_read. cbn [MemServer.safe_read_loop MemServer.read_retry].
  unfold MemServer.sys_read. rewrite Hin1.
  cbn [Z.ltb Z.compare andb MemServer.errno MemServer.set_errno].
  destruct (Z.eqb_spec e MemServer.EINTR); [contradiction|].
  cbn [mbind option_bind Z.ltb Z.compare Z.eqb negb].
  eexists. split; [reflexivity|]. split; [reflexivity|exact Hwr1].
Qed.

(** A [write] that fails ends the session with the channel closed and
    [result] 1. *)
Example memserver_write_error_closes :
  (fun r : Z * MemServer.world => (r.1, MemServer.closed r.2))
    <$> MemServer.memserver_entry 20 MemServer.blank_req
          (MemServer.set_outgoing [MemServer.OutErr MemServer.EPIPE]
             (MemServer.boot MemServer.two_pages 0 [MemServer.request 4096 1]))
  = Some (1, true).
Proof. vm_compute. reflexivity. Qed.

(** * [safe_read] and [safe_write] on their own *)

Section transfer_facts.
Import MemServer.

(** ** What one call does *)

Lemma sys_write_cases (data : list byte) (w : world) :
  (exists e rest,
      outgoing w = OutErr e :: rest
      /\ sys_write data w = (-1, set_errno e (set_outgoing rest w)))
  \/ (exists taken w',
        sys_write data w = (Z.of_nat (length taken), w')
        /\ written w' = written w ++ [taken]
        /\ errno w' = errno w
        /\ (length taken <= length data)%nat).
Proof.
  unfold sys_write. destruct (outgoing w) as [|[n|e] rest] eqn:Eo.
  - right. eexists data, _. split; [reflexivity|]. cbn. auto.
  - right. eexists (take n data), _. split; [reflexivity|]. cbn.
    rewrite length_take. split; [reflexivity|split; [reflexivity|lia]].
  - left. exists e, rest. auto.
Qed.

Lemma write_retry_cases (fuel : nat) (data : list byte) (w : world)
    (ret : Z) (w' : world) :
  write_retry fuel data w = Some (ret, w') ->
  (ret = -1 /\ written w' = written w)
  \/ (exists taken,
        ret = Z.of_nat (length taken) /\ written w' = written w ++ [taken]
        /\ (length taken <= length data)%nat).
Proof.
  revert w. induction fuel as [|fuel IH]; intros w; [discriminate|].
  cbn [write_retry].
  destruct (sys_write_cases data w)
    as [(e & rest & _ & ->)|(taken & w1 & -> & Hwr & _ & Hlen)].
  - cbn [Z.ltb Z.compare andb errno set_errno].
    destruct (e =? EINTR).
    + intros H. apply IH in H. cbn in H. exact H.
    + intros [= <- <-]. left. auto.
  - destruct (Z.ltb_spec (Z.of_nat (length taken)) 0); [lia|].
    cbn [andb]. intros [= <- <-]. right. eauto.
Qed.

Lemma sys_read_cases (len : Z) (w : world) :
  (incoming w = [] /\ sys_read len w = (0, [], w))
  \/ (exists e rest,
        incoming w = InErr e :: rest
        /\ sys_read len w = (-1, [], set_errno e (set_incoming rest w)))
  \/ (exists got w',
        sys_read len w = (Z.of_nat (length got), got, w')
        /\ (length got <= Z.to_nat len)%nat).
Proof.
  unfold sys_read. destruct (incoming w) as [|[data|e] rest] eqn:Ei.
  - left. auto.
  - right. right. eexists (take (Z.to_nat len) data), _.
    split; [reflexivity|]. rewrite length_take. lia.
  - right. left. exists e, rest. auto.
Qed.

Lemma read_retry_cases (fuel : nat) (len : Z) (w : world)
    (ret : Z) (data : list byte) (w' : world) :
  read_retry fuel len w = Some (ret, data, w') ->
  (ret = -1 /\ data = [])
  \/ (ret = Z.of_nat (length data) /\ (length data <= Z.to_nat len)%nat).
Proof.
  revert w. induction fuel as [|fuel IH]; intros w; [discriminate|].
  cbn [read_retry].
  destruct (sys_read_cases len w)
    as [[_ ->]|[(e & rest & _ & ->)|(got & w1 & -> & Hlen)]].
  - cbn [Z.ltb Z.compare andb]. intros [= <- <- <-]. right. cbn. lia.
  - cbn [Z.ltb Z.compare andb errno set_errno].
    destruct (e =? EINTR).
    + apply IH.
    + intros [= <- <- <-]. left. auto.
  - destruct (Z.ltb_spec (Z.of_nat (length got)) 0); [lia|].
    cbn [andb]. intros [= <- <- <-]. right. auto.
Qed.

(** ** The loops *)

Lemma safe_write_loop_result (fuel : nat) (buf : list byte) :
  forall (ptr end_ total len : Z) (w : world) (ret : Z) (w' : world),
    safe_write_loop fuel buf ptr end_ total len w = Some (ret, w') ->
    0 <= len -> ptr + len = end_ ->
    exists ws,
      written w' = written w ++ ws
      /\ (ret = -1
          \/ ret = total + len /\ Z.of_nat (length (concat ws)) = len).
Proof.
  induction fuel as [|fuel IH]; intros ptr end_ total len w ret w';
    [discriminate|].
  cbn [safe_write_loop]. intros Hrun Hlen Hend.
  destruct (Z.ltb_spec ptr end_) as [Hlt|Hge].
  - destruct (write_retry fuel (take (Z.to_nat len) buf) w)
      as [[r w1]|] eqn:Hw; [|discriminate].
    cbn [mbind option_bind] in Hrun.
    apply write_retry_cases in Hw.
    destruct Hw as [[-> Hwr]|(taken & -> & Hwr & Htaken)].
    + cbn in Hrun. injection Hrun as <- <-. exists [].
      rewrite app_nil_r. auto.
    + destruct (Z.ltb_spec (Z.of_nat (length taken)) 0); [lia|].
      rewrite length_take in Htaken.
      apply IH in Hrun; [|lia|lia].
      destruct Hrun as (ws & Hwr' & Hret).
      exists (taken :: ws). rewrite Hwr', Hwr, <- app_assoc.
      split; [reflexivity|].
      destruct Hret as [-> | [-> Hsum]]; [now left|right].
      cbn [concat]. rewrite length_app. lia.
  - injection Hrun as <- <-. exists []. rewrite app_nil_r.
    split; [reflexivity|right]. cbn. lia.
Qed.

Lemma safe_read_loop_result (fuel : nat) :
  forall (buf : list byte) (ptr end_ total len : Z) (w : world)
         (ret : Z) (buf' : list byte) (w' : world),
    safe_read_loop fuel buf ptr end_ total len w = Some (ret, buf', w') ->
    0 <= len -> ptr + len = end_ -> len <= Z.of_nat (length buf) ->
    length buf' = length buf /\ (ret = -1 \/ ret = total + len).
Proof.
  induction fuel as [|fuel IH]; intros buf ptr end_ total len w ret buf' w';
    [discriminate|].
  cbn [safe_read_loop]. intros Hrun Hlen Hend Hbuf.
  destruct (Z.ltb_spec ptr end_) as [Hlt|Hge].
  - destruct (read_retry fuel len w) as [[[r data] w1]|] eqn:Hr;
      [|discriminate].
    cbn [mbind option_bind] in Hrun.
    apply read_retry_cases in Hr.
    destruct Hr as [[-> ->] | [-> Hdata]].
    + cbn in Hrun. injection Hrun as <- <- <-. split; [|now left].
      unfold store. cbn. now rewrite drop_0.
    + destruct (Z.ltb_spec (Z.of_nat (length data)) 0); [lia|].
      assert (length (store data buf) = length buf) as Hst
        by (apply length_store; lia).
      apply IH in Hrun; [|lia|lia|lia].
      destruct Hrun as [Hl Hret]. split; [congruence|].
      destruct Hret as [-> | ->]; [now left|right; lia].
  - injection Hrun as <- <- <-. split; [reflexivity|right; lia].
Qed.

End transfer_facts.

(** X1. [safe_read] keeps asking until it has the whole length: when it
    returns, the result is the length asked for, or -1 from a [read] that
    failed. It never returns a short count, and the buffer keeps its
    size. *)
Theorem safe_read_whole_or_error
    (fuel : nat) (buf : list byte) (len : Z) (w : MemServer.world)
    (ret : Z) (buf' : list byte) (w' : MemServer.world) :
  0 <= len <= Z.of_nat (length buf) ->
  MemServer.safe_read fuel buf len w = Some (ret, buf', w') ->
  (ret = -1 \/ ret = len) /\ length buf' = length buf.
Proof.
  intros Hlen Hrun. unfold MemServer.safe_read in Hrun.
  apply safe_read_loop_result in Hrun; [|lia|lia|lia].
  destruct Hrun as [Hl Hret]. split; [lia|exact Hl].
Qed.

Lemma safe_read_whole_or_error_witness :
  (16 = -1 \/ 16 = 16)
  /\ length (encode_req {| memserver_req.addr := 4096; memserver_req.len := 3 |})
     = length MemServer.blank_req.
Proof.
  apply (safe_read_whole_or_error 5 MemServer.blank_req 16
           (MemServer.boot MemServer.two_pages 0
              [MemServer.InData
                 (take 5 (encode_req {| memserver_req.addr := 4096;
                                        memserver_req.len := 3 |}));
               MemServer.InErr MemServer.EINTR;
               MemServer.InData
                 (encode_req {| memserver_req.addr := 4096;
                                memserver_req.len := 3 |})])
           16 _
           (MemServer.set_errno MemServer.EINTR
              (MemServer.boot MemServer.two_pages 0
                 [MemServer.InData
                    (drop 11
                       (encode_req {| memserver_req.addr := 4096;
                                      memserver_req.len := 3 |}))])));
    [cbn; lia|vm_compute; reflexivity].
Defined.

(** X2. [safe_write] likewise: when it returns, either a [write] failed and
    the result is -1, or the result is the length asked for and the calls
    of [write] have taken that many bytes between them. *)
Theorem safe_write_whole_or_error
    (fuel : nat) (buf : list byte) (len : Z) (w : MemServer.world)
    (ret : Z) (w' : MemServer.world) :
  0 <= len ->
  MemServer.safe_write fuel buf len w = Some (ret, w') ->
  exists ws,
    MemServer.written w' = MemServer.written w ++ ws
    /\ (ret = -1 \/ ret = len /\ Z.of_nat (length (concat ws)) = len).
Proof.
  intros Hlen Hrun. unfold MemServer.safe_write in Hrun.
  apply safe_write_loop_result in Hrun; [|lia|lia].
  destruct Hrun as (ws & Hwr & Hret). exists ws. split; [exact Hwr|].
  destruct Hret as [-> | [-> Hsum]]; [now left|right; split; [lia|exact Hsum]].
Qed.

Lemma safe_write_whole_or_error_witness :
  exists ws,
    MemServer.written
      (MemServer.set_written [byte_of_Z <$> [1; 2]; byte_of_Z <$> [1; 2; 3]]
         (MemServer.boot MemServer.two_pages 0 []))
    = MemServer.written
        (MemServer.set_outgoing [MemServer.OutTake 2]
           (MemServer.boot MemServer.two_pages 0 []))
      ++ ws
    /\ (5 = -1 \/ 5 = 5 /\ Z.of_nat (length (concat ws)) = 5).
Proof.
  apply (safe_write_whole_or_error 5 (byte_of_Z <$> [1; 2; 3; 4; 5]) 5
           (MemServer.set_outgoing [MemServer.OutTake 2]
              (MemServer.boot MemServer.two_pages 0 [])));
    [lia|vm_compute; reflexivity].
Defined.

(** ** Interrupted calls *)

Section interrupts.
Import MemServer.

Lemma read_retry_interrupted (n : nat) :
  forall (k : nat) (len : Z) (rest : list in_event) (w : world),
    incoming w = replicate n (InErr EINTR) ++ rest ->
    exists w1,
      read_retry (n + k) len w = read_retry k len w1
      /\ incoming w1 = rest /\ outgoing w1 = outgoing w
      /\ written w1 = written w /\ mem w1 = mem w
      /\ closed w1 = closed w /\ dispositions w1 = dispositions w.
Proof.
  induction n as [|n IH]; intros k len rest w Hin.
  - exists w. cbn in Hin. auto 10.
  - cbn [replicate app] in Hin. cbn [Nat.add read_retry].
    unfold sys_read. rewrite Hin.
    cbn [Z.ltb Z.compare andb errno set_errno]. rewrite Z.eqb_refl.
    destruct (IH k len rest
                (set_errno EINTR
                   (set_incoming (replicate n (InErr EINTR) ++ rest) w)))
      as (w1 & -> & H); [reflexivity|].
    exists w1. split; [reflexivity|exact H].
Qed.

Lemma write_retry_interrupted (n : nat) :
  forall (k : nat) (data : list byte) (rest : list out_event) (w : world),
    outgoing w = replicate n (OutErr EINTR) ++ rest ->
    exists w1,
      write_retry (n + k) data w = write_retry k data w1
      /\ outgoing w1 = rest /\ incoming w1 = incoming w
      /\ written w1 = written w /\ mem w1 = mem w
      /\ closed w1 = closed w /\ dispositions w1 = dispositions w.
Proof.
  induction n as [|n IH]; intros k data rest w Hout.
  - exists w. cbn in Hout. auto 10.
  - cbn [replicate app] in Hout. cbn [Nat.add write_retry].
    unfold sys_write. rewrite Hout.
    cbn [Z.ltb Z.compare andb errno set_errno]. rewrite Z.eqb_refl.
    destruct (IH k data rest
                (set_errno EINTR
                   (set_outgoing (replicate n (OutErr EINTR) ++ rest) w)))
      as (w1 & -> & H); [reflexivity|].
    exists w1. split; [reflexivity|exact H].
Qed.

Lemma write_retry_take (fuel : nat) (data : list byte) (n : nat)
    (rest : list out_event) (w : world) :
  outgoing w = OutTake n :: rest -> (1 <= fuel)%nat ->
  write_retry fuel data w
  = Some (Z.of_nat (length (take n data)),
          set_written (written w ++ [take n data]) (set_outgoing rest w)).
Proof.
  intros Hout Hf. destruct fuel as [|fuel]; [lia|].
  cbn [write_retry]. unfold sys_write. rewrite Hout.
  destruct (Z.ltb_spec (Z.of_nat (length (take n data))) 0); [lia|].
  reflexivity.
Qed.

End interrupts.

(** X3. A [read] that fails with [EINTR] is repeated: however often the
    call is interrupted before the message arrives, [safe_read] returns the
    whole message, and nothing but [errno] shows the interruptions. *)
Theorem safe_read_retries_interrupts
    (n fuel : nat) (buf data : list byte) (len : Z)
    (rest : list MemServer.in_event) (w : MemServer.world) :
  MemServer.incoming w
  = replicate n (MemServer.InErr MemServer.EINTR)
    ++ MemServer.InData data :: rest ->
  0 < len -> Z.of_nat (length data) = len -> Z.of_nat (length buf) = len ->
  (n + 3 <= fuel)%nat ->
  exists w',
    MemServer.safe_read fuel buf len w = Some (len, data, w')
    /\ MemServer.incoming w' = rest
    /\ MemServer.outgoing w' = MemServer.outgoing w
    /\ MemServer.written w' = MemServer.written w.
Proof.
  intros Hin Hlen Hdata Hbuf Hfuel.
  destruct fuel as [|fuel]; [lia|].
  unfold MemServer.safe_read. cbn [MemServer.safe_read_loop].
  destruct (Z.ltb_spec 0 len); [|lia].
  replace fuel with (n + (fuel - n))%nat by lia.
  destruct (read_retry_interrupted n (fuel - n) len _ w Hin)
    as (w1 & -> & Hin1 & Hout1 & Hwr1 & _).
  rewrite (read_retry_data _ len data rest w1 Hin1) by lia.
  cbn [mbind option_bind]. rewrite Hdata.
  destruct (Z.ltb_spec len 0); [lia|].
  destruct (n + (fuel - n))%nat as [|fuel'] eqn:Ef; [lia|].
  cbn [MemServer.safe_read_loop].
  destruct (Z.ltb_spec (0 + len) len); [lia|].
  exists (MemServer.set_incoming rest w1).
  split; [|cbn; auto].
  unfold MemServer.store. rewrite drop_ge by lia. now rewrite app_nil_r.
Qed.

Lemma safe_read_retries_interrupts_witness :
  exists w',
    MemServer.safe_read 5 MemServer.blank_req 16
      (MemServer.boot MemServer.two_pages 0
         [MemServer.InErr MemServer.EINTR; MemServer.InErr MemServer.EINTR;
          MemServer.request 4096 3; MemServer.request 8192 1])
    = Some (16,
            encode_req {| memserver_req.addr := 4096; memserver_req.len := 3 |},
            w')
    /\ MemServer.incoming w' = [MemServer.request 8192 1]
    /\ MemServer.outgoing w' = []
    /\ MemServer.written w' = [].
Proof.
  apply (safe_read_retries_interrupts 2 5 MemServer.blank_req
           (encode_req {| memserver_req.addr := 4096; memserver_req.len := 3 |})
           16 [MemServer.request 8192 1]
           (MemServer.boot MemServer.two_pages 0
              [MemServer.InErr MemServer.EINTR; MemServer.InErr MemServer.EINTR;
               MemServer.request 4096 3; MemServer.request 8192 1]));
    [reflexivity|lia|reflexivity|reflexivity|lia].
Defined.

(** X4. So is a [write] that fails with [EINTR]: after any number of
    interruptions the bytes go out once, whole. *)
Theorem safe_write_retries_interrupts
    (n fuel : nat) (buf : list byte) (len : Z)
    (w : MemServer.world) :
  MemServer.outgoing w = replicate n (MemServer.OutErr MemServer.EINTR) ->
  0 < len <= Z.of_nat (length buf) -> (n + 3 <= fuel)%nat ->
  exists w',
    MemServer.safe_write fuel buf len w = Some (len, w')
    /\ MemServer.written w'
       = MemServer.written w ++ [take (Z.to_nat len) buf]
    /\ MemServer.outgoing w' = []
    /\ MemServer.incoming w' = MemServer.incoming w.
Proof.
  intros Hout Hlen Hfuel.
  destruct fuel as [|fuel]; [lia|].
  unfold MemServer.safe_write. cbn [MemServer.safe_write_loop].
  destruct (Z.ltb_spec 0 len); [|lia].
  replace fuel with (n + (fuel - n))%nat by lia.
  destruct (write_retry_interrupted n (fuel - n)
              (take (Z.to_nat len) buf) [] w)
    as (w1 & -> & Hout1 & Hin1 & Hwr1 & _); [now rewrite app_nil_r|].
  rewrite write_retry_all by (auto; lia).
  cbn [mbind option_bind]. rewrite length_take_le by lia.
  rewrite Z2Nat.id by lia.
  destruct (Z.ltb_spec len 0); [lia|].
  destruct (n + (fuel - n))%nat as [|fuel'] eqn:Ef; [lia|].
  cbn [MemServer.safe_write_loop].
  destruct (Z.ltb_spec (0 + len) len); [lia|].
  eexists. split; [reflexivity|]. cbn. rewrite Hwr1. auto.
Qed.

Lemma safe_write_retries_interrupts_witness :
  exists w',
    MemServer.safe_write 4 (byte_of_Z <$> [1; 2; 3]) 3
      (MemServer.set_outgoing [MemServer.OutErr MemServer.EINTR]
         (MemServer.boot MemServer.two_pages 0 []))
    = Some (3, w')
    /\ MemServer.written w' = [] ++ [take 3 (byte_of_Z <$> [1; 2; 3])]
    /\ MemServer.outgoing w' = []
    /\ MemServer.incoming w' = [].
Proof.
  apply (safe_write_retries_interrupts 1 4 (byte_of_Z <$> [1; 2; 3]) 3
           (MemServer.set_outgoing [MemServer.OutErr MemServer.EINTR]
              (MemServer.boot MemServer.two_pages 0 [])));
    [reflexivity|cbn; lia|lia].
Defined.

(** ** Transfers in pieces *)

(** X5. When [write] takes only the first [k] bytes, the next call is given
    the start of the buffer again with the shortened length: what goes out
    is the first [k] bytes followed by the first [len - k] bytes, and the
    bytes past [max k (len - k)] are never sent, although the result is
    [len]. *)
Theorem safe_write_resends_from_start
    (k fuel : nat) (buf : list byte) (len : Z) (w : MemServer.world) :
  MemServer.outgoing w = [MemServer.OutTake k] ->
  0 < Z.of_nat k < len -> len <= Z.of_nat (length buf) -> (4 <= fuel)%nat ->
  exists w',
    MemServer.safe_write fuel buf len w = Some (len, w')
    /\ MemServer.written w'
       = MemServer.written w ++ [take k buf; take (Z.to_nat len - k) buf].
Proof.
  intros Hout Hk Hlen Hfuel.
  destruct fuel as [|[|[|[|fuel]]]]; try lia.
  unfold MemServer.safe_write. cbn [MemServer.safe_write_loop].
  destruct (Z.ltb_spec 0 len); [|lia].
  rewrite (write_retry_take _ _ k [] w Hout) by lia.
  rewrite take_take. replace (k `min` Z.to_nat len)%nat with k by lia.
  rewrite length_take_le by lia.
  cbn [mbind option_bind].
  destruct (Z.ltb_spec (Z.of_nat k) 0); [lia|].
  destruct (Z.ltb_spec (0 + Z.of_nat k) len); [|lia].
  rewrite write_retry_all by (auto; lia).
  cbn [mbind option_bind].
  rewrite length_take_le by lia.
  destruct (Z.ltb_spec (Z.of_nat (Z.to_nat (len - Z.of_nat k))) 0); [lia|].
  destruct (Z.ltb_spec (0 + Z.of_nat k + Z.of_nat (Z.to_nat (len - Z.of_nat k)))
              len); [lia|].
  eexists. split; [f_equal; f_equal; lia|].
  cbn [MemServer.written MemServer.set_written MemServer.set_outgoing].
  replace (Z.to_nat (len - Z.of_nat k)) with (Z.to_nat len - k)%nat by lia.
  now rewrite <- app_assoc.
Qed.

Lemma safe_write_resends_from_start_witness :
  exists w',
    MemServer.safe_write 4 (byte_of_Z <$> [1; 2; 3; 4; 5]) 5
      (MemServer.set_outgoing [MemServer.OutTake 2]
         (MemServer.boot MemServer.two_pages 0 []))
    = Some (5, w')
    /\ MemServer.written w'
       = [] ++ [byte_of_Z <$> [1; 2]; byte_of_Z <$> [1; 2; 3]].
Proof.
  refine (safe_write_resends_from_start 2 4 (byte_of_Z <$> [1; 2; 3; 4; 5]) 5
            (MemServer.set_outgoing [MemServer.OutTake 2]
               (MemServer.boot MemServer.two_pages 0 [])) _ _ _ _);
    [reflexivity|lia|cbn; lia|lia].
Defined.

(** The two reads, step by step. *)
Lemma safe_read_overwrites_first_piece_eq
    (fuel : nat) (buf d1 d2 : list byte) (len : Z)
    (rest : list MemServer.in_event) (w : MemServer.world) :
  MemServer.incoming w = MemServer.InData d1 :: MemServer.InData d2 :: rest ->
  d1 <> [] -> d2 <> [] ->
  Z.of_nat (length d1 + length d2) = len -> Z.of_nat (length buf) = len ->
  (4 <= fuel)%nat ->
  MemServer.safe_read fuel buf len w
  = Some (len, d2 ++ drop (length d2) (d1 ++ drop (length d1) buf),
          MemServer.set_incoming rest w).
Proof.
  intros Hin H1 H2 Hlen Hbuf Hfuel.
  assert (0 < length d1)%nat by (destruct d1; [congruence|cbn; lia]).
  assert (0 < length d2)%nat by (destruct d2; [congruence|cbn; lia]).
  destruct fuel as [|[|[|[|fuel]]]]; try lia.
  unfold MemServer.safe_read. cbn [MemServer.safe_read_loop].
  destruct (Z.ltb_spec 0 len); [|lia].
  rewrite (read_retry_data _ len d1 (MemServer.InData d2 :: rest) w Hin)
    by lia.
  cbn [mbind option_bind].
  destruct (Z.ltb_spec (Z.of_nat (length d1)) 0); [lia|].
  destruct (Z.ltb_spec (0 + Z.of_nat (length d1)) len); [|lia].
  rewrite (read_retry_data _ _ d2 rest); [|reflexivity|lia|lia].
  cbn [mbind option_bind].
  destruct (Z.ltb_spec (Z.of_nat (length d2)) 0); [lia|].
  destruct (Z.ltb_spec (0 + Z.of_nat (length d1) + Z.of_nat (length d2)) len);
    [lia|].
  unfold MemServer.store.
  replace (0 + Z.of_nat (length d1) + Z.of_nat (length d2)) with len by lia.
  reflexivity.
Qed.

(** X6. When a message arrives in two pieces, each [read] stores at the
    start of the buffer: the second piece lies over the first, and the
    result is still the full length. *)
Theorem safe_read_overwrites_first_piece
    (fuel : nat) (buf d1 d2 : list byte) (len : Z)
    (rest : list MemServer.in_event) (w : MemServer.world) :
  MemServer.incoming w = MemServer.InData d1 :: MemServer.InData d2 :: rest ->
  d1 <> [] -> d2 <> [] ->
  Z.of_nat (length d1 + length d2) = len -> Z.of_nat (length buf) = len ->
  (4 <= fuel)%nat ->
  MemServer.safe_read fuel buf len w
  = Some (len, d2 ++ drop (length d2) (d1 ++ drop (length d1) buf),
          MemServer.set_incoming rest w).
Proof.
  apply safe_read_overwrites_first_piece_eq.
Qed.

Lemma safe_read_overwrites_first_piece_witness :
  MemServer.safe_read 4 MemServer.blank_req 16
    (MemServer.boot MemServer.two_pages 0
       [MemServer.InData (le_bytes 8 4096); MemServer.InData (le_bytes 8 3)])
  = Some (16,
          le_bytes 8 3
          ++ drop (length (le_bytes 8 3))
               (le_bytes 8 4096
                ++ drop (length (le_bytes 8 4096)) MemServer.blank_req),
          MemServer.set_incoming []
            (MemServer.boot MemServer.two_pages 0
               [MemServer.InData (le_bytes 8 4096);
                MemServer.InData (le_bytes 8 3)])).
Proof.
  apply (safe_read_overwrites_first_piece 4 MemServer.blank_req
           (le_bytes 8 4096) (le_bytes 8 3) 16 []);
    [reflexivity|discriminate|discriminate|reflexivity|reflexivity|lia].
Defined.

(** * The memory server as a whole *)

Section follows_facts.
Import MemServer.

Lemma follows_refl (w : world) : follows w w.
Proof. unfold follows. auto 10. Qed.

Lemma follows_trans (w1 w2 w3 : world) :
  follows w1 w2 -> follows w2 w3 -> follows w1 w3.
Proof.
  unfold follows.
  intros (A1 & A2 & A3 & A4 & A5 & A6 & A7 & A8)
         (B1 & B2 & B3 & B4 & B5 & B6 & B7 & B8).
  repeat split; try congruence; [by etrans|auto|auto].
Qed.

Lemma sys_read_follows (len : Z) (w : world) :
  let '(ret, data, w1) := sys_read len w in
  follows w w1
  /\ (0 <= ret
      \/ ret = -1 /\ InErr (errno w1) ∈ incoming w
         /\ forall e, InErr e ∈ incoming w1 -> InErr e ∈ incoming w).
Proof.
  unfold sys_read. destruct (incoming w) as [|[data|e] rest] eqn:Ei.
  - split; [apply follows_refl|left; lia].
  - split; [|left; lia].
    unfold follows. cbn. rewrite Ei. repeat split; auto.
    intros e. destruct (drop (Z.to_nat len) data);
      [ intros ?; apply elem_of_cons; auto
      | rewrite !elem_of_cons; intros [?|?]; [discriminate|auto] ].
  - split.
    + unfold follows. cbn. rewrite Ei. repeat split; auto. set_solver.
    + right. cbn. set_solver.
Qed.

Lemma read_retry_follows (fuel : nat) (len : Z) :
  forall (w : world) (ret : Z) (data : list byte) (w' : world),
    read_retry fuel len w = Some (ret, data, w') ->
    follows w w'
    /\ (0 <= ret \/ ret = -1 /\ exists e, e <> EINTR /\ InErr e ∈ incoming w).
Proof.
  induction fuel as [|fuel IH]; intros w ret data w'; [discriminate|].
  cbn [read_retry]. pose proof (sys_read_follows len w) as H.
  destruct (sys_read len w) as [[r d] w1]. destruct H as [Hf Hr].
  destruct (Z.ltb_spec r 0) as [Hneg|Hpos]; cbn [andb].
  - destruct Hr as [|(-> & He & Hsub)]; [lia|].
    destruct (Z.eqb_spec (errno w1) EINTR) as [Heq|Hne].
    + intros Hrun. apply IH in Hrun. destruct Hrun as [Hf' Hr'].
      split; [by eapply follows_trans|].
      destruct Hr' as [|(-> & e & Hne & Hin)]; [now left|right].
      split; [reflexivity|]. exists e. auto.
    + intros [= <- <- <-]. split; [exact Hf|right].
      split; [reflexivity|]. eauto.
  - intros [= <- <- <-]. split; [exact Hf|now left].
Qed.

Lemma safe_read_loop_follows (fuel : nat) :
  forall (buf : list byte) (ptr end_ total len : Z) (w : world)
         (ret : Z) (buf' : list byte) (w' : world),
    safe_read_loop fuel buf ptr end_ total len w = Some (ret, buf', w') ->
    0 <= len -> ptr + len = end_ ->
    follows w w'
    /\ (ret = total + len
        \/ ret = -1 /\ exists e, e <> EINTR /\ InErr e ∈ incoming w).
Proof.
  induction fuel as [|fuel IH]; intros buf ptr end_ total len w ret buf' w';
    [discriminate|].
  cbn [safe_read_loop]. intros Hrun Hlen Hend.
  destruct (Z.ltb_spec ptr end_) as [Hlt|Hge].
  - destruct (read_retry fuel len w) as [[[r data] w1]|] eqn:Hr;
      [|discriminate].
    cbn [mbind option_bind] in Hrun.
    pose proof (read_retry_cases _ _ _ _ _ _ Hr) as Hc.
    apply read_retry_follows in Hr. destruct Hr as [Hf Herr].
    destruct (Z.ltb_spec r 0) as [Hneg|Hpos].
    + injection Hrun as <- <- <-. split; [exact Hf|right].
      destruct Herr as [|[-> He]]; [lia|auto].
    + destruct Hc as [[-> _] | [-> Hdata]]; [lia|].
      apply IH in Hrun; [|lia|lia]. destruct Hrun as [Hf' Hret].
      split; [by eapply follows_trans|].
      destruct Hret as [-> | (-> & e & Hne & Hin)]; [left; lia|right].
      split; [reflexivity|]. exists e. split; [exact Hne|].
      destruct Hf as (_ & _ & _ & _ & _ & _ & Hsub & _). auto.
  - injection Hrun as <- <- <-. split; [apply follows_refl|left; lia].
Qed.

Lemma sys_write_follows (data : list byte) (w : world) :
  let '(ret, w1) := sys_write data w in
  follows w w1
  /\ (0 <= ret <= Z.of_nat (length data)
      \/ ret = -1 /\ OutErr (errno w1) ∈ outgoing w).
Proof.
  unfold sys_write. destruct (outgoing w) as [|[n|e] rest] eqn:Eo.
  - split; [|left; lia].
    unfold follows. cbn. rewrite Eo. repeat split; auto.
    by apply prefix_app_r.
  - split; [|left; rewrite length_take; lia].
    unfold follows. cbn. rewrite Eo. repeat split; auto.
    + by apply prefix_app_r.
    + set_solver.
  - split.
    + unfold follows. cbn. rewrite Eo. repeat split; auto. set_solver.
    + right. cbn. set_solver.
Qed.

Lemma write_retry_follows (fuel : nat) (data : list byte) :
  forall (w : world) (ret : Z) (w' : world),
    write_retry fuel data w = Some (ret, w') ->
    follows w w'
    /\ (0 <= ret <= Z.of_nat (length data)
        \/ ret = -1 /\ exists e, e <> EINTR /\ OutErr e ∈ outgoing w).
Proof.
  induction fuel as [|fuel IH]; intros w ret w'; [discriminate|].
  cbn [write_retry]. pose proof (sys_write_follows data w) as H.
  destruct (sys_write data w) as [r w1]. destruct H as [Hf Hr].
  destruct (Z.ltb_spec r 0) as [Hneg|Hpos]; cbn [andb].
  - destruct Hr as [|(-> & He)]; [lia|].
    destruct (Z.eqb_spec (errno w1) EINTR) as [Heq|Hne].
    + intros Hrun. apply IH in Hrun. destruct Hrun as [Hf' Hr'].
      split; [by eapply follows_trans|].
      destruct Hr' as [|(-> & e & Hne & Hin)]; [now left|right].
      split; [reflexivity|]. exists e. split; [exact Hne|].
      destruct Hf as (_ & _ & _ & _ & _ & _ & _ & Hsub). auto.
    + intros [= <- <-]. split; [exact Hf|right].
      split; [reflexivity|]. eauto.
  - intros [= <- <-]. split; [exact Hf|left]. lia.
Qed.

Lemma safe_write_loop_follows (fuel : nat) (buf : list byte) :
  forall (ptr end_ total len : Z) (w : world) (ret : Z) (w' : world),
    safe_write_loop fuel buf ptr end_ total len w = Some (ret, w') ->
    0 <= len -> ptr + len = end_ ->
    follows w w'
    /\ (ret = total + len
        \/ ret = -1 /\ exists e, e <> EINTR /\ OutErr e ∈ outgoing w).
Proof.
  induction fuel as [|fuel IH]; intros ptr end_ total len w ret w';
    [discriminate|].
  cbn [safe_write_loop]. intros Hrun Hlen Hend.
  destruct (Z.ltb_spec ptr end_) as [Hlt|Hge].
  - destruct (write_retry fuel (take (Z.to_nat len) buf) w)
      as [[r w1]|] eqn:Hw; [|discriminate].
    cbn [mbind option_bind] in Hrun.
    apply write_retry_follows in Hw. destruct Hw as [Hf Herr].
    rewrite length_take in Herr.
    destruct (Z.ltb_spec r 0) as [Hneg|Hpos].
    + injection Hrun as <- <-. split; [exact Hf|right].
      destruct Herr as [|[-> He]]; [lia|auto].
    + destruct Herr as [Hr|[-> _]]; [|lia].
      apply IH in Hrun; [|lia|lia]. destruct Hrun as [Hf' Hret].
      split; [by eapply follows_trans|].
      destruct Hret as [-> | (-> & e & Hne & Hin)]; [left; lia|right].
      split; [reflexivity|]. exists e. split; [exact Hne|].
      destruct Hf as (_ & _ & _ & _ & _ & _ & _ & Hsub). auto.
  - injection Hrun as <- <-. split; [apply follows_refl|left; lia].
Qed.

Lemma memserver_read_follows (from len : Z) (w : world) :
  0 <= len ->
  let '(ret, w1) := memserver_read from len w in
  follows w w1 /\ (ret = -1 \/ 0 <= ret).
Proof.
  intros Hlen. unfold memserver_read.
  destruct (memserver_has_ptrace w), (fetch (mem w) from (Z.to_nat len));
    try destruct (readable_prefix (mem w) from (Z.to_nat len));
    (split; [unfold follows; cbn; auto 10|lia]).
Qed.

Lemma serve_follows (fuel : nat) :
  forall (addr bytes : Z) (w : world) (s : served) (w' : world),
    serve fuel addr bytes w = Some (s, w') -> 0 <= bytes ->
    follows w w'
    /\ (s = Failed -> exists e, e <> EINTR /\ OutErr e ∈ outgoing w).
Proof.
  induction fuel as [|fuel IH]; intros addr bytes w s w'; [discriminate|].
  cbn [serve]. intros Hrun Hb.
  destruct (Z.eqb_spec bytes 0) as [->|Hne].
  { injection Hrun as <- <-. split; [apply follows_refl|discriminate]. }
  set (todo := if bytes <? 4096 then bytes else 4096) in Hrun.
  assert (0 <= todo) as Htodo by (subst todo; destruct (bytes <? 4096); lia).
  pose proof (memserver_read_follows addr todo w Htodo) as Hread.
  destruct (memserver_read addr todo w) as [r w1]. destruct Hread as [Hf1 Hr].
  cbn [memserver_resp.len] in Hrun.
  destruct (safe_write fuel _ 16 w1) as [[r2 w2]|] eqn:Hw2; [|discriminate].
  cbn [mbind option_bind] in Hrun.
  apply safe_write_loop_follows in Hw2; [|lia|lia]. destruct Hw2 as [Hf2 Hr2].
  assert (forall e, OutErr e ∈ outgoing w1 -> OutErr e ∈ outgoing w) as Hsub1
    by (destruct Hf1 as (_ & _ & _ & _ & _ & _ & _ & H); exact H).
  assert (forall e, OutErr e ∈ outgoing w2 -> OutErr e ∈ outgoing w1) as Hsub2
    by (destruct Hf2 as (_ & _ & _ & _ & _ & _ & _ & H); exact H).
  destruct (Z.eqb_spec r2 16) as [->|Hne2]; cbn [negb] in Hrun.
  2:{ injection Hrun as <- <-.
      split; [eapply follows_trans; eassumption|]. intros _.
      destruct Hr2 as [|(_ & e & He & Hin)]; [lia|]. exists e. auto 10. }
  destruct (Z.ltb_spec r 0) as [Hneg|Hpos].
  { injection Hrun as <- <-.
    split; [eapply follows_trans; eassumption|discriminate]. }
  destruct (safe_write fuel _ r w2) as [[r3 w3]|] eqn:Hw3; [|discriminate].
  cbn [mbind option_bind] in Hrun.
  apply safe_write_loop_follows in Hw3; [|lia|lia]. destruct Hw3 as [Hf3 Hr3].
  assert (forall e, OutErr e ∈ outgoing w3 -> OutErr e ∈ outgoing w2) as Hsub3
    by (destruct Hf3 as (_ & _ & _ & _ & _ & _ & _ & H); exact H).
  assert (follows w w3) as Hf
    by (eapply follows_trans; [|exact Hf3]; eapply follows_trans; eassumption).
  destruct (Z.eqb_spec r3 r) as [->|Hne3]; cbn [negb] in Hrun.
  2:{ injection Hrun as <- <-. split; [exact Hf|]. intros _.
      destruct Hr3 as [|(_ & e & He & Hin)]; [lia|]. exists e. auto 10. }
  apply IH in Hrun; [|unfold wrap64; apply Z.mod_pos_bound; lia].
  destruct Hrun as [Hf4 Hfail]. split; [by eapply follows_trans|].
  intros Hs. destruct (Hfail Hs) as (e & He & Hin). exists e. auto 10.
Qed.

Lemma le_value_nonneg (bs : list byte) : 0 <= le_value bs.
Proof.
  induction bs as [|b bs IH]; cbn [le_value]; [lia|].
  pose proof (Z_of_byte_range b). lia.
Qed.


Lemma serve_requests_follows (fuel : nat) :
  forall (req : list byte) (w : world) (result : Z) (w' : world),
    serve_requests fuel req w = Some (result, w') ->
    follows w w'
    /\ (result = 0 /\ (exists e, e <> EINTR /\ InErr e ∈ incoming w)
        \/ result = 1 /\ (exists e, e <> EINTR /\ OutErr e ∈ outgoing w)).
Proof.
  induction fuel as [|fuel IH]; intros req w result w'; [discriminate|].
  cbn [serve_requests]. intros Hrun.
  destruct (safe_read fuel req 16 w) as [[[r req1] w1]|] eqn:Hr;
    [|discriminate].
  cbn [mbind option_bind] in Hrun.
  apply safe_read_loop_follows in Hr; [|lia|lia]. destruct Hr as [Hf1 Hr].
  assert (forall e, InErr e ∈ incoming w1 -> InErr e ∈ incoming w) as Hin1
    by (destruct Hf1 as (_ & _ & _ & _ & _ & _ & H & _); exact H).
  assert (forall e, OutErr e ∈ outgoing w1 -> OutErr e ∈ outgoing w) as Hout1
    by (destruct Hf1 as (_ & _ & _ & _ & _ & _ & _ & H); exact H).
  destruct (Z.eqb_spec r 16) as [->|Hne]; cbn [negb] in Hrun.
  2:{ injection Hrun as <- <-. split; [exact Hf1|left].
      split; [reflexivity|]. destruct Hr as [|(_ & e & He & Hin)]; [lia|].
      exists e. auto 10. }
  destruct (serve fuel _ _ w1) as [[s w2]|] eqn:Hs; [|discriminate].
  cbn [mbind option_bind] in Hrun.
  apply serve_follows in Hs; [|apply le_value_nonneg].
  destruct Hs as [Hf2 Hfail].
  assert (forall e, InErr e ∈ incoming w2 -> InErr e ∈ incoming w1) as Hin2
    by (destruct Hf2 as (_ & _ & _ & _ & _ & _ & H & _); exact H).
  assert (forall e, OutErr e ∈ outgoing w2 -> OutErr e ∈ outgoing w1) as Hout2
    by (destruct Hf2 as (_ & _ & _ & _ & _ & _ & _ & H); exact H).
  assert (follows w w2) as Hf by (eapply follows_trans; eassumption).
  destruct s.
  - apply IH in Hrun. destruct Hrun as [Hf3 Hres].
    split; [by eapply follows_trans|].
    destruct Hres as [(-> & e & He & Hin)|(-> & e & He & Hin)];
      [left|right]; (split; [reflexivity|]; exists e; auto 10).
  - injection Hrun as <- <-. split; [exact Hf|right].
    split; [reflexivity|]. destruct (Hfail eq_refl) as (e & He & Hin). exists e. auto 10.
Qed.

End follows_facts.

(** X7. The server leaves its loop only on an error of the channel other
    than [EINTR]: it returns 0 after a [read] has failed and 1 after a
    [write] has failed, and in both cases it has closed its descriptor. *)
Theorem memserver_returns_only_on_error
    (fuel : nat) (req : list byte) (w : MemServer.world)
    (result : Z) (w' : MemServer.world) :
  MemServer.memserver_entry fuel req w = Some (result, w') ->
  MemServer.closed w' = true
  /\ (result = 0
      /\ (exists e, e <> MemServer.EINTR
                    /\ MemServer.InErr e ∈ MemServer.incoming w)
      \/ result = 1
         /\ (exists e, e <> MemServer.EINTR
                       /\ MemServer.OutErr e ∈ MemServer.outgoing w)).
Proof.
  unfold MemServer.memserver_entry. intros Hrun.
  destruct (MemServer.serve_requests fuel req (MemServer.probe w))
    as [[r w1]|] eqn:Hs; [|discriminate].
  cbn in Hrun. injection Hrun as <- <-. split; [reflexivity|].
  apply serve_requests_follows in Hs. destruct Hs as [_ Hres].
  destruct (probe_channel w) as (Hin & Hout & _).
  now rewrite Hin, Hout in Hres.
Qed.

Lemma memserver_returns_only_on_error_witness :
  exists w',
    MemServer.closed w' = true
    /\ (1 = 0
        /\ (exists e, e <> MemServer.EINTR
                      /\ MemServer.InErr e ∈ [MemServer.request 4096 1])
        \/ 1 = 1
           /\ (exists e, e <> MemServer.EINTR
                         /\ MemServer.OutErr e
                            ∈ [MemServer.OutErr MemServer.EPIPE])).
Proof.
  eexists.
  apply (memserver_returns_only_on_error 20 MemServer.blank_req
           (MemServer.set_outgoing [MemServer.OutErr MemServer.EPIPE]
              (MemServer.boot MemServer.two_pages 0 [MemServer.request 4096 1]))).
  vm_compute. reflexivity.
Defined.

(** X8. The server does not restore the handlers it installs. When it
    returns after having started without the capability, [SIGSEGV] and
    [SIGBUS] still have its fault handler and every other signal has what
    it had; with the capability no handler has changed. *)
Theorem memserver_keeps_fault_handlers
    (fuel : nat) (req : list byte) (w : MemServer.world)
    (result : Z) (w' : MemServer.world) :
  MemServer.memserver_entry fuel req w = Some (result, w') ->
  MemServer.dispositions w'
  = if MemServer.capbset w =? 0
    then <[SIGBUS := memserver_fault_handler]>
           (<[SIGSEGV := memserver_fault_handler]> (MemServer.dispositions w))
    else MemServer.dispositions w.
Proof.
  unfold MemServer.memserver_entry. intros Hrun.
  destruct (MemServer.serve_requests fuel req (MemServer.probe w))
    as [[r w1]|] eqn:Hs; [|discriminate].
  cbn in Hrun. injection Hrun as <- <-.
  apply serve_requests_follows in Hs.
  destruct Hs as [(_ & _ & Hd & _) _]. cbn. rewrite Hd.
  unfold MemServer.probe. cbn. now destruct (MemServer.capbset w =? 0).
Qed.

Lemma memserver_keeps_fault_handlers_witness :
  exists w',
    MemServer.dispositions w'
    = if MemServer.capbset
           (MemServer.boot MemServer.two_pages 0
              [MemServer.request 4096 1; MemServer.InErr MemServer.ECONNRESET])
         =? 0
      then <[SIGBUS := memserver_fault_handler]>
             (<[SIGSEGV := memserver_fault_handler]>
                (MemServer.dispositions
                   (MemServer.boot MemServer.two_pages 0
                      [MemServer.request 4096 1;
                       MemServer.InErr MemServer.ECONNRESET])))
      else MemServer.dispositions
             (MemServer.boot MemServer.two_pages 0
                [MemServer.request 4096 1; MemServer.InErr MemServer.ECONNRESET]).
Proof.
  eexists.
  apply (memserver_keeps_fault_handlers 20 MemServer.blank_req
           (MemServer.boot MemServer.two_pages 0
              [MemServer.request 4096 1; MemServer.InErr MemServer.ECONNRESET])
           0).
  vm_compute. reflexivity.
Defined.

(** ** A whole session *)

(** X9. A session of any number of requests: the server answers them in
    the order in which they come, each as if it were alone, and when the
    channel then fails it returns 0 with its descriptor closed. What it has
    written is the answers one after the other, with nothing between
    them. *)
Theorem memserver_serves_session
    (requests : list (Z * Z)) (e : Z) (m fuel : nat) (req : list byte)
    (w : MemServer.world) :
  Forall (fun r : Z * Z =>
            0 <= r.1 < 2 ^ 64 /\ 0 <= r.2 < 2 ^ 64 /\ (Z.to_nat r.2 <= m)%nat)
    requests ->
  MemServer.incoming w = MemServer.session requests e ->
  e <> MemServer.EINTR -> MemServer.clear w -> length req = 16%nat ->
  (m + length requests + 6 <= fuel)%nat ->
  exists (answer : list (list MemServer.frame)) (w' : MemServer.world),
    MemServer.memserver_entry fuel req w = Some (0, w')
    /\ MemServer.closed w' = true
    /\ MemServer.written w'
       = MemServer.written w ++ concat (MemServer.frames_writes <$> answer)
    /\ Forall2 (MemServer.answers (MemServer.mem w)) requests answer.
Proof.
  intros Hrange Hin He Hclear Hreq Hfuel.
  destruct (entry_session requests e m fuel req w Hrange Hin He Hclear Hreq Hfuel)
    as (answer & w' & Hrun & Hclosed & Hwritten & Hall).
  exists answer, w'. split; [exact Hrun|]. split; [exact Hclosed|].
  split; [exact Hwritten|].
  eapply Forall2_impl; [exact Hall|]. intros r frames. apply framed_answers.
Qed.

Lemma memserver_serves_session_witness :
  exists (answer : list (list MemServer.frame)) (w' : MemServer.world),
    MemServer.memserver_entry 20 MemServer.blank_req
      (MemServer.boot MemServer.two_pages 0
         (MemServer.session [(4096, 2); (0, 0); (8192, 3)] MemServer.EPIPE))
    = Some (0, w')
    /\ MemServer.closed w' = true
    /\ MemServer.written w'
       = [] ++ concat (MemServer.frames_writes <$> answer)
    /\ Forall2 (MemServer.answers MemServer.two_pages)
         [(4096, 2); (0, 0); (8192, 3)] answer.
Proof.
  refine (memserver_serves_session [(4096, 2); (0, 0); (8192, 3)]
            MemServer.EPIPE 3 20 MemServer.blank_req
            (MemServer.boot MemServer.two_pages 0
               (MemServer.session [(4096, 2); (0, 0); (8192, 3)]
                  MemServer.EPIPE)) _ _ _ _ _ _);
    [ repeat constructor; cbn; lia | reflexivity | discriminate
    | split; reflexivity | reflexivity | cbn; lia ].
Defined.

(** ** Unreadable memory *)

Section fault_facts.
Import MemServer.






End fault_facts.





(** ** A write that fails *)

Section write_error.
Import MemServer.

Lemma safe_write_error (fuel : nat) (buf : list byte) (len e : Z)
    (rest : list out_event) (w : world) :
  outgoing w = OutErr e :: rest -> e <> EINTR -> 0 < len -> (2 <= fuel)%nat ->
  safe_write fuel buf len w = Some (-1, set_errno e (set_outgoing rest w)).
Proof.
  intros Hout He Hlen Hfuel. destruct fuel as [|[|fuel]]; try lia.
  unfold safe_write. cbn [safe_write_loop write_retry].
  destruct (Z.ltb_spec 0 len); [|lia].
  unfold sys_write. rewrite Hout.
  cbn [Z.ltb Z.compare andb errno set_errno].
  destruct (Z.eqb_spec e EINTR); [contradiction|]. reflexivity.
Qed.

Lemma memserver_read_keeps (from len : Z) (w : world) :
  let w' := (memserver_read from len w).2 in
  incoming w' = incoming w /\ outgoing w' = outgoing w
  /\ written w' = written w /\ closed w' = closed w.
Proof.
  unfold memserver_read.
  destruct (memserver_has_ptrace w), (fetch (mem w) from (Z.to_nat len));
    try destruct (readable_prefix (mem w) from (Z.to_nat len));
    cbn; auto.
Qed.

End write_error.

(** X22. When the first [write] of an answer fails with an error other
    than [EINTR], the server gives up: it returns 1, it has closed its
    descriptor, nothing has been written, and [errno] is that of the
    failed call. *)
Theorem memserver_write_error_ends_session
    (addr len e : Z) (req : list byte) (rest : list MemServer.in_event)
    (later : list MemServer.out_event) (w : MemServer.world) (fuel : nat) :
  0 <= addr < 2 ^ 64 -> 0 < len < 2 ^ 64 ->
  MemServer.incoming w = MemServer.request addr len :: rest ->
  MemServer.outgoing w = MemServer.OutErr e :: later ->
  e <> MemServer.EINTR -> length req = 16%nat -> (5 <= fuel)%nat ->
  exists w',
    MemServer.memserver_entry fuel req w = Some (1, w')
    /\ MemServer.closed w' = true
    /\ MemServer.written w' = MemServer.written w
    /\ MemServer.incoming w' = rest
    /\ MemServer.outgoing w' = later
    /\ MemServer.errno w' = e.
Proof.
  intros Ha Hl Hin Hout He Hreq Hfuel.
  destruct (probe_channel w) as (Hin0 & Hout0 & Hwr0 & _).
  unfold MemServer.memserver_entry.
  destruct fuel as [|[|fuel]]; try lia.
  cbn [MemServer.serve_requests].
  rewrite (safe_read_whole (S fuel) req
             (encode_req {| memserver_req.addr := addr;
                            memserver_req.len := len |})
             rest (MemServer.probe w));
    [|rewrite Hin0; exact Hin|apply length_encode_req|assumption|lia].
  cbn [mbind option_bind]. rewrite Z.eqb_refl. cbn [negb].
  rewrite decode_encode_req by (cbn; lia).
  cbn [memserver_req.addr memserver_req.len MemServer.serve].
  destruct (Z.eqb_spec len 0); [lia|].
  set (todo := if len <? 4096 then len else 4096).
  set (w1 := MemServer.set_incoming rest (MemServer.probe w)).
  pose proof (memserver_read_keeps addr todo w1) as Hkeep.
  destruct (MemServer.memserver_read addr todo w1) as [r w2].
  cbn [snd] in Hkeep. destruct Hkeep as (Hin2 & Hout2 & Hwr2 & Hcl2).
  rewrite (safe_write_error fuel _ 16 e later w2);
    [|subst w1; cbn in Hout2; congruence|assumption|lia|lia].
  cbn [mbind option_bind Z.eqb negb].
  eexists. split; [reflexivity|]. cbn.
  rewrite Hwr2, Hin2. subst w1. cbn. auto.
Qed.

Lemma memserver_write_error_ends_session_witness :
  exists w',
    MemServer.memserver_entry 5 MemServer.blank_req
      (MemServer.set_outgoing [MemServer.OutErr MemServer.EPIPE]
         (MemServer.boot MemServer.two_pages 0 [MemServer.request 4096 1]))
    = Some (1, w')
    /\ MemServer.closed w' = true
    /\ MemServer.written w' = []
    /\ MemServer.incoming w' = []
    /\ MemServer.outgoing w' = []
    /\ MemServer.errno w' = MemServer.EPIPE.
Proof.
  apply (memserver_write_error_ends_session 4096 1 MemServer.EPIPE
           MemServer.blank_req [] []
           (MemServer.set_outgoing [MemServer.OutErr MemServer.EPIPE]
              (MemServer.boot MemServer.two_pages 0 [MemServer.request 4096 1]))
           5);
    [lia|lia|reflexivity|reflexivity|discriminate|reflexivity|lia].
Defined.

(** ** A request that arrives in two halves *)



(** * Installing the crash handler *)

Section install_facts.
Import Install.

Variable SIGSTKSZ : Z.
Variable sigfillset : gset Z.
Variable k : kernel.

Lemma action_set_action (p : process) (signum s : Z) (sa : sigaction_t) :
  action (set_action signum sa p) s
  = if bool_decide (s = signum) then sa else action p s.
Proof.
  unfold action, set_action. cbn [actions].
  destruct (bool_decide_reflect (s = signum)) as [->|Hne].
  - now rewrite lookup_insert_eq.
  - now rewrite lookup_insert_ne by congruence.
Qed.

(** The loop changes nothing but actions, and [errno] when it fails. *)
Lemma install_handlers_frame (sa : sigaction_t) (signals : list Z) :
  forall p : process,
    let p' := (install_handlers k sa signals p).2 in
    altstack p' = altstack p /\ mappings p' = mappings p
    /\ forall s,
         s ∉ signals \/ is_SIG_DFL (sa_handler (action p s)) = false ->
         action p' s = action p s.
Proof.
  induction signals as [|signum signals IH]; intros p; cbn [install_handlers].
  { cbn. auto. }
  destruct (sigaction_query k signum); [cbn; auto|].
  destruct (is_SIG_DFL (sa_handler (action p signum))) eqn:Hdfl.
  - destruct (sigaction_install k signum); [cbn; auto|].
    destruct (IH (set_action signum sa p)) as (Hs & Hm & Ha).
    split; [exact Hs|]. split; [exact Hm|]. intros s Hkeep.
    assert (s <> signum) as Hne.
    { intros ->. destruct Hkeep as [Hnot|Hnd]; [|congruence].
      apply Hnot. left. }
    rewrite Ha.
    + rewrite action_set_action.
      now destruct (bool_decide_reflect (s = signum)).
    + rewrite action_set_action.
      destruct (bool_decide_reflect (s = signum)); [contradiction|].
      destruct Hkeep as [Hnot|Hnd]; [left|right; exact Hnd].
      intros Hin. apply Hnot. now right.
  - destruct (IH p) as (Hs & Hm & Ha).
    split; [exact Hs|]. split; [exact Hm|]. intros s Hkeep.
    apply Ha. destruct Hkeep as [Hnot|Hnd]; [left|right; exact Hnd].
    intros Hin. apply Hnot. now right.
Qed.

(** The loop when no call fails. *)
Lemma install_handlers_done (sa : sigaction_t) (signals : list Z) :
  (forall s, s ∈ signals ->
             sigaction_query k s = None /\ sigaction_install k s = None) ->
  forall p : process,
    exists p',
      install_handlers k sa signals p = (0, p')
      /\ errno p' = errno p
      /\ forall s,
           action p' s
           = if bool_decide (s ∈ signals)
                && is_SIG_DFL (sa_handler (action p s))
             then sa else action p s.
Proof.
  induction signals as [|signum signals IH]; intros Hk p;
    cbn [install_handlers].
  { exists p. split; [reflexivity|]. split; [reflexivity|]. intros s.
    rewrite bool_decide_eq_false_2 by apply not_elem_of_nil. reflexivity. }
  destruct (Hk signum) as [-> Hinst]; [left|].
  assert (forall s, s ∈ signals ->
                    sigaction_query k s = None /\ sigaction_install k s = None)
    as Hk' by (intros s Hs; apply Hk; now right).
  destruct (is_SIG_DFL (sa_handler (action p signum))) eqn:Hdfl.
  - rewrite Hinst.
    destruct (IH Hk' (set_action signum sa p)) as (p' & -> & He & Ha).
    exists p'. split; [reflexivity|]. split; [exact He|]. intros s.
    rewrite Ha, action_set_action.
    destruct (bool_decide_reflect (s = signum)) as [->|Hne].
    + rewrite Hdfl, (bool_decide_eq_true_2 (signum ∈ signum :: signals))
        by left.
      cbn [andb]. now destruct (_ && _).
    + rewrite (bool_decide_ext (s ∈ signum :: signals) (s ∈ signals));
        [reflexivity|].
      rewrite elem_of_cons. tauto.
  - destruct (IH Hk' p) as (p' & -> & He & Ha).
    exists p'. split; [reflexivity|]. split; [exact He|]. intros s.
    rewrite Ha.
    destruct (bool_decide_reflect (s = signum)) as [->|Hne].
    + rewrite Hdfl, !andb_false_r. reflexivity.
    + rewrite (bool_decide_ext (s ∈ signum :: signals) (s ∈ signals));
        [reflexivity|].
      rewrite elem_of_cons. tauto.
Qed.

(** The loop up to the first call that fails. *)
Lemma install_handlers_app (sa : sigaction_t) (before after : list Z) :
  (forall s, s ∈ before ->
             sigaction_query k s = None /\ sigaction_install k s = None) ->
  forall p : process,
    install_handlers k sa (before ++ after) p
    = install_handlers k sa after (install_handlers k sa before p).2.
Proof.
  induction before as [|signum before IH]; intros Hk p; [reflexivity|].
  cbn [app install_handlers].
  destruct (Hk signum) as [-> Hinst]; [left|].
  assert (forall s, s ∈ before ->
                    sigaction_query k s = None /\ sigaction_install k s = None)
    as Hk' by (intros s Hs; apply Hk; now right).
  destruct (is_SIG_DFL (sa_handler (action p signum))).
  - rewrite Hinst. now apply IH.
  - now apply IH.
Qed.

Lemma elem_of_sigdelsets (signals : list Z) (mask : gset Z) (s : Z) :
  s ∈ foldl sigdelset mask signals <-> s ∈ mask /\ s ∉ signals.
Proof.
  revert mask. induction signals as [|x signals IH]; intros mask; cbn [foldl].
  - split; [intros H; split; [exact H|apply not_elem_of_nil]|tauto].
  - rewrite IH, not_elem_of_cons. unfold sigdelset.
    rewrite elem_of_difference, elem_of_singleton. tauto.
Qed.

(** The loop over signals that all have a handler already. *)
Lemma install_handlers_noop (sa : sigaction_t) (signals : list Z) (p : process) :
  (forall s, s ∈ signals -> sigaction_query k s = None) ->
  (forall s, s ∈ signals -> is_SIG_DFL (sa_handler (action p s)) = false) ->
  install_handlers k sa signals p = (0, p).
Proof.
  induction signals as [|signum signals IH]; intros Hk Hset; [reflexivity|].
  cbn [install_handlers]. rewrite Hk, Hset by left.
  apply IH; intros s Hs; [apply Hk|apply Hset]; now right.
Qed.

(** The loop when the call for [failing] is the first that fails. *)
Lemma install_handlers_stop (sa : sigaction_t) (before after : list Z)
    (failing e : Z) (p : process) :
  failing ∉ before ->
  (forall s, s ∈ before ->
             sigaction_query k s = None /\ sigaction_install k s = None) ->
  sigaction_query k failing = Some e
  \/ sigaction_query k failing = None
     /\ sa_handler (action p failing) = SIG_DFL
     /\ sigaction_install k failing = Some e ->
  exists p',
    install_handlers k sa (before ++ failing :: after) p = (e, p')
    /\ errno p' = e
    /\ altstack p' = altstack p /\ mappings p' = mappings p
    /\ (forall s,
          s ∈ before -> sa_handler (action p s) = SIG_DFL ->
          action p' s = sa)
    /\ (forall s, s ∉ before -> action p' s = action p s).
Proof.
  intros Hfresh Hk Hfail.
  rewrite install_handlers_app by exact Hk.
  pose proof (install_handlers_frame sa before p) as Hframe.
  destruct (install_handlers_done sa before Hk p) as (p1 & Hrun & He & Ha).
  rewrite Hrun in Hframe |- *. cbv zeta in Hframe.
  cbn [snd install_handlers] in Hframe |- *.
  destruct Hframe as (Hstack & Hmap & _).
  assert (action p1 failing = action p failing) as Hsame.
  { rewrite Ha, bool_decide_eq_false_2 by exact Hfresh. reflexivity. }
  exists (set_errno e p1). split.
  { cbv zeta. rewrite Hsame.
    destruct Hfail as [->|(-> & -> & ->)]; reflexivity. }
  split; [reflexivity|]. split; [exact Hstack|]. split; [exact Hmap|].
  split.
  - intros s Hin Hdfl. change (action (set_errno e p1) s) with (action p1 s).
    rewrite Ha, bool_decide_eq_true_2, Hdfl by exact Hin. reflexivity.
  - intros s Hnot. change (action (set_errno e p1) s) with (action p1 s).
    rewrite Ha, bool_decide_eq_false_2 by exact Hnot. reflexivity.
Qed.

End install_facts.

(** X12. When no call fails, the function returns 0 and leaves [errno]
    alone; every fatal signal that had the default action now has the
    crash handler, to run on the alternate stack with the flags
    [SA_ONSTACK | SA_SIGINFO | SA_NODEFER] and with every signal blocked
    but the fatal ones; every other action is as it was; and a thread that
    had no alternate stack has one of [SIGSTKSZ + 16384] bytes in a new
    mapping. *)
Theorem installCrashHandler_installs
    (SIGSTKSZ : Z) (sigfillset : gset Z) (k : Install.kernel)
    (p : Install.process) (sp : Z) :
  Install.sigaltstack_query k = None ->
  Install.mmap k (SIGSTKSZ + 16384) = inl sp ->
  Install.sigaltstack_install k
    {| Install.ss_sp := sp; Install.ss_flags := 0;
       Install.ss_size := SIGSTKSZ + 16384 |} = None ->
  (forall s, s ∈ signalsToHandle ->
             Install.sigaction_query k s = None
             /\ Install.sigaction_install k s = None) ->
  exists p',
    Install._swift_installCrashHandler SIGSTKSZ sigfillset k p = (0, p')
    /\ Install.errno p' = Install.errno p
    /\ (forall s,
          Install.action p' s
          = if bool_decide (s ∈ signalsToHandle)
               && Install.is_SIG_DFL (Install.sa_handler (Install.action p s))
            then Install.crash_action sigfillset
            else Install.action p s)
    /\ (forall s,
          s ∈ Install.sa_mask (Install.crash_action sigfillset)
          <-> s ∈ sigfillset /\ s ∉ signalsToHandle)
    /\ Install.sa_handler (Install.crash_action sigfillset)
       = handle_fatal_signal_handler
    /\ (if Install.ss_sp (Install.altstack p) =? 0
        then Install.altstack p'
             = {| Install.ss_sp := sp; Install.ss_flags := 0;
                  Install.ss_size := SIGSTKSZ + 16384 |}
             /\ Install.mappings p'
                = (sp, SIGSTKSZ + 16384) :: Install.mappings p
        else Install.altstack p' = Install.altstack p
             /\ Install.mappings p' = Install.mappings p).
Proof.
  intros Hq Hmap Hset Hk. unfold Install._swift_installCrashHandler.
  rewrite Hq.
  destruct (Install.ss_sp (Install.altstack p) =? 0).
  - rewrite Hmap, Hset.
    set (p1 := Install.set_altstack _ _).
    destruct (install_handlers_done k (Install.crash_action sigfillset)
                signalsToHandle Hk p1) as (p' & Hrun & He & Ha).
    pose proof (install_handlers_frame k (Install.crash_action sigfillset)
                  signalsToHandle p1) as Hfr.
    rewrite Hrun in Hfr. cbn [snd] in Hfr. destruct Hfr as (Hs & Hm & _).
    exists p'. split; [exact Hrun|]. split; [exact He|].
    split; [exact Ha|]. split; [apply elem_of_sigdelsets|].
    split; [reflexivity|]. split; [exact Hs|exact Hm].
  - destruct (install_handlers_done k (Install.crash_action sigfillset)
                signalsToHandle Hk p) as (p' & Hrun & He & Ha).
    pose proof (install_handlers_frame k (Install.crash_action sigfillset)
                  signalsToHandle p) as Hfr.
    rewrite Hrun in Hfr. cbn [snd] in Hfr. destruct Hfr as (Hs & Hm & _).
    exists p'. split; [exact Hrun|]. split; [exact He|].
    split; [exact Ha|]. split; [apply elem_of_sigdelsets|].
    split; [reflexivity|]. split; [exact Hs|exact Hm].
Qed.

Lemma installCrashHandler_installs_witness :
  exists p',
    Install._swift_installCrashHandler 8192 (list_to_set (seqZ 1 64))
      (Install.obliging 139637976727552) Install.fresh = (0, p')
    /\ Install.errno p' = Install.errno Install.fresh
    /\ (forall s,
          Install.action p' s
          = if bool_decide (s ∈ signalsToHandle)
               && Install.is_SIG_DFL
                    (Install.sa_handler (Install.action Install.fresh s))
            then Install.crash_action (list_to_set (seqZ 1 64))
            else Install.action Install.fresh s)
    /\ (forall s,
          s ∈ Install.sa_mask
                (Install.crash_action (list_to_set (seqZ 1 64)))
          <-> s ∈ (list_to_set (seqZ 1 64) : gset Z) /\ s ∉ signalsToHandle)
    /\ Install.sa_handler (Install.crash_action (list_to_set (seqZ 1 64)))
       = handle_fatal_signal_handler
    /\ (if Install.ss_sp (Install.altstack Install.fresh) =? 0
        then Install.altstack p'
             = {| Install.ss_sp := 139637976727552; Install.ss_flags := 0;
                  Install.ss_size := 8192 + 16384 |}
             /\ Install.mappings p'
                = (139637976727552, 8192 + 16384)
                  :: Install.mappings Install.fresh
        else Install.altstack p' = Install.altstack Install.fresh
             /\ Install.mappings p' = Install.mappings Install.fresh).
Proof.
  apply (installCrashHandler_installs 8192 (list_to_set (seqZ 1 64))
           (Install.obliging 139637976727552) Install.fresh 139637976727552);
    [reflexivity|reflexivity|reflexivity|intros s _; split; reflexivity].
Defined.

(** X13. Whether it succeeds or fails, the function replaces no action
    that is not the default one, touches no signal outside
    [signalsToHandle], and leaves an alternate stack that exists as it
    is, without mapping anything. *)
Theorem installCrashHandler_keeps_existing
    (SIGSTKSZ : Z) (sigfillset : gset Z) (k : Install.kernel)
    (p : Install.process) :
  let p' := (Install._swift_installCrashHandler SIGSTKSZ sigfillset k p).2 in
  (forall s,
     s ∉ signalsToHandle
     \/ Install.sa_handler (Install.action p s) <> SIG_DFL ->
     Install.action p' s = Install.action p s)
  /\ (Install.ss_sp (Install.altstack p) <> 0 ->
      Install.altstack p' = Install.altstack p
      /\ Install.mappings p' = Install.mappings p).
Proof.
  assert (forall s,
            s ∉ signalsToHandle
            \/ Install.sa_handler (Install.action p s) <> SIG_DFL ->
            s ∉ signalsToHandle
            \/ Install.is_SIG_DFL (Install.sa_handler (Install.action p s))
               = false) as Hkeep.
  { intros s [H|H]; [now left|right].
    destruct (Install.sa_handler (Install.action p s));
      [congruence|reflexivity..]. }
  unfold Install._swift_installCrashHandler.
  destruct (Install.sigaltstack_query k); [cbn; auto|].
  destruct (Z.eqb_spec (Install.ss_sp (Install.altstack p)) 0) as [Hz|Hnz].
  - destruct (Install.mmap k _) as [sp|e]; [|cbn; split; [auto|tauto]].
    destruct (Install.sigaltstack_install k _);
      [cbn; split; [auto|tauto]|].
    set (p1 := Install.set_altstack _ _).
    destruct (install_handlers_frame k (Install.crash_action sigfillset)
                signalsToHandle p1) as (_ & _ & Ha).
    cbv zeta. split; [|tauto]. intros s Hs. apply (Ha s (Hkeep s Hs)).
  - destruct (install_handlers_frame k (Install.crash_action sigfillset)
                signalsToHandle p) as (Hs & Hm & Ha).
    cbv zeta. split; [|auto]. intros s Hks. apply (Ha s (Hkeep s Hks)).
Qed.

(** X14. A call of [sigaction] that fails ends the function at once with
    the value of [errno], and nothing is undone. The handlers installed for
    the signals before it stay, and the signals from it on keep what they
    had. A process that had no alternate stack keeps the mapping and the
    stack that the call has just made for it; one that had a stack keeps
    that stack, and nothing is mapped. *)
Theorem installCrashHandler_stops_at_failure
    (SIGSTKSZ : Z) (sigfillset : gset Z) (k : Install.kernel)
    (p : Install.process) (before after : list Z) (failing e sp : Z) :
  signalsToHandle = before ++ failing :: after ->
  Install.sigaltstack_query k = None ->
  (Install.ss_sp (Install.altstack p) = 0 ->
   Install.mmap k (SIGSTKSZ + 16384) = inl sp
   /\ Install.sigaltstack_install k
        {| Install.ss_sp := sp; Install.ss_flags := 0;
           Install.ss_size := SIGSTKSZ + 16384 |} = None) ->
  (forall s, s ∈ before ->
             Install.sigaction_query k s = None
             /\ Install.sigaction_install k s = None) ->
  Install.sigaction_query k failing = Some e
  \/ Install.sigaction_query k failing = None
     /\ Install.sa_handler (Install.action p failing) = SIG_DFL
     /\ Install.sigaction_install k failing = Some e ->
  exists p',
    Install._swift_installCrashHandler SIGSTKSZ sigfillset k p = (e, p')
    /\ Install.errno p' = e
    /\ (if Install.ss_sp (Install.altstack p) =? 0
        then Install.altstack p'
             = {| Install.ss_sp := sp; Install.ss_flags := 0;
                  Install.ss_size := SIGSTKSZ + 16384 |}
             /\ Install.mappings p'
                = (sp, SIGSTKSZ + 16384) :: Install.mappings p
        else Install.altstack p' = Install.altstack p
             /\ Install.mappings p' = Install.mappings p)
    /\ (forall s,
          s ∈ before ->
          Install.sa_handler (Install.action p s) = SIG_DFL ->
          Install.action p' s = Install.crash_action sigfillset)
    /\ (forall s, s ∉ before -> Install.action p' s = Install.action p s).
Proof.
  intros Hsplit Hq Hstack Hk Hfail.
  assert (NoDup (before ++ failing :: after)) as Hnd
    by (rewrite <- Hsplit; apply (bool_decide_unpack _); vm_compute;
        exact I).
  assert (failing ∉ before) as Hfresh.
  { apply NoDup_app in Hnd as (_ & Hdisj & _). intros Hin.
    apply (Hdisj _ Hin). left. }
  unfold Install._swift_installCrashHandler. rewrite Hq, Hsplit.
  destruct (Z.eqb_spec (Install.ss_sp (Install.altstack p)) 0) as [Hnone|_].
  - destruct (Hstack Hnone) as [-> Hinstall]. cbv zeta. rewrite Hinstall.
    destruct (install_handlers_stop k (Install.crash_action sigfillset)
                before after failing e
                (Install.set_altstack
                   {| Install.ss_sp := sp; Install.ss_flags := 0;
                      Install.ss_size := SIGSTKSZ + 16384 |}
                   (Install.add_mapping sp (SIGSTKSZ + 16384) p))
                Hfresh Hk Hfail)
      as (p' & Hrun & He & Hs & Hm & Hb & Ha).
    exists p'. split; [exact Hrun|]. split; [exact He|].
    split; [split; [exact Hs|exact Hm]|]. split; [exact Hb|exact Ha].
  - destruct (install_handlers_stop k (Install.crash_action sigfillset)
                before after failing e p Hfresh Hk Hfail)
      as (p' & Hrun & He & Hs & Hm & Hb & Ha).
    exists p'. split; [exact Hrun|]. split; [exact He|].
    split; [split; [exact Hs|exact Hm]|]. split; [exact Hb|exact Ha].
Qed.

Lemma installCrashHandler_stops_at_failure_witness :
  exists p',
    Install._swift_installCrashHandler 8192 (list_to_set (seqZ 1 64))
      {| Install.sigaltstack_query := None;
         Install.mmap := fun _ => inl 1048576;
         Install.sigaltstack_install := fun _ => None;
         Install.sigaction_query := fun _ => None;
         Install.sigaction_install :=
           fun s => if s =? SIGFPE then Some 22 else None |}
      Install.fresh
    = (22, p')
    /\ Install.errno p' = 22
    /\ (if Install.ss_sp (Install.altstack Install.fresh) =? 0
        then Install.altstack p'
             = {| Install.ss_sp := 1048576; Install.ss_flags := 0;
                  Install.ss_size := 8192 + 16384 |}
             /\ Install.mappings p'
                = (1048576, 8192 + 16384) :: Install.mappings Install.fresh
        else Install.altstack p' = Install.altstack Install.fresh
             /\ Install.mappings p' = Install.mappings Install.fresh)
    /\ (forall s,
          s ∈ [SIGQUIT; SIGABRT; SIGBUS] ->
          Install.sa_handler (Install.action Install.fresh s) = SIG_DFL ->
          Install.action p' s
          = Install.crash_action (list_to_set (seqZ 1 64)))
    /\ (forall s,
          s ∉ [SIGQUIT; SIGABRT; SIGBUS] ->
          Install.action p' s = Install.action Install.fresh s).
Proof.
  apply (installCrashHandler_stops_at_failure 8192 (list_to_set (seqZ 1 64))
           _ _ [SIGQUIT; SIGABRT; SIGBUS] [SIGILL; SIGSEGV; SIGTRAP] SIGFPE 22
           1048576);
    [ reflexivity | reflexivity | intros _; split; reflexivity
    | intros s Hs; split; [reflexivity|];
      repeat (apply elem_of_cons in Hs as [->|Hs]; [reflexivity|]);
      now apply elem_of_nil in Hs
    | right; split; [reflexivity|split; reflexivity] ].
Defined.

(** X15. A second call after one that succeeded changes nothing and
    succeeds: the alternate stack and the handlers are found in place. *)
Theorem installCrashHandler_twice
    (SIGSTKSZ : Z) (sigfillset : gset Z) (k : Install.kernel)
    (p : Install.process) (sp : Z) :
  Install.sigaltstack_query k = None ->
  Install.mmap k (SIGSTKSZ + 16384) = inl sp -> sp <> 0 ->
  Install.sigaltstack_install k
    {| Install.ss_sp := sp; Install.ss_flags := 0;
       Install.ss_size := SIGSTKSZ + 16384 |} = None ->
  (forall s, s ∈ signalsToHandle ->
             Install.sigaction_query k s = None
             /\ Install.sigaction_install k s = None) ->
  let p' := (Install._swift_installCrashHandler SIGSTKSZ sigfillset k p).2 in
  Install._swift_installCrashHandler SIGSTKSZ sigfillset k p' = (0, p').
Proof.
  intros Hq Hmap Hsp Hset Hk.
  assert (forall p1 : Install.process,
            Install.ss_sp (Install.altstack p1) <> 0 ->
            let p' := (Install.install_handlers k
                         (Install.crash_action sigfillset) signalsToHandle
                         p1).2 in
            Install._swift_installCrashHandler SIGSTKSZ sigfillset k p'
            = (0, p')) as Hloop.
  { intros p1 Hstack.
    destruct (install_handlers_done k (Install.crash_action sigfillset)
                signalsToHandle Hk p1) as (p' & Hrun & _ & Ha).
    pose proof (install_handlers_frame k (Install.crash_action sigfillset)
                  signalsToHandle p1) as Hfr.
    rewrite Hrun in Hfr |- *. cbn [snd] in Hfr |- *.
    destruct Hfr as (Hs & _ & _).
    unfold Install._swift_installCrashHandler. rewrite Hq, Hs.
    destruct (Z.eqb_spec (Install.ss_sp (Install.altstack p1)) 0);
      [contradiction|].
    apply install_handlers_noop; [intros s Hin; now apply Hk|].
    intros s Hin. rewrite Ha, bool_decide_eq_true_2 by exact Hin.
    cbn [andb].
    now destruct (Install.is_SIG_DFL
                    (Install.sa_handler (Install.action p1 s))) eqn:Hd. }
  assert (exists p1,
            Install.ss_sp (Install.altstack p1) <> 0
            /\ Install._swift_installCrashHandler SIGSTKSZ sigfillset k p
               = Install.install_handlers k (Install.crash_action sigfillset)
                   signalsToHandle p1) as (p1 & Hstack & Hfirst).
  { unfold Install._swift_installCrashHandler. rewrite Hq.
    destruct (Z.eqb_spec (Install.ss_sp (Install.altstack p)) 0) as [Hz|Hnz].
    - rewrite Hmap, Hset. eexists. split; [|reflexivity]. exact Hsp.
    - exists p. split; [exact Hnz|reflexivity]. }
  rewrite Hfirst. apply Hloop. exact Hstack.
Qed.

Lemma installCrashHandler_twice_witness :
  Install._swift_installCrashHandler 8192 (list_to_set (seqZ 1 64))
    (Install.obliging 139637976727552)
    (Install._swift_installCrashHandler 8192 (list_to_set (seqZ 1 64))
       (Install.obliging 139637976727552) Install.fresh).2
  = (0,
     (Install._swift_installCrashHandler 8192 (list_to_set (seqZ 1 64))
        (Install.obliging 139637976727552) Install.fresh).2).
Proof.
  apply (installCrashHandler_twice 8192 (list_to_set (seqZ 1 64))
           (Install.obliging 139637976727552) Install.fresh 139637976727552);
    [ reflexivity | reflexivity | discriminate | reflexivity
    | intros s _; split; reflexivity ].
Defined.

(** * The state that the fatal-signal handler passes on *)

(** Unfolding of the handler into the calls of its callees. *)
Ltac handler_steps :=
  cbv beta iota zeta delta
    [Handler.handle_fatal_signal mbind Handler.handler_bind mret
     Handler.handler_ret Handler.call Handler.reset_signals
     Handler.reset_signal Handler.store_crashInfo Handler.set_errno
     Handler.get_errno signalsToHandle app].

Section handler_state.
Import Handler.

(** The first loop of the handler, as one step. *)
Lemma reset_signals_run (signals : list Z) (p : process) :
  reset_signals signals p
  = (ResetSignal <$> signals,
     Some (tt, {| errno := errno p;
                  dispositions :=
                    foldl (fun d s => <[s := SIG_DFL]> d) (dispositions p)
                      signals;
                  crashInfo := crashInfo p |})).
Proof.
  revert p. induction signals as [|s signals IH]; intros p.
  - now destruct p.
  - cbn [reset_signals]. unfold mbind, handler_bind, reset_signal at 1.
    rewrite IH. reflexivity.
Qed.

Lemma lookup_reset (signals : list Z) (d : gmap Z handler) (s : Z) :
  foldl (fun d s => <[s := SIG_DFL]> d) d signals !! s
  = if bool_decide (s ∈ signals) then Some SIG_DFL else d !! s.
Proof.
  revert d. induction signals as [|x signals IH]; intros d; cbn [foldl].
  - now rewrite bool_decide_eq_false_2 by apply not_elem_of_nil.
  - rewrite IH. destruct (bool_decide_reflect (s ∈ signals)) as [Hin|Hnot].
    + now rewrite bool_decide_eq_true_2 by now right.
    + destruct (decide (s = x)) as [->|Hne].
      * rewrite lookup_insert_eq.
        now rewrite bool_decide_eq_true_2 by left.
      * rewrite lookup_insert_ne by congruence.
        rewrite bool_decide_eq_false_2; [reflexivity|].
        rewrite elem_of_cons. tauto.
Qed.

Lemma ready_after_reset (c : CrashInfo) (e : Z) (d : gmap Z handler) :
  ready c {| errno := e;
             dispositions :=
               foldl (fun d s => <[s := SIG_DFL]> d) d signalsToHandle;
             crashInfo := c |} = true.
Proof.
  unfold ready. cbn [dispositions crashInfo].
  rewrite bool_decide_eq_true_2 by reflexivity. rewrite andb_true_r.
  apply forallb_forall. intros s Hs. apply bool_decide_eq_true_2.
  rewrite lookup_reset, bool_decide_eq_true_2; [reflexivity|].
  now apply list_elem_of_In.
Qed.

End handler_state.

Section handler_extras.
Import Handler.

Variable suspend : Registry.thread -> process -> option (unit * process).
Variable memserver : process -> option (Z * process).
Variable backtracer : Z -> process -> option (bool * process).
Variable resume : process -> option (unit * process).
Variable gettid : Z.

(** X16. The memory server is started only in a state where every fatal
    signal has its default action and [crashInfo] holds the crashing
    thread, the signal and the fault address: a server that would not
    return from any other state makes no difference to the handler,
    whatever the suspension of the threads did to the state before. *)
Theorem memserver_started_when_ready (signum si_addr uctx : Z) (p : process) :
  handle_fatal_signal suspend
    (only_when
       (ready {| crashing_thread := gettid; signal := signum;
                 fault_address := si_addr |})
       memserver)
    backtracer resume gettid signum si_addr uctx p
  = handle_fatal_signal suspend memserver backtracer resume gettid
      signum si_addr uctx p.
Proof.
  unfold only_when. handler_steps.
  destruct (suspend _ p) as [[[] p1]|]; [|reflexivity].
  cbn [errno dispositions crashInfo Registry.tid fst snd].
  pose proof (ready_after_reset
                {| crashing_thread := gettid; signal := signum;
                   fault_address := si_addr |}
                (errno p1) (dispositions p1)) as Hready.
  cbv beta iota delta [foldl signalsToHandle] in Hready.
  rewrite Hready. reflexivity.
Qed.

(** X17. When the handler returns, every fatal signal has its default
    action, although the memory server and the backtracer may have
    installed handlers for [SIGSEGV] and [SIGBUS] in between: the two
    resets after the backtracer undo that, provided that those two callees
    touch the handlers of no other signal and that resuming the threads
    touches none. *)
Theorem handle_fatal_signal_leaves_defaults
    (signum si_addr uctx : Z) (p : process) (result : unit * process) :
  touches_fault_handlers_only memserver ->
  (forall fd, touches_fault_handlers_only (backtracer fd)) ->
  keeps_handlers resume ->
  (handle_fatal_signal suspend memserver backtracer resume gettid
     signum si_addr uctx p).2 = Some result ->
  forall s, s ∈ signalsToHandle -> dispositions result.2 !! s = Some SIG_DFL.
Proof.
  intros Hmem Hbt Hres Hrun s Hs.
  revert Hrun. handler_steps.
  destruct (suspend _ p) as [[[] p1]|]; [|discriminate].
  cbn [errno dispositions crashInfo Registry.tid fst snd].
  destruct (memserver _) as [[fd p2]|] eqn:E2; [|discriminate].
  destruct (backtracer fd p2) as [[ok p3]|] eqn:E3; [|discriminate].
  cbn [errno dispositions crashInfo fst snd].
  destruct (resume _) as [[[] p4]|] eqn:E4; [|discriminate].
  cbn [snd]. intros Hrun. injection Hrun as <-.
  cbn [snd dispositions].
  rewrite (Hres _ _ _ E4). cbn [dispositions].
  destruct (decide (s = SIGBUS)) as [->|Hbus];
    [now rewrite lookup_insert_eq|].
  rewrite lookup_insert_ne by congruence.
  destruct (decide (s = SIGSEGV)) as [->|Hsegv];
    [now rewrite lookup_insert_eq|].
  rewrite lookup_insert_ne by congruence.
  rewrite (Hbt fd _ _ _ E3 s Hsegv Hbus), (Hmem _ _ _ E2 s Hsegv Hbus).
  cbn [dispositions].
  pose proof (lookup_reset signalsToHandle (dispositions p1) s) as Hl.
  rewrite bool_decide_eq_true_2 in Hl by exact Hs.
  cbv beta iota delta [foldl signalsToHandle] in Hl. exact Hl.
Qed.

End handler_extras.

Lemma handle_fatal_signal_leaves_defaults_witness :
  Forall
    (fun s =>
       Handler.dispositions
         (tt, {| Handler.errno := 7;
                 Handler.dispositions :=
                   <[SIGBUS := SIG_DFL]>
                     (<[SIGSEGV := SIG_DFL]>
                        (<[SIGSEGV := memserver_fault_handler]>
                           (foldl (fun d s => <[s := SIG_DFL]> d) ∅
                              signalsToHandle)));
                 Handler.crashInfo :=
                   {| Handler.crashing_thread := 100;
                      Handler.signal := SIGSEGV;
                      Handler.fault_address := 4096 |} |}).2 !! s
       = Some SIG_DFL)
    signalsToHandle.
Proof.
  apply Forall_forall.
  apply (handle_fatal_signal_leaves_defaults
           (fun _ p => Some (tt, p))
           (fun p => Some (5, Handler.sample_clobber p))
           (fun _ p => Some (true, p))
           (fun p => Some (tt, p))
           100 SIGSEGV 4096 0 Handler.sample_process).
  - intros p a p' [= <- <-] s Hsegv _. cbn.
    now rewrite lookup_insert_ne by congruence.
  - intros fd p a p' [= <- <-] s _ _. reflexivity.
  - intros p a p' [= <- <-]. reflexivity.
  - vm_compute. reflexivity.
Defined.

(** * The suspension when every thread answers *)

Section suspend_success.
Import Suspend.

Variable e : env.
Variable self : Z.
Variable self_record : Registry.thread.
Variable names : list string.

Hypothesis self_not_null : self <> 0.
Hypothesis all_respond :
  forall t, t ∈ listed names -> t <> Registry.tid self_record ->
            responds e t = true.
Hypothesis frames_apart :
  forall t, t ∈ listed names -> t <> Registry.tid self_record ->
            frame e t <> 0 /\ frame e t <> self.
Hypothesis frames_distinct :
  forall t1 t2, t1 ∈ listed names -> t2 ∈ listed names ->
                frame e t1 = frame e t2 -> t1 = t2.

#[local] Abbreviation self_tid := (Registry.tid self_record).
#[local] Abbreviation paused := (Suspend.paused e self self_record).

Lemma iter_incr32 (n : nat) (c : Z) :
  Nat.iter n incr32 (c mod 2 ^ 32) = (c + Z.of_nat n) mod 2 ^ 32.
Proof.
  induction n as [|n IH].
  { change (Nat.iter 0 incr32 (c mod 2 ^ 32)) with (c mod 2 ^ 32).
    now rewrite Z.add_0_r. }
  rewrite Nat.iter_succ, IH. unfold incr32.
  rewrite Z.add_mod_idemp_l by lia.
  replace (c + Z.of_nat (S n)) with (c + Z.of_nat n + 1) by lia.
  reflexivity.
Qed.

Lemma paused_seen (ts : list Z) (p : proc) (t : Z) (fuel : nat) :
  paused ts p -> (length ts + 1 < fuel)%nat ->
  Registry.seen_thread fuel t (registry p)
  = Some (bool_decide (t = self_tid \/ t ∈ ts)).
Proof.
  intros (l & Hl & Haddr & Htids & _) Hfuel.
  unfold Registry.seen_thread.
  rewrite (seen_from_linked _ _ l t fuel Hl).
  - f_equal. apply bool_decide_ext. rewrite Htids.
    rewrite elem_of_app, elem_of_reverse, list_elem_of_singleton. tauto.
  - apply (f_equal length) in Htids.
    rewrite length_fmap, length_app, length_reverse in Htids.
    cbn [length] in Htids. lia.
Qed.

Lemma tgkill_paused (ts : list Z) (p : proc) (t : Z) :
  paused ts p -> ts ⊆ listed names ->
  t ∈ listed names -> t <> self_tid -> t ∉ ts ->
  paused (ts ++ [t]) (tgkill e t p)
  /\ signalled (tgkill e t p) = signalled p ++ [t]
  /\ threads_paused (tgkill e t p) = incr32 (threads_paused p)
  /\ thread_lock (tgkill e t p) = thread_lock p
  /\ sigprof (tgkill e t p) = sigprof p
  /\ timeouts (tgkill e t p) = timeouts p.
Proof.
  intros (l & Hl & Haddr & Htids & Hself) Hsub Hin Hne Hnew.
  destruct (frames_apart t Hin Hne) as [Hf0 Hfself].
  unfold tgkill. rewrite (all_respond t Hin Hne).
  unfold pause_thread, notify_paused, set_registry.
  cbn [registry signalled threads_paused thread_lock sigprof timeouts].
  split; [|auto 10].
  assert (frame e t ∉ l.*1) as Hfresh.
  { rewrite Haddr, elem_of_app, elem_of_reverse, list_elem_of_singleton.
    intros [Hold|?]; [|contradiction].
    apply list_elem_of_fmap in Hold as (t' & Heq & Ht').
    apply Hnew. rewrite (frames_distinct t t' Hin (Hsub _ Ht') Heq).
    exact Ht'. }
  pose proof (pause_thread_record_linked (registry p) l (frame e t) t
                (context e t) Hl Hf0 Hfresh) as Hl'.
  cbv zeta in Hl'.
  eexists. split; [exact Hl'|].
  split; [|split].
  - cbn [fmap list_fmap fst]. rewrite Haddr, fmap_app, reverse_app.
    reflexivity.
  - cbn [fmap list_fmap compose snd Registry.tid]. rewrite Htids, reverse_app.
    reflexivity.
  - unfold Registry.pause_thread_record, Registry.add_thread,
      Registry.new_thread.
    cbn [registry Registry.threads Registry.thread_list].
    rewrite lookup_alter_ne, lookup_insert_ne by congruence. exact Hself.
Qed.

(** One pass over the directory. *)
Lemma scan_paused (entries : list string) :
  forall (fuel : nat) (thread_count : Z) (p : proc) (ts : list Z),
    paused ts p -> NoDup ts -> self_tid ∉ ts -> ts ⊆ listed names ->
    listed entries ⊆ listed names ->
    (length ts + length entries + 1 < fuel)%nat ->
    exists (new : list Z) (p' : proc),
      scan fuel e self entries thread_count p
      = Some (Nat.iter (length new) incr32 thread_count, p')
      /\ paused (ts ++ new) p' /\ NoDup (ts ++ new)
      /\ (forall t, t ∈ new <-> t ∈ listed entries /\ t <> self_tid /\ t ∉ ts)
      /\ signalled p' = signalled p ++ new
      /\ threads_paused p' = Nat.iter (length new) incr32 (threads_paused p)
      /\ thread_lock p' = thread_lock p
      /\ sigprof p' = sigprof p
      /\ timeouts p' = timeouts p.
Proof.
  induction entries as [|d_name entries IH];
    intros fuel thread_count p ts Hp Hnd Hself Hsub Hlisted Hfuel.
  { exists [], p. cbn [scan length Nat.iter listed].
    rewrite !app_nil_r. split; [reflexivity|]. split; [exact Hp|].
    split; [exact Hnd|]. split; [|auto 10].
    intros t. split; [intros Hx|intros (Hx & _)]; now apply elem_of_nil in Hx. }
  cbn [scan listed] in *. cbn [length] in Hfuel.
  destruct (String.eqb d_name "." || String.eqb d_name "..") eqn:Hdot.
  { apply IH; auto. lia. }
  assert (atoi d_name ∈ listed names) as Hin by (apply Hlisted; left).
  assert (listed entries ⊆ listed names) as Hlisted'
    by (intros x Hx; apply Hlisted; now right).
  pose proof Hp as (_ & _ & _ & _ & Hrec). rewrite Hrec.
  destruct (Z.eqb_spec (atoi d_name) self_tid) as [Eself|Eself].
  { destruct (IH fuel thread_count p ts)
      as (new & p' & Hrun & Hp' & Hnd' & Hnew & Hrest); auto; [lia|].
    exists new, p'. split; [exact Hrun|]. split; [exact Hp'|].
    split; [exact Hnd'|]. split; [|exact Hrest].
    intros t. rewrite Hnew, elem_of_cons. split; [tauto|].
    intros ([->|?] & ? & ?); [contradiction|tauto]. }
  rewrite (paused_seen ts p (atoi d_name) fuel Hp) by lia.
  destruct (bool_decide_reflect (atoi d_name = self_tid \/ atoi d_name ∈ ts))
    as [[?|Hseen]|Hunseen]; [contradiction| |].
  { destruct (IH fuel thread_count p ts)
      as (new & p' & Hrun & Hp' & Hnd' & Hnew & Hrest); auto; [lia|].
    exists new, p'. split; [exact Hrun|]. split; [exact Hp'|].
    split; [exact Hnd'|]. split; [|exact Hrest].
    intros t. rewrite Hnew, elem_of_cons. split; [tauto|].
    intros ([->|?] & ? & ?); [contradiction|tauto]. }
  assert (atoi d_name ∉ ts) as Hfresh by tauto.
  destruct (tgkill_paused ts p (atoi d_name) Hp Hsub Hin Eself Hfresh)
    as (Hp1 & Hsig1 & Hcnt1 & Hlock1 & Hprof1 & Htime1).
  destruct (IH fuel (incr32 thread_count) (tgkill e (atoi d_name) p)
              (ts ++ [atoi d_name]))
    as (new & p' & Hrun & Hp' & Hnd' & Hnew & Hsig & Hcnt & Hlock & Hprof
        & Htime).
  - exact Hp1.
  - apply NoDup_app. split; [exact Hnd|]. split; [|apply NoDup_singleton].
    intros x Hx Hx'. apply list_elem_of_singleton in Hx'. congruence.
  - rewrite elem_of_app, list_elem_of_singleton. intros [?|?]; auto.
  - intros x Hx. apply elem_of_app in Hx as [Hx|Hx]; [now apply Hsub|].
    apply list_elem_of_singleton in Hx. now subst x.
  - exact Hlisted'.
  - rewrite length_app. cbn [length]. lia.
  - exists (atoi d_name :: new), p'.
    rewrite <- app_assoc in Hp', Hnd'. cbn [app] in Hp', Hnd'.
    cbn [length]. rewrite !Nat.iter_succ_r.
    split; [exact Hrun|]. split; [exact Hp'|]. split; [exact Hnd'|].
    split.
    { intros t. rewrite !elem_of_cons, Hnew, elem_of_app,
        list_elem_of_singleton.
      split.
      - intros [->|(? & ? & ?)]; [tauto|]. tauto.
      - intros ([->|?] & ? & ?); [now left|].
        destruct (decide (t = atoi d_name)); [now left|right]. tauto. }
    rewrite Hsig, Hsig1, <- app_assoc. cbn [app].
    rewrite Hcnt, Hcnt1, Hlock, Hlock1, Hprof, Hprof1, Htime, Htime1.
    auto 10.
Qed.

Hypothesis first_listing : task_dir e 0 = names.
Hypothesis second_listing : task_dir e 1 = names.

(** The passes: the second one finds every thread in the registry. *)
Lemma passes_paused (fuel : nat) (p : proc) :
  paused [] p -> threads_paused p = 0 ->
  (length names + length names + 3 < fuel)%nat ->
  exists (ts : list Z) (p' : proc),
    passes fuel e self 0 0 p = Some p'
    /\ paused ts p' /\ NoDup ts
    /\ (forall t, t ∈ ts <-> t ∈ listed names /\ t <> self_tid)
    /\ signalled p' = signalled p ++ ts
    /\ threads_paused p' = Z.of_nat (length ts) mod 2 ^ 32
    /\ thread_lock p' = thread_lock p
    /\ sigprof p' = sigprof p
    /\ timeouts p' = timeouts p.
Proof.
  intros Hp Hzero Hfuel.
  destruct fuel as [|[|fuel]]; try lia.
  cbn [passes]. rewrite first_listing.
  destruct (scan_paused names (S fuel) 0 p [] Hp)
    as (ts & p1 & Hrun & Hp1 & Hnd1 & Hnew1 & Hsig1 & Hcnt1 & Hlock1 & Hprof1
        & Htime1);
    [ apply NoDup_nil_2 | apply not_elem_of_nil
    | intros x Hx; now apply elem_of_nil in Hx | done | cbn [length]; lia | ].
  rewrite Hrun. cbn [app] in Hp1, Hnd1.
  assert (forall t, t ∈ ts <-> t ∈ listed names /\ t <> self_tid) as Hts.
  { intros t. rewrite Hnew1. split; [tauto|]. intros [? ?].
    split; [assumption|]. split; [assumption|apply not_elem_of_nil]. }
  assert (length ts <= length names)%nat as Hshort.
  { assert (forall l, length (listed l) <= length l)%nat as Hll.
    { induction l as [|d l IHl]; cbn [listed length]; [lia|].
      destruct (_ || _); cbn [length]; lia. }
    transitivity (length (listed names)); [|apply Hll].
    apply submseteq_length, NoDup_submseteq; [exact Hnd1|].
    intros x Hx. now apply Hts in Hx. }
  rewrite Hzero in Hcnt1.
  assert (wait_paused (Nat.iter (length ts) incr32 0) p1 = p1) as Hwait.
  { unfold wait_paused. now rewrite Hcnt1, Z.eqb_refl. }
  rewrite Hwait.
  assert (Nat.iter (length ts) incr32 0 = Z.of_nat (length ts) mod 2 ^ 32)
    as Hiter by (rewrite <- (Z.add_0_l (Z.of_nat (length ts)));
                 exact (iter_incr32 (length ts) 0)).
  destruct (0 =? Nat.iter (length ts) incr32 0).
  { exists ts, p1. rewrite Hcnt1, Hiter. auto 10. }
  cbn [passes]. rewrite second_listing.
  destruct (scan_paused names fuel (Nat.iter (length ts) incr32 0) p1 ts Hp1
              Hnd1)
    as (new & p2 & Hrun2 & Hp2 & Hnd2 & Hnew2 & Hsig2 & Hcnt2 & Hlock2
        & Hprof2 & Htime2);
    [ intros Hin; apply Hts in Hin; tauto
    | intros x Hx; now apply Hts in Hx | done | lia | ].
  assert (new = []) as ->.
  { destruct new as [|t new]; [reflexivity|].
    destruct (proj1 (Hnew2 t) ltac:(left)) as (Hin & Hne & Hnot).
    exfalso. apply Hnot, Hts. auto. }
  cbn [length] in Hrun2, Hcnt2.
  change (Nat.iter 0 incr32 ?x) with x in Hrun2, Hcnt2.
  rewrite app_nil_r in *.
  rewrite Hrun2.
  assert (wait_paused (Nat.iter (length ts) incr32 0) p2 = p2) as Hwait2.
  { unfold wait_paused. now rewrite Hcnt2, Hcnt1, Z.eqb_refl. }
  rewrite Hwait2, Z.eqb_refl.
  exists ts, p2. rewrite Hsig2, Hcnt2, Hcnt1, Hiter, Hlock2, Hprof2, Htime2.
  auto 10.
Qed.

End suspend_success.

(** X18. When every thread that the directory lists answers the pausing
    signal, and the listing is the same on the second pass, the
    coordinator returns after at most two passes. It has signalled every
    listed thread but itself exactly once, [seen_thread] finds exactly
    those threads and the coordinator, each of them has been counted, no
    wait has timed out, the lock is held, and the handler of [SIGPROF] is
    the one found on entry. The threads keep their records in frames that
    differ from each other and from the coordinator's, and the counter of
    paused threads starts at zero. *)
Theorem suspend_other_threads_returns
    (e : Suspend.env) (self : Z) (self_record : Registry.thread)
    (names : list string) (p : Suspend.proc) (fuel : nat) :
  self <> 0 ->
  Registry.threads (Suspend.registry p) !! self = Some self_record ->
  Registry.next self_record = 0 ->
  Suspend.thread_lock p = 0 -> Suspend.threads_paused p = 0 ->
  Suspend.task_dir e 0 = names -> Suspend.task_dir e 1 = names ->
  (forall t, t ∈ Suspend.listed names -> t <> Registry.tid self_record ->
             Suspend.responds e t = true
             /\ Suspend.frame e t <> 0 /\ Suspend.frame e t <> self) ->
  (forall t1 t2, t1 ∈ Suspend.listed names -> t2 ∈ Suspend.listed names ->
                 Suspend.frame e t1 = Suspend.frame e t2 -> t1 = t2) ->
  (length names + length names + 3 < fuel)%nat ->
  exists (ts : list Z) (p' : Suspend.proc),
    Suspend.suspend_other_threads fuel e self p = Some p'
    /\ Suspend.signalled p' = Suspend.signalled p ++ ts
    /\ NoDup ts
    /\ (forall t, t ∈ ts
                  <-> t ∈ Suspend.listed names /\ t <> Registry.tid self_record)
    /\ (forall t fuel',
          (length ts + 1 < fuel')%nat ->
          Registry.seen_thread fuel' t (Suspend.registry p')
          = Some (bool_decide (t = Registry.tid self_record \/ t ∈ ts)))
    /\ Suspend.threads_paused p' = Z.of_nat (length ts) mod 2 ^ 32
    /\ Suspend.timeouts p' = Suspend.timeouts p
    /\ Suspend.thread_lock p' = 1
    /\ Suspend.sigprof p' = Suspend.sigprof p.
Proof.
  intros Hself Hrec Hnext Hlock Hzero Hfirst Hsecond Hthreads Hdistinct Hfuel.
  unfold Suspend.suspend_other_threads, Suspend.take_thread_lock.
  rewrite Hlock. cbn [Z.eqb].
  set (p0 := Suspend.set_sigprof _ _).
  destruct (passes_paused e self self_record names) with (fuel := fuel) (p := p0)
    as (ts & p' & Hrun & Hp' & Hnd & Hts & Hsig & Hcnt & Hlock' & Hprof
        & Htime).
  - intros t Hin Hne. now destruct (Hthreads t Hin Hne).
  - intros t Hin Hne. destruct (Hthreads t Hin Hne) as (_ & ? & ?). auto.
  - exact Hdistinct.
  - exact Hfirst.
  - exact Hsecond.
  - exists [(self, self_record)]. subst p0.
    cbn [Suspend.registry Suspend.set_sigprof Suspend.set_registry
         Registry.reset_threads Registry.threads Registry.thread_list].
    split; [|auto].
    apply Registry.linked_next; [exact Hself|exact Hrec|].
    rewrite Hnext. apply Registry.linked_null.
  - exact Hzero.
  - exact Hfuel.
  - rewrite Hrun. exists ts, (Suspend.set_sigprof (Suspend.sigprof p) p').
    split; [reflexivity|].
    cbn [Suspend.signalled Suspend.set_sigprof Suspend.registry
         Suspend.threads_paused Suspend.timeouts Suspend.thread_lock
         Suspend.sigprof].
    split; [exact Hsig|]. split; [exact Hnd|]. split; [exact Hts|].
    split; [intros t fuel' Hf; now apply (paused_seen e self self_record)|].
    split; [exact Hcnt|]. split; [exact Htime|]. split; [exact Hlock'|].
    reflexivity.
Qed.

Lemma suspend_other_threads_returns_witness :
  exists (ts : list Z) (p' : Suspend.proc),
    Suspend.suspend_other_threads 20 Suspend.all_respond Suspend.self_addr
      Suspend.start = Some p'
    /\ Suspend.signalled p' = Suspend.signalled Suspend.start ++ ts
    /\ NoDup ts
    /\ (forall t,
          t ∈ ts
          <-> t ∈ Suspend.listed ["."; ".."; "100"; "101"; "102"]%string
              /\ t <> Registry.tid
                        {| Registry.next := 0; Registry.tid := 100;
                           Registry.uctx := 0 |})
    /\ (forall t fuel',
          (length ts + 1 < fuel')%nat ->
          Registry.seen_thread fuel' t (Suspend.registry p')
          = Some (bool_decide
                    (t = Registry.tid
                           {| Registry.next := 0; Registry.tid := 100;
                              Registry.uctx := 0 |}
                     \/ t ∈ ts)))
    /\ Suspend.threads_paused p' = Z.of_nat (length ts) mod 2 ^ 32
    /\ Suspend.timeouts p' = Suspend.timeouts Suspend.start
    /\ Suspend.thread_lock p' = 1
    /\ Suspend.sigprof p' = Suspend.sigprof Suspend.start.
Proof.
  apply (suspend_other_threads_returns Suspend.all_respond Suspend.self_addr
           {| Registry.next := 0; Registry.tid := 100; Registry.uctx := 0 |}
           ["."; ".."; "100"; "101"; "102"]%string Suspend.start 20).
  - discriminate.
  - reflexivity.
  - reflexivity.
  - reflexivity.
  - reflexivity.
  - reflexivity.
  - reflexivity.
  - intros t Hin Hne. split; [reflexivity|].
    change (Suspend.listed _) with [100; 101; 102] in Hin.
    cbn [Suspend.frame Suspend.all_respond]. unfold Suspend.self_addr.
    repeat (apply elem_of_cons in Hin as [->|Hin]; [lia|]).
    now apply elem_of_nil in Hin.
  - intros t1 t2 _ _. cbn [Suspend.frame Suspend.all_respond]. lia.
  - cbn [length]. lia.
Defined.

(** * A record that is added twice *)

Section registry_cycle.
Import Registry.

(** A record whose [next] is its own address stops every walk that does
    not find its thread id. *)
Lemma seen_from_loop (heap : gmap Z thread) (self wanted : Z) (t : thread) :
  self <> 0 -> heap !! self = Some t -> next t = self -> tid t <> wanted ->
  forall fuel, seen_from fuel wanted heap self = None.
Proof.
  intros Hself Ht Hnext Htid. induction fuel as [|fuel IH]; [reflexivity|].
  cbn [seen_from]. destruct (Z.eqb_spec self 0); [contradiction|].
  rewrite Ht. destruct (Z.eqb_spec (tid t) wanted); [contradiction|].
  now rewrite Hnext.
Qed.

End registry_cycle.

(** X21. [add_thread] is not to be called twice for one record: the second
    call makes the record its own successor, and from then on
    [seen_thread] finds the thread of that record but never comes to an
    answer for any other thread, whatever the fuel. *)
Theorem add_thread_twice_loops
    (r : Registry.registry) (self tid uctx wanted : Z) (fuel : nat) :
  self <> 0 ->
  let r' := Registry.add_thread self
              (Registry.pause_thread_record self tid uctx r) in
  Registry.seen_thread (S fuel) tid r' = Some true
  /\ (wanted <> tid -> Registry.seen_thread fuel wanted r' = None).
Proof.
  intros Hself r'. subst r'.
  unfold Registry.seen_thread, Registry.pause_thread_record,
    Registry.add_thread, Registry.new_thread.
  cbn [Registry.threads Registry.thread_list].
  rewrite alter_insert_eq. cbn [Registry.tid Registry.uctx].
  rewrite alter_insert_eq. cbn [Registry.tid Registry.uctx].
  split.
  - cbn [Registry.seen_from]. destruct (Z.eqb_spec self 0); [contradiction|].
    rewrite lookup_insert_eq. cbn [Registry.tid]. now rewrite Z.eqb_refl.
  - intros Hne.
    apply (seen_from_loop _ self wanted
             {| Registry.next := self; Registry.tid := tid;
                Registry.uctx := uctx |});
      [exact Hself|apply lookup_insert_eq|reflexivity|cbn; congruence].
Qed.

Lemma add_thread_twice_loops_witness :
  Registry.seen_thread 1001 11
    (Registry.add_thread 2000
       (Registry.pause_thread_record 2000 11 0
          (Registry.new_thread 1000 10 0 Registry.empty))) = Some true
  /\ (10 <> 11 ->
      Registry.seen_thread 1000 10
        (Registry.add_thread 2000
           (Registry.pause_thread_record 2000 11 0
              (Registry.new_thread 1000 10 0 Registry.empty))) = None).
Proof.
  apply (add_thread_twice_loops (Registry.new_thread 1000 10 0 Registry.empty)
           2000 11 0 10 1000).
  discriminate.
Defined.

(** * Reading back what the formatting routines write *)

Section reading_back.
Import Suspend.

Lemma digit_value_dec_char (d : DecimalFacts.digits) :
  exists r, digit_value (dec_char d) = Some r.
Proof. destruct d; eexists; reflexivity. Qed.

Lemma digit_value_char_of_Z (r : Z) :
  0 <= r < 10 -> digit_value (char_of_Z (48 + r)) = Some r.
Proof.
  intros Hr.
  assert (r = 0 \/ r = 1 \/ r = 2 \/ r = 3 \/ r = 4 \/ r = 5 \/ r = 6
          \/ r = 7 \/ r = 8 \/ r = 9) as H by lia.
  repeat (destruct H as [-> | H]); try subst r; reflexivity.
Qed.

Lemma atoi_from_app (l1 l2 : list ascii) :
  Forall (fun c => exists r, digit_value c = Some r) l1 ->
  forall acc,
    atoi_from acc (string_of_list_ascii (l1 ++ l2))
    = atoi_from (atoi_from acc (string_of_list_ascii l1))
        (string_of_list_ascii l2).
Proof.
  induction 1 as [|c l1 [r Hc] _ IH]; intros acc; [reflexivity|].
  cbn [List.app string_of_list_ascii atoi_from]. rewrite Hc. apply IH.
Qed.

Lemma decimal_digits (u : Z) :
  Forall (fun c => exists r, digit_value c = Some r) (Fmt.decimal u).
Proof.
  rewrite decimal_to_list. apply Forall_map, Forall_forall.
  intros d _. apply digit_value_dec_char.
Qed.

Lemma atoi_from_decimal (n : nat) :
  forall u, 0 <= u -> (Z.to_nat u <= n)%nat ->
            atoi_from 0 (string_of_list_ascii (Fmt.decimal u)) = u.
Proof.
  induction n as [|n IH]; intros u Hu Hn.
  - assert (u = 0) as -> by lia. reflexivity.
  - rewrite decimal_step by assumption.
    pose proof (Z.div_mod u 10 ltac:(lia)) as Hdiv.
    pose proof (Z.mod_pos_bound u 10 ltac:(lia)) as Hmod.
    destruct (Z.eqb_spec (u / 10) 0) as [E|E].
    + cbn [List.app string_of_list_ascii atoi_from].
      rewrite digit_value_char_of_Z by assumption. lia.
    + rewrite atoi_from_app by apply decimal_digits.
      rewrite IH by lia.
      cbn [string_of_list_ascii atoi_from].
      rewrite digit_value_char_of_Z by assumption. lia.
Qed.

(** A string that starts with a digit has no white space and no sign for
    [strtol] to take off. *)
Lemma strtol_digits (c : ascii) (s : string) (r : Z) :
  digit_value c = Some r ->
  strtol (String c s) = Z.min (2 ^ 63 - 1) (atoi_from 0 (String c s)).
Proof.
  intros Hc.
  destruct c as [b0 b1 b2 b3 b4 b5 b6 b7];
    destruct b0, b1, b2, b3, b4, b5, b6, b7;
    first [discriminate Hc | reflexivity].
Qed.

Lemma atoi_decimal (u : Z) :
  0 <= u < 2 ^ 32 ->
  atoi (string_of_list_ascii (Fmt.decimal u))
  = if u <? 2 ^ 31 then u else u - 2 ^ 32.
Proof.
  intros Hu. unfold atoi.
  pose proof (atoi_from_decimal (Z.to_nat u) u ltac:(lia) ltac:(lia)) as Hread.
  pose proof (decimal_digits u) as Hdigits.
  destruct (Fmt.decimal u) as [|c l] eqn:El.
  { pose proof (decimal_step u ltac:(lia)) as Hstep. rewrite El in Hstep.
    apply (f_equal (@length ascii)) in Hstep.
    rewrite length_app in Hstep. cbn [length] in Hstep. lia. }
  apply Forall_cons in Hdigits as [[r Hc] _].
  cbn [string_of_list_ascii] in Hread |- *.
  rewrite (strtol_digits c _ r Hc), Hread. unfold int_of_long.
  rewrite Z.min_r by lia. rewrite Z.mod_small by lia. reflexivity.
Qed.

Lemma hex_char_inj (d d' : HexadecimalFacts.digits) :
  hex_char d = hex_char d' -> d = d'.
Proof. destruct d, d'; intros H; first [reflexivity | discriminate H]. Qed.

Lemma map_hex_char_inj (l l' : list HexadecimalFacts.digits) :
  map hex_char l = map hex_char l' -> l = l'.
Proof.
  revert l'. induction l as [|d l IH]; intros [|d' l'] H;
    try discriminate; [reflexivity|].
  cbn [map] in H. injection H as Hd Hl.
  f_equal; [now apply hex_char_inj|now apply IH].
Qed.

Lemma hexadecimal_inj (a b : Z) :
  0 <= a -> 0 <= b -> Fmt.hexadecimal a = Fmt.hexadecimal b -> a = b.
Proof.
  intros Ha Hb H. rewrite !hexadecimal_to_list in H.
  apply map_hex_char_inj, HexadecimalFacts.to_list_inj in H.
  apply (f_equal N.of_hex_uint) in H.
  rewrite !HexadecimalN.Unsigned.of_to in H. lia.
Qed.

End reading_back.

(** X19. What [format_unsigned] writes reads back with [atoi] as the
    [int] that has the bits of the value formatted, for every 32-bit value
    and whatever the buffer held: the value itself below 2^31, and the
    value less 2^32 from there on. So two values never give the same
    text. *)
Theorem format_unsigned_reads_back (u : Z) (buffer : list ascii) :
  0 <= u < 2 ^ 32 -> length buffer = 22%nat ->
  Suspend.atoi (string_of_list_ascii (cstring (Fmt.format_unsigned u buffer)))
  = if u <? 2 ^ 31 then u else u - 2 ^ 32.
Proof.
  intros Hu Hlen. rewrite cstring_format_unsigned by assumption.
  apply atoi_decimal. exact Hu.
Qed.

Lemma format_unsigned_reads_back_witness :
  Suspend.atoi
    (string_of_list_ascii
       (cstring (Fmt.format_unsigned 4294967295 (repeat NUL 22))))
  = -1
  /\ Suspend.atoi
       (string_of_list_ascii
          (cstring (Fmt.format_unsigned 2147483647 (repeat "x"%char 22))))
     = 2147483647.
Proof.
  split.
  - apply (format_unsigned_reads_back 4294967295 (repeat NUL 22));
      [lia|reflexivity].
  - apply (format_unsigned_reads_back 2147483647 (repeat "x"%char 22));
      [lia|reflexivity].
Defined.

(** X20. [format_address] gives different addresses different strings,
    whatever the buffers held: the text identifies the address. *)
Theorem format_address_injective (a b : Z) (buffer buffer' : list ascii) :
  0 <= a < 2 ^ 64 -> 0 <= b < 2 ^ 64 ->
  length buffer = 18%nat -> length buffer' = 18%nat ->
  a <> b ->
  cstring (Fmt.format_address a buffer)
  <> cstring (Fmt.format_address b buffer').
Proof.
  intros Ha Hb Hl Hl' Hne H.
  rewrite !cstring_format_address in H by assumption.
  apply hexadecimal_inj in H; lia.
Qed.

Lemma format_address_injective_witness :
  cstring (Fmt.format_address 4096 (repeat NUL 18))
  <> cstring (Fmt.format_address 65536 (repeat "x"%char 18)).
Proof.
  apply (format_address_injective 4096 65536
           (repeat NUL 18) (repeat "x"%char 18));
    [lia|lia|reflexivity|reflexivity|lia].
Defined.

(** * The launcher on globals that an earlier launch has used *)

Section launcher_again.
Import Launcher.

Variable crashInfo_addr : Z.
Variable s : BacktraceSettings.

Lemma length_strcpy_none (dst : list ascii) :
  length dst = 22%nat -> length (strcpy dst "none") = 22%nat.
Proof.
  intros H. do 5 (destruct dst as [|? dst]; [discriminate|]). exact H.
Qed.

(** The vector after the statements, from globals of the right shape: the
    values are those of the settings, whatever the slots and the buffers
    held. *)
Lemma set_up_argv_shaped (g : globals) :
  shaped g ->
  0 <= crashInfo_addr < 2 ^ 64 -> 0 <= timeout s < 2 ^ 32 ->
  shaped (set_up_argv crashInfo_addr s g)
  /\ argv_strings (set_up_argv crashInfo_addr s g)
     = [ "swift-backtrace";
         "--unwind";
         match algorithm s with
         | UnwindAlgorithm.Fast => "fast" | _ => "precise"
         end;
         "--demangle"; trueOrFalse (demangle s);
         "--interactive"; trueOrFalse (interactive s);
         "--color"; trueOrFalse (color s);
         "--timeout"; string_of_list_ascii (Fmt.decimal (timeout s));
         "--preset";
         match preset s with
         | Preset.Friendly => "friendly" | Preset.Medium => "medium"
         | _ => "full"
         end;
         "--crashinfo"; string_of_list_ascii (Fmt.hexadecimal crashInfo_addr);
         "--threads";
         match threads s with
         | ThreadsToShow.Preset => "preset"
         | ThreadsToShow.All => "all"
         | ThreadsToShow.Crashed => "crashed"
         end;
         "--registers";
         match registers s with
         | RegistersToShow.Preset => "preset"
         | RegistersToShow.None => "none"
         | RegistersToShow.All => "all"
         | RegistersToShow.Crashed => "crashed"
         end;
         "--images";
         match images s with
         | ImagesToShow.Preset => "preset"
         | ImagesToShow.None => "none"
         | ImagesToShow.All => "all"
         | ImagesToShow.Mentioned => "mentioned"
         end;
         "--limit";
         if (limit s <? 0)%Z then "none"
         else string_of_list_ascii (Fmt.decimal (to_unsigned (limit s)));
         "--top"; string_of_list_ascii (Fmt.decimal (to_unsigned (top s)));
         "--sanitize";
         match sanitize s with
         | SanitizePaths.Preset => "preset"
         | SanitizePaths.Off => "false"
         | SanitizePaths.On => "true"
         end;
         "--cache"; trueOrFalse (cache s);
         "--output-to";
         match outputTo s with OutputTo.Stdout => "stdout" | _ => "stderr" end
       ]%string.
Proof.
  intros ((v2 & v4 & v6 & v8 & v12 & v16 & v18 & v20 & v26 & v28 & v30 & Hargv)
          & Ha & Ht & Hl & Hp) Hcrash Htimeout.
  assert (0 <= to_unsigned (limit s) < 2 ^ 32) by (apply Z.mod_pos_bound; lia).
  assert (0 <= to_unsigned (top s) < 2 ^ 32) by (apply Z.mod_pos_bound; lia).
  unfold set_up_argv, statements. cbn [foldl].
  unfold argv_strings, shaped.
  rewrite switch_algorithm, switch_threads, switch_registers, switch_images,
    switch_preset, switch_sanitize, switch_outputTo, limit_branch.
  unfold assign_demangle, assign_interactive, assign_color, assign_cache,
    format_timeout, format_top, format_crashInfo.
  destruct g as [ab tb lb pb argv].
  cbn [backtracer_argv addr_buf timeout_buf limit_buf top_buf]
    in Hargv, Ha, Ht, Hl, Hp.
  subst argv.
  lazy beta iota delta [backtracer_argv addr_buf timeout_buf limit_buf top_buf
    set_argv set_addr_buf set_timeout_buf set_limit_buf set_top_buf].
  cbn [insert list_insert map deref
       backtracer_argv addr_buf timeout_buf limit_buf top_buf].
  split.
  - split; [do 11 eexists; reflexivity|].
    destruct (format_address_spec crashInfo_addr ab Hcrash Ha) as (_ & _ & ->).
    destruct (format_unsigned_spec (timeout s) tb Htimeout Ht) as (_ & _ & ->).
    destruct (format_unsigned_spec (to_unsigned (top s)) pb ltac:(assumption) Hp)
      as (_ & _ & ->).
    split; [reflexivity|]. split; [reflexivity|]. split; [|reflexivity].
    destruct (limit s <? 0); [now apply length_strcpy_none|].
    now destruct (format_unsigned_spec (to_unsigned (limit s)) lb
                    ltac:(assumption) Hl) as (_ & _ & ->).
  - rewrite !cstring_format_unsigned, cstring_format_address by assumption.
    destruct (limit s <? 0).
    + now rewrite cstring_strcpy_none by assumption.
    + now rewrite cstring_format_unsigned by assumption.
Qed.

Lemma initial_shaped : shaped initial.
Proof. split; [do 11 eexists; reflexivity|]. repeat split. Qed.

End launcher_again.

(** X23. The launcher keeps nothing of an earlier launch. From whatever
    values and buffer contents a call has left in the globals, the next
    call builds the vector that it would build in a program just loaded,
    for its own settings and address; and it leaves the globals fit for
    another call. *)
Theorem run_backtracer_forgets_earlier_launch
    (spawn : list string -> Z -> bool) (crashInfo_addr memserver_fd : Z)
    (s : BacktraceSettings) (g : Launcher.globals) :
  Launcher.shaped g ->
  0 <= crashInfo_addr < 2 ^ 64 -> 0 <= timeout s < 2 ^ 32 ->
  let '(spawned, g') :=
    Launcher.run_backtracer spawn crashInfo_addr s memserver_fd g in
  spawned
  = (Launcher.run_backtracer spawn crashInfo_addr s memserver_fd
       Launcher.initial).1
  /\ Launcher.argv_strings g'
     = Launcher.argv_strings
         (Launcher.set_up_argv crashInfo_addr s Launcher.initial)
  /\ Launcher.shaped g'.
Proof.
  intros Hg Hcrash Htimeout. unfold Launcher.run_backtracer. cbn [fst].
  destruct (set_up_argv_shaped crashInfo_addr s g Hg Hcrash Htimeout)
    as [Hshape Hargv].
  destruct (set_up_argv_shaped crashInfo_addr s Launcher.initial
              initial_shaped Hcrash Htimeout) as [_ Hargv0].
  rewrite Hargv, Hargv0. auto.
Qed.

Lemma run_backtracer_forgets_earlier_launch_witness :
  let '(spawned, g') :=
    Launcher.run_backtracer (fun argv _ => bool_decide (length argv = 31%nat))
      93824992247872 sample_settings 3
      (Launcher.set_up_argv 4096
         {| algorithm := UnwindAlgorithm.Fast; demangle := false;
            interactive := OnOffTty.On; color := OnOffTty.On;
            timeout := 4294967295; threads := ThreadsToShow.All;
            registers := RegistersToShow.All; images := ImagesToShow.All;
            limit := 1234567; top := 0; sanitize := SanitizePaths.On;
            preset := Preset.Friendly; cache := false;
            outputTo := OutputTo.Stdout |}
         Launcher.initial) in
  spawned
  = (Launcher.run_backtracer (fun argv _ => bool_decide (length argv = 31%nat))
       93824992247872 sample_settings 3 Launcher.initial).1
  /\ Launcher.argv_strings g'
     = Launcher.argv_strings
         (Launcher.set_up_argv 93824992247872 sample_settings Launcher.initial)
  /\ Launcher.shaped g'.
Proof.
  apply (run_backtracer_forgets_earlier_launch
           (fun argv _ => bool_decide (length argv = 31%nat))
           93824992247872 3 sample_settings);
    [|lia|cbn; lia].
  apply set_up_argv_shaped; [apply initial_shaped|lia|cbn; lia].
Defined.
